(** * Connector-spec parser: a shallow embedding of
      [src/helpers/connectorConfig/specParser.tsx]

    The parser turns an Airbyte connector specification (a JSON-schema-like
    document) into groups of form fields.  This development embeds the
    parser's functions as Rocq functions over an explicit model of the JSON
    input and proves the properties its specification states.

    Conventions of the embedding:
    - an optional JSON member is an [option]; [None] is JavaScript's
      [undefined];
    - a JavaScript object used as a map ([Record<string, AirbyteProperty>])
      is the association list that [Object.entries] enumerates, in that
      order;
    - [Object.entries] applied to [undefined] throws a [TypeError]; this is
      the only exception the parser can raise on well-typed input, and it
      is carried by the [result] type;
    - [Array.prototype.sort] is a stable sort ([js_sort]); with a
      comparator that is not consistent the order it returns is the
      engine's own, which [js_sort] gives for the lists named at
      [sortOneOfSubFields];
    - [String.prototype.localeCompare] depends on the host's collation and
      is a parameter of the development;
    - numerals ([order], [minimum], [maximum]) are integers, and the
      discriminant of a variant ([const]) is a string. *)

From Stdlib Require Import String Ascii List ZArith Bool Lia Permutation.
From Stdlib Require Import Sorted OrderedTypeEx.
Import ListNotations.
Local Open Scope string_scope.
Local Open Scope list_scope.
Local Open Scope Z_scope.

Set Implicit Arguments.
Set Warnings "-register-all".

(** ** JavaScript values and exceptions *)

(** JSON payloads that the parser copies through without looking inside
    ([default], [examples], [enum]).  Numerals are integers here; the parser
    only ever tests them for truthiness. *)
Inductive JsValue : Type :=
| JNull
| JBool (b : bool)
| JNum (z : Z)
| JStr (s : string)
| JArr (l : list JsValue)
| JObj (l : list (string * JsValue)).

(** JavaScript's ToBoolean. *)
Definition truthy (v : JsValue) : bool :=
  match v with
  | JNull => false
  | JBool b => b
  | JNum z => negb (z =? 0)
  | JStr s => negb (s =? "")%string
  | JArr _ => true
  | JObj _ => true
  end.


Definition truthy_bool (o : option bool) : bool :=
  match o with Some b => b | None => false end.

Definition truthy_string (o : option string) : bool :=
  match o with Some s => negb (s =? "")%string | None => false end.

(** [a || b] where [a] is an optional string and [b] a string. *)
Definition or_string (o : option string) (d : string) : string :=
  if truthy_string o then match o with Some s => s | None => d end else d.

Inductive JsError : Type :=
| TypeError (message : string).

(** "Cannot convert undefined or null to object", thrown by
    [Object.entries(undefined)]. *)
Definition entries_of_undefined : JsError :=
  TypeError "Cannot convert undefined or null to object".

Inductive result (A : Type) : Type :=
| Ok (a : A)
| Throw (e : JsError).

Arguments Ok {A} a.
Arguments Throw {A} e.

Definition bind {A B : Type} (r : result A) (k : A -> result B) : result B :=
  match r with
  | Ok a => k a
  | Throw e => Throw e
  end.

Notation "x <- c ;; k" := (bind c (fun x => k))
  (at level 61, c at next level, right associativity).

(** [xs.includes(x)] on an array of strings. *)
Definition includes (xs : list string) (x : string) : bool :=
  existsb (String.eqb x) xs.

(** [xs.join('.')]. *)
Definition join (xs : list string) : string := String.concat "." xs.

(** ** The data model ([types.ts]) *)

(** Modelled from the spec: [types.ts], which declares [AirbyteProperty],
    [AirbyteSpec], [FormField] and [FieldGroup], is not among the sources.
    The members below are the ones [specParser.tsx] reads or writes, with
    the types section 6 of the specification gives them.  The discriminant
    ([const]) is a string, as in every example of the specification.  The
    parser itself handles it as a value of any type: it tests it for
    truthiness, compares it with [!==] and writes it into ids through a
    template literal, so that a discriminant of another type would enter
    an id in its string form.  What is proved about different discriminant
    values is therefore proved of different strings. *)
Inductive AirbyteProperty : Type := mkAirbyteProperty {
  prop_type : option string;
  prop_title : option string;
  prop_description : option string;
  prop_order : option Z;
  prop_group : option string;
  prop_airbyte_hidden : option bool;
  prop_airbyte_secret : option bool;
  prop_default : option JsValue;
  prop_examples : option JsValue;
  prop_pattern : option string;
  prop_pattern_descriptor : option string;
  prop_multiline : option bool;
  prop_enum : option JsValue;
  prop_format : option string;
  prop_minimum : option Z;
  prop_maximum : option Z;
  prop_always_show : option bool;
  prop_display_type : option string;
  prop_const : option string;
  prop_oneOf : option (list AirbyteProperty);
  prop_items : option AirbyteProperty;
  prop_properties : option (list (string * AirbyteProperty));
  (** [Some] when the member is an array ([Array.isArray]). *)
  prop_required : option (list string)
}.

Record SpecGroup : Type := mkSpecGroup {
  sg_id : string;
  sg_title : option string
}.

Record AirbyteSpec : Type := mkAirbyteSpec {
  spec_properties : option (list (string * AirbyteProperty));
  spec_required : option (list string);
  spec_groups : option (list SpecGroup)
}.

Record ConstOption : Type := mkConstOption {
  co_value : string;
  co_title : string;
  co_description : option string
}.

(** A member the constructing function does not write is [None]. *)
Inductive FormField : Type := mkFormField {
  field_id : string;
  field_type : option string;
  field_path : list string;
  field_title : string;
  field_description : option string;
  field_required : bool;
  field_secret : option bool;
  field_hidden : option bool;
  field_default : option JsValue;
  field_examples : option JsValue;
  field_pattern : option string;
  field_patternDescriptor : option string;
  field_multiline : option bool;
  field_enum : option JsValue;
  field_format : option string;
  field_minimum : option Z;
  field_maximum : option Z;
  field_alwaysShow : option bool;
  field_order : option Z;
  field_group : option string;
  field_displayType : option string;
  field_constOptions : option (list ConstOption);
  field_constKey : option string;
  field_itemType : option string;
  field_subFields : option (list FormField);
  field_parentValue : option string
}.

Record FieldGroup : Type := mkFieldGroup {
  group_id : string;
  group_title : option string;
  group_fields : list FormField
}.

(** An empty property, for building examples. *)
Definition emptyProperty : AirbyteProperty :=
  mkAirbyteProperty None None None None None None None None None None None
    None None None None None None None None None None None None.

(** ** Sorting *)

(** [Array.prototype.sort(cmp)].  ECMAScript requires the sort to be stable,
    and for a consistent comparator (a total preorder) a sorted list that
    keeps ties in their original order is unique (lemma [js_sort_unique]):
    every conforming engine returns the array this stable insertion sort
    computes, in which an element moves behind another only when the
    comparator ranks it strictly after.  For a comparator that is not
    consistent ECMAScript leaves the order to the engine; see
    [sortOneOfSubFields]. *)
Section Sort.
Variable A : Type.
Variable cmp : A -> A -> Z.

Fixpoint js_insert (x : A) (l : list A) : list A :=
  match l with
  | [] => [x]
  | y :: t => if 0 <? cmp x y then y :: js_insert x t else x :: y :: t
  end.

Fixpoint js_sort (l : list A) : list A :=
  match l with
  | [] => []
  | x :: t => js_insert x (js_sort t)
  end.

(** The comparator ranks neither of [x] and [y] after the other. *)
Definition ties (x y : A) : bool := (cmp x y <=? 0) && (cmp y x <=? 0).

(** [l'] keeps the elements of [l] that tie in the order they have in
    [l]. *)
Definition stable_for (l l' : list A) : Prop :=
  forall x, filter (ties x) l' = filter (ties x) l.
End Sort.

(** The loop of a [for ... of] or [forEach] whose body appends to one
    accumulator and may throw. *)
Section FlatMap.
Variables A B : Type.
Variable f : A -> result (list B).

Fixpoint flatMapM (l : list A) : result (list B) :=
  match l with
  | [] => Ok []
  | x :: t => ys <- f x ;; zs <- flatMapM t ;; Ok (ys ++ zs)
  end.
End FlatMap.

Section Parser.

(** [a.localeCompare(b)] in the host's default locale. *)
Variable localeCompare : string -> string -> Z.

(** [a.path[a.path.length - 1] || ''] *)
Definition fieldName (a : FormField) : string := last (field_path a) "".

(** The comparator of [sortFieldsByAirbyteRules]. *)
Definition compareByAirbyteRules (a b : FormField) : Z :=
  match field_order a, field_order b with
  | Some oa, Some ob => oa - ob
  | Some _, None => -1
  | None, Some _ => 1
  | None, None =>
      if field_required a && negb (field_required b) then -1
      else if negb (field_required a) && field_required b then 1
      else localeCompare (fieldName a) (fieldName b)
  end.

Definition sortFieldsByAirbyteRules (fields : list FormField)
  : list FormField :=
  js_sort compareByAirbyteRules fields.

(** [a.parentValue !== b.parentValue] *)
Definition parentValue_differs (a b : FormField) : bool :=
  match field_parentValue a, field_parentValue b with
  | Some va, Some vb => negb (va =? vb)%string
  | None, None => false
  | _, _ => true
  end.

(** The comparator of [sortOneOfSubFields]. *)
Definition compareOneOfSubFields (a b : FormField) : Z :=
  if parentValue_differs a b then 0
  else
    match field_order a, field_order b with
    | Some oa, Some ob => oa - ob
    | Some _, None => -1
    | None, Some _ => 1
    | None, None =>
        if field_required a && negb (field_required b) then -1
        else if negb (field_required a) && field_required b then 1
        else localeCompare (fieldName a) (fieldName b)
    end.

(** Across groups this comparator answers 0, so it is not a total preorder
    and the order of the result is the engine's own.  On the lists
    [parseOneOfField] builds from variants with pairwise different
    discriminant values every group is one block; the engines then sort
    inside the blocks, as this sort does (lemma
    [sortOneOfSubFields_groups]), and what is proved about the order of
    subfields is proved of such unions.  When a discriminant value recurs
    in variants that are not adjacent the groups are not blocks, and an
    engine that inserts by binary search can carry a field across another
    group where this sort leaves it in place.  The one such list used
    below, that of [recurringValue], is one on which the two agree: the
    engine reverses the descending run port, host, and its binary search
    then leaves cert, key and alias where they are. *)
Definition sortOneOfSubFields (subFields : list FormField)
  : list FormField :=
  js_sort compareOneOfSubFields subFields.

Definition parseBasicField (key : string) (prop : AirbyteProperty)
    (path : list string) (isRequired : bool) : FormField :=
  {| field_id := join path;
     field_type := prop_type prop;
     field_path := path;
     field_title := or_string (prop_title prop) key;
     field_description := prop_description prop;
     field_required := isRequired;
     field_secret := prop_airbyte_secret prop;
     field_hidden := prop_airbyte_hidden prop;
     field_default := prop_default prop;
     field_examples := prop_examples prop;
     field_pattern := prop_pattern prop;
     field_patternDescriptor := prop_pattern_descriptor prop;
     field_multiline := prop_multiline prop;
     field_enum := prop_enum prop;
     field_format := prop_format prop;
     field_minimum := prop_minimum prop;
     field_maximum := prop_maximum prop;
     field_alwaysShow := prop_always_show prop;
     field_order := prop_order prop;
     field_group := prop_group prop;
     field_displayType := None;
     field_constOptions := None;
     field_constKey := None;
     field_itemType := None;
     field_subFields := None;
     field_parentValue := None |}.

(** [subField.parentValue = constValue; subField.id = ...] *)
Definition tagSubField (path : list string) (constValue propKey : string)
    (subField : FormField) : FormField :=
  {| field_id := (join path ++ "." ++ constValue ++ "." ++ propKey)%string;
     field_type := field_type subField;
     field_path := field_path subField;
     field_title := field_title subField;
     field_description := field_description subField;
     field_required := field_required subField;
     field_secret := field_secret subField;
     field_hidden := field_hidden subField;
     field_default := field_default subField;
     field_examples := field_examples subField;
     field_pattern := field_pattern subField;
     field_patternDescriptor := field_patternDescriptor subField;
     field_multiline := field_multiline subField;
     field_enum := field_enum subField;
     field_format := field_format subField;
     field_minimum := field_minimum subField;
     field_maximum := field_maximum subField;
     field_alwaysShow := field_alwaysShow subField;
     field_order := field_order subField;
     field_group := field_group subField;
     field_displayType := field_displayType subField;
     field_constOptions := field_constOptions subField;
     field_constKey := field_constKey subField;
     field_itemType := field_itemType subField;
     field_subFields := field_subFields subField;
     field_parentValue := Some constValue |}.

(** [Array.isArray(x.required) ? x.required : []] *)
Definition requiredOf (p : AirbyteProperty) : list string :=
  match prop_required p with Some r => r | None => [] end.

(** The three accumulators of [parseOneOfField]. *)
Record OneOfState : Type := mkOneOfState {
  st_subFields : list FormField;
  st_constOptions : list ConstOption;
  st_constKey : option string
}.

(** [([_, p]) => p.const] *)
Definition hasConst (entry : string * AirbyteProperty) : bool :=
  truthy_string (prop_const (snd entry)).

Section OneOfLoops.
(** The recursive call of [parseOneOfField] on a nested union. *)
Variable parseNested :
  string -> AirbyteProperty -> list string -> bool -> result FormField.
Variable path : list string.

(** The inner [forEach] over one variant's properties. *)
Definition variantSubFields (fieldConstKey constValue : string)
    (optionRequired : list string)
  : list (string * AirbyteProperty) -> result (list FormField) :=
  flatMapM (fun entry : string * AirbyteProperty =>
    let propKey := fst entry in
    let propDef := snd entry in
    if (propKey =? fieldConstKey)%string then Ok []
    else
      let subFieldPath := path ++ [propKey] in
      subField <-
        match prop_oneOf propDef with
        | Some _ =>
            parseNested propKey propDef subFieldPath
              (includes optionRequired propKey)
        | None =>
            Ok (parseBasicField propKey propDef subFieldPath
                  (includes optionRequired propKey))
        end ;;
      Ok [tagSubField path constValue propKey subField]).

(** One turn of the outer [forEach] over the variants. *)
Definition oneOfOption (st : OneOfState) (option : AirbyteProperty)
  : result OneOfState :=
  match prop_properties option with
  | None => Throw entries_of_undefined (* Object.entries(undefined) *)
  | Some entries =>
  match find hasConst entries with
  | None => Ok st
  | Some constField =>
      let fieldConstKey := fst constField in
      let constValue :=
        match prop_const (snd constField) with
        | Some c => c
        | None => ""
        end in
      let constKey :=
        if truthy_string (st_constKey st) then st_constKey st
        else Some fieldConstKey in
      let constOptions :=
        st_constOptions st ++
        [ {| co_value := constValue;
             co_title := or_string (prop_title option) constValue;
             co_description := prop_description option |} ] in
      subFields <-
        variantSubFields fieldConstKey constValue (requiredOf option)
          entries ;;
      Ok {| st_subFields := st_subFields st ++ subFields;
            st_constOptions := constOptions;
            st_constKey := constKey |}
  end
  end.

Fixpoint oneOfOptions (st : OneOfState) (options : list AirbyteProperty)
  : result OneOfState :=
  match options with
  | [] => Ok st
  | option :: rest =>
      st' <- oneOfOption st option ;; oneOfOptions st' rest
  end.
End OneOfLoops.

Definition oneOfNode (key : string) (prop : AirbyteProperty)
    (path : list string) (isRequired : bool) (st : OneOfState)
  : FormField :=
  {| field_id := join path;
     field_type := Some "object";
     field_path := path;
     field_title := or_string (prop_title prop) key;
     field_description := prop_description prop;
     field_required := isRequired;
     field_secret := None;
     field_hidden := prop_airbyte_hidden prop;
     field_default := None;
     field_examples := None;
     field_pattern := None;
     field_patternDescriptor := None;
     field_multiline := None;
     field_enum := None;
     field_format := None;
     field_minimum := None;
     field_maximum := None;
     field_alwaysShow := None;
     field_order := prop_order prop;
     field_group := prop_group prop;
     field_displayType :=
       Some (or_string (prop_display_type prop) "dropdown");
     field_constOptions := Some (st_constOptions st);
     field_constKey := st_constKey st;
     field_itemType := None;
     field_subFields := Some (sortOneOfSubFields (st_subFields st));
     field_parentValue := None |}.

Definition initialOneOfState : OneOfState :=
  {| st_subFields := []; st_constOptions := []; st_constKey := None |}.

Fixpoint parseOneOfField (key : string) (prop : AirbyteProperty)
    (path : list string) (isRequired : bool) {struct prop}
  : result FormField :=
  st <- match prop_oneOf prop with
        | Some options =>
            oneOfOptions (fun k p => parseOneOfField k p) path
              initialOneOfState options
        | None => Ok initialOneOfState (* prop.oneOf?.forEach *)
        end ;;
  Ok (oneOfNode key prop path isRequired st).

(** [prop.type === t] *)
Definition type_is (prop : AirbyteProperty) (t : string) : bool :=
  match prop_type prop with
  | Some t' => (t' =? t)%string
  | None => false
  end.

Definition is_some {A : Type} (o : option A) : bool :=
  match o with Some _ => true | None => false end.

(** [prop.items?.type] *)
Definition items_type (prop : AirbyteProperty) : option string :=
  match prop_items prop with
  | Some items => prop_type items
  | None => None
  end.

(** [prop.default || []] *)
Definition default_or_empty (prop : AirbyteProperty) : JsValue :=
  match prop_default prop with
  | Some v => if truthy v then v else JArr []
  | None => JArr []
  end.

Definition arrayNode (key : string) (prop : AirbyteProperty)
    (path : list string) (isRequired : bool) (subFields : list FormField)
  : FormField :=
  {| field_id := join path;
     field_type := Some "array";
     field_path := path;
     field_title := or_string (prop_title prop) key;
     field_description := prop_description prop;
     field_required := isRequired;
     field_secret := None;
     field_hidden := prop_airbyte_hidden prop;
     field_default := Some (default_or_empty prop);
     field_examples := None;
     field_pattern := None;
     field_patternDescriptor := None;
     field_multiline := None;
     field_enum := None;
     field_format := None;
     field_minimum := None;
     field_maximum := None;
     field_alwaysShow := None;
     field_order := prop_order prop;
     field_group := prop_group prop;
     field_displayType := None;
     field_constOptions := None;
     field_constKey := None;
     field_itemType := Some (or_string (items_type prop) "string");
     field_subFields := Some subFields;
     field_parentValue := None |}.

Section ArrayField.
(** The call of [parseProperties] on the item properties, which are
    present at that point. *)
Variable parseItemProperties :
  list (string * AirbyteProperty) -> list string -> list string ->
  result (list FormField).

Definition parseArrayFieldWith (key : string) (prop : AirbyteProperty)
    (path : list string) (isRequired : bool) : result FormField :=
  subFields <-
    match prop_items prop with
    | Some items =>
        match prop_properties items with
        | Some itemProperties =>
            if type_is items "object" then
              fields <- parseItemProperties itemProperties
                          (path ++ ["0"]) (requiredOf items) ;;
              Ok (sortFieldsByAirbyteRules fields)
            else Ok []
        | None => Ok []
        end
    | None => Ok []
    end ;;
  Ok (arrayNode key prop path isRequired subFields).
End ArrayField.

(** The body of the [for ... of] loop of [parseProperties], for the entry
    [[key, prop]]; it returns what the turn pushes onto [fields]. *)
Fixpoint parseProperty (parentPath required : list string) (key : string)
    (prop : AirbyteProperty) {struct prop} : result (list FormField) :=
  if truthy_bool (prop_airbyte_hidden prop) then Ok [] (* continue *)
  else
    let path := parentPath ++ [key] in
    let basic :=
      Ok [parseBasicField key prop path (includes required key)] in
    match prop_oneOf prop with
    | Some _ =>
        field <- parseOneOfField key prop path (includes required key) ;;
        Ok [field]
    | None =>
        if type_is prop "array" && is_some (prop_items prop) then
          field <- parseArrayFieldWith
                     (fun properties parentPath' required' =>
                        flatMapM (fun entry =>
                          parseProperty parentPath' required'
                            (fst entry) (snd entry)) properties)
                     key prop path (includes required key) ;;
          Ok [field]
        else if type_is prop "object" then
          match prop_properties prop with
          | Some nested =>
              flatMapM (fun entry =>
                parseProperty path (requiredOf prop)
                  (fst entry) (snd entry)) nested
          | None => basic
          end
        else basic
    end.

(** The loop of [parseProperties] over the entries of a mapping. *)
Definition parseEntries (entries : list (string * AirbyteProperty))
    (parentPath required : list string) : result (list FormField) :=
  flatMapM (fun entry =>
    parseProperty parentPath required (fst entry) (snd entry)) entries.

Definition parseProperties
    (properties : option (list (string * AirbyteProperty)))
    (parentPath required : list string) : result (list FormField) :=
  match properties with
  | Some entries => parseEntries entries parentPath required
  | None => Throw entries_of_undefined (* Object.entries(undefined) *)
  end.

Definition parseArrayField : string -> AirbyteProperty -> list string ->
    bool -> result FormField :=
  parseArrayFieldWith parseEntries.

(** [field.group === group.id] *)
Definition in_group (group : SpecGroup) (field : FormField) : bool :=
  match field_group field with
  | Some g => (g =? sg_id group)%string
  | None => false
  end.

Definition parseAirbyteSpec (spec : AirbyteSpec)
  : result (list FieldGroup) :=
  allFields <- parseProperties (spec_properties spec) []
                 match spec_required spec with
                 | Some r => r
                 | None => []
                 end ;;
  match spec_groups spec with
  | None =>
      Ok [ {| group_id := "default";
              group_title := None;
              group_fields := sortFieldsByAirbyteRules allFields |} ]
  | Some groups =>
      Ok (map (fun group =>
                 {| group_id := sg_id group;
                    group_title := sg_title group;
                    group_fields :=
                      sortFieldsByAirbyteRules
                        (filter (in_group group) allFields) |})
            groups)
  end.

End Parser.

(** ** Concrete inputs *)

(** A collation for the examples: comparison by code units.  On words of
    lower-case ASCII letters it ranks as the usual alphabetical order. *)
Definition codeUnitCompare (a b : string) : Z :=
  match String.compare a b with
  | Eq => 0
  | Lt => -1
  | Gt => 1
  end.

(** A property with the members the examples need; every other member is
    absent. *)
Definition schemaNode (type : option string) (order : option Z)
    (group : option string) (hidden : option bool) (default : option JsValue)
    (const : option string) (oneOf : option (list AirbyteProperty))
    (items : option AirbyteProperty)
    (properties : option (list (string * AirbyteProperty)))
    (required : option (list string)) : AirbyteProperty :=
  mkAirbyteProperty type None None order group hidden None default None None
    None None None None None None None None const oneOf items properties
    required.

Definition leaf (type : string) : AirbyteProperty :=
  schemaNode (Some type) None None None None None None None None None.

Definition hiddenLeaf (type : string) : AirbyteProperty :=
  schemaNode (Some type) None None (Some true) None None None None None None.

Definition constLeaf (value : string) : AirbyteProperty :=
  schemaNode (Some "string") None None None None (Some value) None None None
    None.

Definition objectNode (properties : list (string * AirbyteProperty))
    (required : list string) : AirbyteProperty :=
  schemaNode (Some "object") None None None None None None None
    (Some properties) (Some required).

Definition arrayOf (items : AirbyteProperty) : AirbyteProperty :=
  schemaNode (Some "array") None None None None None None (Some items) None
    None.

Definition oneOfNodeOf (variants : list AirbyteProperty) : AirbyteProperty :=
  schemaNode (Some "object") None None None None None (Some variants) None
    None None.

Definition rootSpec (properties : list (string * AirbyteProperty))
    (required : list string) : AirbyteSpec :=
  {| spec_properties := Some properties;
     spec_required := Some required;
     spec_groups := None |}.

(** ** Vocabulary of the specification *)

(** "[a] sorts before [b]" in the words of the ordering rules: both carry an
    order numeral and [a]'s is smaller; or only [a] carries one; or neither
    does and [a] is required while [b] is optional, or they agree on
    [required] and [a]'s key collates first. *)
Definition spec_sorts_before (localeCompare : string -> string -> Z)
    (a b : FormField) : Prop :=
  match field_order a, field_order b with
  | Some oa, Some ob => oa < ob
  | Some _, None => True
  | None, Some _ => False
  | None, None =>
      (field_required a = true /\ field_required b = false) \/
      (field_required a = field_required b /\
       localeCompare (fieldName a) (fieldName b) < 0)
  end.

(** A collation ranks [x] before [y] exactly when it ranks [y] after [x]. *)
Definition antisymmetric_collation (localeCompare : string -> string -> Z) : Prop :=
  forall x y, localeCompare x y < 0 <-> 0 < localeCompare y x.

(** A collation that ranks [x] no later than [y], and [y] no later than
    [z], ranks [x] no later than [z]. *)
Definition transitive_collation (localeCompare : string -> string -> Z) : Prop :=
  forall x y z,
    localeCompare x y <= 0 -> localeCompare y z <= 0 ->
    localeCompare x z <= 0.

(** [x] occurs before [y] in [l]. *)
Definition occurs_before {A : Type} (x y : A) (l : list A) : Prop :=
  exists l1 l2 l3, l = l1 ++ x :: l2 ++ y :: l3.

(** The discriminant of a variant: the key and the value of the first of
    its properties that fixes a constant. *)
Definition discriminantOf (variant : AirbyteProperty)
  : option (string * string) :=
  match prop_properties variant with
  | Some entries =>
      match find hasConst entries with
      | Some constField =>
          Some (fst constField,
                match prop_const (snd constField) with
                | Some c => c
                | None => ""
                end)
      | None => None
      end
  | None => None
  end.

(** The discriminant values of the variants that expose one, in declaration
    order. *)
Fixpoint discriminantValues (options : list AirbyteProperty) : list string :=
  match options with
  | [] => []
  | option :: rest =>
      match discriminantOf option with
      | Some kv => snd kv :: discriminantValues rest
      | None => discriminantValues rest
      end
  end.

(** Every variant of every union in the property carries a [properties]
    mapping. *)
Fixpoint variants_have_properties (prop : AirbyteProperty) : bool :=
  match prop_oneOf prop with
  | Some options =>
      forallb (fun option =>
                 is_some (prop_properties option) &&
                 variants_have_properties option) options
  | None => true
  end
  && match prop_items prop with
     | Some items => variants_have_properties items
     | None => true
     end
  && match prop_properties prop with
     | Some entries =>
         forallb (fun entry => variants_have_properties (snd entry)) entries
     | None => true
     end.


(** The nodes of an output tree: the fields of a list and, below each, its
    subfields. *)
Inductive emitted (fields : list FormField) : FormField -> Prop :=
| emitted_here field :
    In field fields -> emitted fields field
| emitted_below parent subFields field :
    emitted fields parent ->
    field_subFields parent = Some subFields ->
    In field subFields ->
    emitted fields field.

(** ** Further vocabulary and inputs of the statements *)

(** The siblings of the specification's example, as [parseProperties]
    builds them. *)
Definition hostPortDbname : AirbyteSpec :=
  rootSpec
    [("host", leaf "string"); ("port", leaf "integer");
     ("dbname", leaf "string")]
    ["host"; "dbname"].

Definition hostField : FormField :=
  parseBasicField "host" (leaf "string") ["host"] true.
Definition portField : FormField :=
  parseBasicField "port" (leaf "integer") ["port"] false.
Definition dbnameField : FormField :=
  parseBasicField "dbname" (leaf "string") ["dbname"] true.

(** A field with [order = 1] that is optional, and a required field without
    [order]. *)
Definition orderedOptional : FormField :=
  parseBasicField "z"
    (schemaNode (Some "string") (Some 1) None None None None None None None
       None)
    ["z"] false.
Definition orderlessRequired : FormField :=
  parseBasicField "a" (leaf "string") ["a"] true.

Definition requiredOfSpec (spec : AirbyteSpec) : list string :=
  match spec_required spec with Some r => r | None => [] end.






Definition objectArray : AirbyteProperty :=
  arrayOf (objectNode [("name", leaf "string"); ("id", leaf "integer")]
             ["id"]).

(** What one variant contributes: a subfield is built from a property other
    than the discriminant, tagged with the discriminant value and given the
    identifier made of the union's path, that value and the property key;
    and every such property contributes one. *)
Definition built_from (path : list string) (value propKey : string)
    (subField : FormField) : Prop :=
  field_parentValue subField = Some value /\
  field_path subField = path ++ [propKey] /\
  field_id subField = (join path ++ "." ++ value ++ "." ++ propKey)%string.

(** The groups of subfields of a union: one per variant that exposes a
    discriminant, in declaration order, each with the discriminant value and
    the subfields of the variant in encounter order. *)
Inductive variant_groups
    (parseNested :
       string -> AirbyteProperty -> list string -> bool -> result FormField)
    (path : list string)
  : list AirbyteProperty -> list (string * list FormField) -> Prop :=
| groups_nil : variant_groups parseNested path [] []
| groups_skip variant rest groups :
    prop_properties variant <> None ->
    discriminantOf variant = None ->
    variant_groups parseNested path rest groups ->
    variant_groups parseNested path (variant :: rest) groups
| groups_cons variant rest groups entries key value subFields :
    prop_properties variant = Some entries ->
    discriminantOf variant = Some (key, value) ->
    variantSubFields parseNested path key value (requiredOf variant) entries
      = Ok subFields ->
    variant_groups parseNested path rest groups ->
    variant_groups parseNested path (variant :: rest)
      ((value, subFields) :: groups).

(** The union of the specification's example: under [ssl_mode], variants
    with discriminant values verify-ca and disable, each exposing
    [password]. *)
Definition sslMode : AirbyteProperty :=
  oneOfNodeOf
    [objectNode [("mode", constLeaf "verify-ca"); ("password", leaf "string")]
       [];
     objectNode [("mode", constLeaf "disable"); ("password", leaf "string")]
       []].

(** A union whose second variant lists its properties against the sibling
    order. *)
Definition twoVariants : AirbyteProperty :=
  oneOfNodeOf
    [objectNode [("kind", constLeaf "key"); ("user", leaf "string")] [];
     objectNode [("kind", constLeaf "token"); ("zone", leaf "string");
                 ("api", leaf "string")] []].

(** A schema whose root has [properties] and whose union has a variant
    without [properties], and a schema with the two malformed nodes the
    parser tolerates: a variant without a discriminant and an array without
    an item schema. *)
Definition variantWithoutProperties : AirbyteSpec :=
  rootSpec [("mode", oneOfNodeOf [emptyProperty]); ("host", leaf "string")]
    [].

Definition toleratedSpec : AirbyteSpec :=
  rootSpec
    [("mode", oneOfNodeOf [objectNode [("note", leaf "string")] []]);
     ("tags", schemaNode (Some "array") None None None None None None None
                None None);
     ("host", leaf "string")]
    [].



(** A schema with a nested object, an array of objects and a union. *)
Definition nestedSpec : AirbyteSpec :=
  rootSpec
    [("bucket", objectNode [("name", leaf "string")] ["name"]);
     ("rows", objectArray);
     ("ssl_mode", sslMode)]
    [].

(** A union whose variant has a hidden property beside its
    discriminant. *)
Definition hiddenInVariant : AirbyteSpec :=
  rootSpec
    [("ssl_mode",
      oneOfNodeOf
        [objectNode [("mode", constLeaf "verify-ca");
                     ("client_key", hiddenLeaf "string")] []])]
    [].

(** A union two of whose variants carry the same discriminant value and
    expose a property of the same name. *)
Definition sameValueVariants : AirbyteProperty :=
  oneOfNodeOf
    [objectNode [("mode", constLeaf "verify-ca");
                 ("password", leaf "string")] [];
     objectNode [("mode", constLeaf "verify-ca");
                 ("password", leaf "integer")] []].

(** A union in which a discriminant value recurs: the first, the second
    and the fourth variant carry the value ssh, the third carries tls. *)
Definition recurringValue : AirbyteProperty :=
  oneOfNodeOf
    [objectNode [("kind", constLeaf "ssh"); ("port", leaf "integer")] [];
     objectNode [("kind", constLeaf "ssh"); ("host", leaf "string")] [];
     objectNode [("kind", constLeaf "tls"); ("cert", leaf "string");
                 ("key", leaf "string")] [];
     objectNode [("kind", constLeaf "ssh"); ("alias", leaf "string")] []].

(** ** Vocabulary of the further properties *)

(** An entry that [parseProperties] does not skip. *)
Definition visible (entry : string * AirbyteProperty) : bool :=
  negb (truthy_bool (prop_airbyte_hidden (snd entry))).

(** A nested object whose property is required by the object and not by the
    root. *)
Definition bucketEntries : list (string * AirbyteProperty) :=
  [("bucket", objectNode [("name", leaf "string"); ("zone", leaf "string")]
                ["name"])].

(** Three siblings that the rules separate, declared in two orders. *)
Definition declaredOnce : list FormField :=
  [hostField; portField; dbnameField].
Definition declaredOtherwise : list FormField :=
  [dbnameField; portField; hostField].

(** The entry of a variant in the selector of its union: the discriminant
    value, the variant's title or else that value, and its description. *)
Definition optionOf (variant : AirbyteProperty) : option ConstOption :=
  match discriminantOf variant with
  | Some kv =>
      Some {| co_value := snd kv;
              co_title := or_string (prop_title variant) (snd kv);
              co_description := prop_description variant |}
  | None => None
  end.

Fixpoint optionsOf (options : list AirbyteProperty) : list ConstOption :=
  match options with
  | [] => []
  | variant :: rest =>
      match optionOf variant with
      | Some o => o :: optionsOf rest
      | None => optionsOf rest
      end
  end.

(** The discriminant keys of the variants that expose one, in declaration
    order. *)
Fixpoint discriminantKeys (options : list AirbyteProperty) : list string :=
  match options with
  | [] => []
  | variant :: rest =>
      match discriminantOf variant with
      | Some kv => fst kv :: discriminantKeys rest
      | None => discriminantKeys rest
      end
  end.

(** The first key that is not the empty string; failing that the empty
    string, when there is a key at all. *)
Definition firstKey (keys : list string) : option string :=
  match find (fun k => negb (k =? "")%string) keys with
  | Some k => Some k
  | None => match keys with [] => None | _ :: _ => Some "" end
  end.

(** A union whose second variant names its discriminant differently. *)
Definition mixedKeys : AirbyteProperty :=
  oneOfNodeOf
    [objectNode [("note", leaf "string")] [];
     schemaNode (Some "object") None None None None None None None
       (Some [("mode", constLeaf "basic"); ("user", leaf "string")]) None;
     objectNode [("kind", constLeaf "token"); ("token", leaf "string")] []].




(** A property of every node of an output tree. *)
Definition all_nodes (Q : FormField -> Prop) (fields : list FormField)
  : Prop :=
  forall field, emitted fields field -> Q field.

(** How a node of the output comes about: it is a basic field, or the node
    a call of [parseArrayField] or of [parseOneOfField] returned, built at a
    path that ends in its own key; or it is such a node tagged as the
    subfield of a union. *)
Inductive built_by (lc : string -> string -> Z) : FormField -> Prop :=
| built_basic parentPath key prop isRequired :
    built_by lc (parseBasicField key prop (parentPath ++ [key]) isRequired)
| built_array parentPath key prop isRequired node :
    parseArrayField lc key prop (parentPath ++ [key]) isRequired = Ok node ->
    built_by lc node
| built_union parentPath key prop isRequired node :
    parseOneOfField lc key prop (parentPath ++ [key]) isRequired = Ok node ->
    built_by lc node
| built_tagged path value key raw :
    built_by lc raw ->
    field_path raw = path ++ [key] ->
    built_by lc (tagSubField path value key raw).

(** The rule of identifiers: the path joined by dots, except for the
    subfield of a union, which has the union's path, the discriminant value
    and its key joined by dots. *)
Definition id_rule (field : FormField) : Prop :=
  match field_parentValue field with
  | None => field_id field = join (field_path field)
  | Some value =>
      exists path key,
        field_path field = path ++ [key] /\
        field_id field = (join path ++ "." ++ value ++ "." ++ key)%string
  end.

(** The three shapes of a node. *)
Definition union_shape (field : FormField) : Prop :=
  field_type field = Some "object" /\
  field_itemType field = None /\
  field_default field = None /\
  exists options subFields display,
    field_constOptions field = Some options /\
    field_subFields field = Some subFields /\
    field_displayType field = Some display /\ display <> "".

Definition array_shape (field : FormField) : Prop :=
  field_type field = Some "array" /\
  field_constOptions field = None /\
  field_constKey field = None /\
  field_displayType field = None /\
  exists itemType subFields default,
    field_itemType field = Some itemType /\ itemType <> "" /\
    field_subFields field = Some subFields /\
    field_default field = Some default /\ truthy default = true.

Definition basic_shape (field : FormField) : Prop :=
  field_subFields field = None /\
  field_constOptions field = None /\
  field_constKey field = None /\
  field_itemType field = None /\
  field_displayType field = None.

(** The rule of subfields: those of a union lie one key below it and carry
    a [parentValue]; those of an array lie below the index placeholder and
    carry none. *)
Definition child_rule (parent : FormField) : Prop :=
  forall subFields subField,
    field_subFields parent = Some subFields -> In subField subFields ->
    (field_constOptions parent <> None ->
     exists key value,
       field_path subField = field_path parent ++ [key] /\
       field_parentValue subField = Some value) /\
    (field_itemType parent <> None ->
     exists key rest,
       field_path subField = field_path parent ++ "0" :: key :: rest /\
       field_parentValue subField = None).

(** A condition on the keys of a mapping that also holds of the keys of
    every mapping nested in it. *)
Inductive objects_satisfy (P : list string -> Prop)
  : list (string * AirbyteProperty) -> Prop :=
| objects_satisfy_intro entries :
    P (map fst entries) ->
    (forall key q nested,
       In (key, q) entries -> prop_properties q = Some nested ->
       objects_satisfy P nested) ->
    objects_satisfy P entries.

(** The string has no dot in it. *)
Fixpoint no_dot (s : string) : bool :=
  match s with
  | EmptyString => true
  | String c s' => negb (Ascii.eqb c ".") && no_dot s'
  end.

(** Keys differ within each object, as the keys of a JavaScript object
    do. *)
Definition distinct_keys : list (string * AirbyteProperty) -> Prop :=
  objects_satisfy (@NoDup string).

Definition dotless_keys : list (string * AirbyteProperty) -> Prop :=
  objects_satisfy (Forall (fun key => no_dot key = true)).

(** A root mapping with nested objects that reuse a key of the root. *)
Definition reusedKeys : list (string * AirbyteProperty) :=
  [("name", leaf "string");
   ("bucket", objectNode [("name", leaf "string");
                          ("region", objectNode [("name", leaf "string")] [])]
                []);
   ("tags", arrayOf (leaf "string"))].

(** The nodes of an output tree that are reached without entering a
    union: the fields of the list and, below a node that is not a union,
    its subfields. *)
Inductive emitted_outside_unions (fields : list FormField)
  : FormField -> Prop :=
| outside_here field :
    In field fields -> emitted_outside_unions fields field
| outside_below parent subFields field :
    emitted_outside_unions fields parent ->
    field_constOptions parent = None ->
    field_subFields parent = Some subFields ->
    In field subFields ->
    emitted_outside_unions fields field.

(** A schema with a hidden property at the root, in a nested object and in
    the items of an array. *)
Definition hiddenOutsideUnions : AirbyteSpec :=
  rootSpec
    [("token", hiddenLeaf "string");
     ("bucket", objectNode [("name", leaf "string");
                            ("secret", hiddenLeaf "string")] []);
     ("rows", arrayOf (objectNode [("id", leaf "integer");
                                   ("salt", hiddenLeaf "string")] []))]
    [].

(** Outside unions every node of the list is built from a visible
    property. *)
Definition visible_outside (fields : list FormField) : Prop :=
  forall field, emitted_outside_unions fields field ->
    truthy_bool (field_hidden field) = false.

(** A union whose variant has, beside its discriminant, an array of
    objects that it requires and an object. *)
Definition arrayInVariant : AirbyteProperty :=
  oneOfNodeOf
    [objectNode
       [("kind", constLeaf "list");
        ("bucket", objectNode [("name", leaf "string")] ["name"]);
        ("rows", objectArray)]
       ["rows"]].

(** The field moved below a prefix: the prefix is put before its path and,
    with a dot, before its id, and its subfields are moved with it. *)
Fixpoint relocate (prefix : list string) (field : FormField) : FormField :=
  {| field_id := (join prefix ++ "." ++ field_id field)%string;
     field_type := field_type field;
     field_path := prefix ++ field_path field;
     field_title := field_title field;
     field_description := field_description field;
     field_required := field_required field;
     field_secret := field_secret field;
     field_hidden := field_hidden field;
     field_default := field_default field;
     field_examples := field_examples field;
     field_pattern := field_pattern field;
     field_patternDescriptor := field_patternDescriptor field;
     field_multiline := field_multiline field;
     field_enum := field_enum field;
     field_format := field_format field;
     field_minimum := field_minimum field;
     field_maximum := field_maximum field;
     field_alwaysShow := field_alwaysShow field;
     field_order := field_order field;
     field_group := field_group field;
     field_displayType := field_displayType field;
     field_constOptions := field_constOptions field;
     field_constKey := field_constKey field;
     field_itemType := field_itemType field;
     field_subFields :=
       match field_subFields field with
       | Some subFields => Some (map (relocate prefix) subFields)
       | None => None
       end;
     field_parentValue := field_parentValue field |}.

(** The accumulators of [parseOneOfField] with the subfields moved. *)
Definition relocate_state (prefix : list string) (st : OneOfState)
  : OneOfState :=
  {| st_subFields := map (relocate prefix) (st_subFields st);
     st_constOptions := st_constOptions st;
     st_constKey := st_constKey st |}.

(** Two siblings with the same order numeral, the later in the alphabet
    declared first. *)
Definition orderedLeaf (order : Z) : AirbyteProperty :=
  schemaNode (Some "string") (Some order) None None None None None None None
    None.

Definition zetaField : FormField :=
  parseBasicField "zeta" (orderedLeaf 1) ["zeta"] false.
Definition alphaField : FormField :=
  parseBasicField "alpha" (orderedLeaf 1) ["alpha"] false.




(** A union both of whose variants hold, under the same key, the same
    nested union. *)
Definition csvFormat : AirbyteProperty :=
  oneOfNodeOf
    [objectNode [("type", constLeaf "csv"); ("delimiter", leaf "string")]
       []].

Definition formatInBoth : AirbyteProperty :=
  oneOfNodeOf
    [objectNode [("kind", constLeaf "file"); ("format", csvFormat)] [];
     objectNode [("kind", constLeaf "url"); ("format", csvFormat)]
       ["format"]].

(** ** Vocabulary and inputs of the amended claims *)










(** * Properties *)

Unset Implicit Arguments.

(** ** The exception monad and the loops *)

Lemma bind_Ok_inv (A B : Type) (r : result A) (k : A -> result B) (b : B) :
  bind r k = Ok b -> exists a, r = Ok a /\ k a = Ok b.
Proof.
  destruct r as [a | e]; simpl; intros H.
  - exists a. split; [reflexivity | exact H].
  - discriminate H.
Qed.

Lemma bind_Throw_inv (A B : Type) (r : result A) (k : A -> result B)
    (e : JsError) :
  bind r k = Throw e ->
  r = Throw e \/ exists a, r = Ok a /\ k a = Throw e.
Proof.
  destruct r as [a | e']; simpl; intros H.
  - right. exists a. split; [reflexivity | exact H].
  - left. now injection H as ->.
Qed.

Lemma flatMapM_app (A B : Type) (f : A -> result (list B)) (l1 l2 : list A) :
  flatMapM f (l1 ++ l2) =
  (ys <- flatMapM f l1 ;; zs <- flatMapM f l2 ;; Ok (ys ++ zs)).
Proof.
  induction l1 as [| x t IH]; simpl.
  - destruct (flatMapM f l2); reflexivity.
  - destruct (f x) as [ys | e]; simpl; [| reflexivity].
    rewrite IH.
    destruct (flatMapM f t) as [zs | e]; simpl; [| reflexivity].
    destruct (flatMapM f l2) as [ws | e]; simpl; [| reflexivity].
    now rewrite app_assoc.
Qed.

Lemma flatMapM_In (A B : Type) (f : A -> result (list B)) (l : list A)
    (ys : list B) :
  flatMapM f l = Ok ys ->
  forall y, In y ys <-> exists x zs, In x l /\ f x = Ok zs /\ In y zs.
Proof.
  revert ys. induction l as [| x t IH]; simpl; intros ys H y.
  - injection H as <-. split; [intros [] | intros (? & ? & [] & _)].
  - apply bind_Ok_inv in H as (zs & Hx & H).
    apply bind_Ok_inv in H as (ws & Ht & H).
    injection H as <-.
    rewrite in_app_iff, (IH _ Ht). split.
    + intros [Hy | (x' & zs' & Hin & Hf & Hy)].
      * exists x, zs. auto.
      * exists x', zs'. auto.
    + intros (x' & zs' & [<- | Hin] & Hf & Hy).
      * left. rewrite Hx in Hf. injection Hf as <-. exact Hy.
      * right. exists x', zs'. auto.
Qed.

Lemma flatMapM_ext_in (A B : Type) (f g : A -> result (list B))
    (l : list A) :
  (forall x, In x l -> f x = g x) -> flatMapM f l = flatMapM g l.
Proof.
  induction l as [| x t IH]; simpl; intros H; [reflexivity |].
  rewrite (H x (or_introl eq_refl)), IH; [reflexivity |].
  intros y Hy. apply H. now right.
Qed.

Lemma flatMapM_total (A B : Type) (f : A -> result (list B)) (l : list A) :
  (forall x, In x l -> exists ys, f x = Ok ys) ->
  exists zs, flatMapM f l = Ok zs.
Proof.
  induction l as [| x t IH]; simpl; intros H.
  - now exists [].
  - destruct (H x (or_introl eq_refl)) as (ys & ->).
    destruct IH as (zs & ->); [intros y Hy; apply H; now right |].
    simpl. now eexists.
Qed.

(** ** The sort *)

Section SortFacts.
Variable A : Type.
Variable cmp : A -> A -> Z.

Lemma js_insert_perm (x : A) (l : list A) :
  Permutation (js_insert cmp x l) (x :: l).
Proof.
  induction l as [| y t IH]; simpl; [reflexivity |].
  destruct (0 <? cmp x y); [| reflexivity].
  rewrite IH. apply perm_swap.
Qed.

Lemma js_sort_perm (l : list A) : Permutation (js_sort cmp l) l.
Proof.
  induction l as [| x t IH]; simpl; [reflexivity |].
  rewrite js_insert_perm. now constructor.
Qed.

Lemma js_sort_In (l : list A) (x : A) : In x (js_sort cmp l) <-> In x l.
Proof.
  split; apply Permutation_in;
    [apply js_sort_perm | symmetry; apply js_sort_perm].
Qed.

Lemma js_sort_Forall (P : A -> Prop) (l : list A) :
  Forall P l -> Forall P (js_sort cmp l).
Proof.
  rewrite !Forall_forall. intros H x Hx. apply H. now apply js_sort_In.
Qed.

Lemma js_sort_length (l : list A) : length (js_sort cmp l) = length l.
Proof. apply Permutation_length, js_sort_perm. Qed.

Lemma js_sort_pair (a b : A) :
  js_sort cmp [a; b] = if 0 <? cmp a b then [b; a] else [a; b].
Proof. reflexivity. Qed.

(** With a comparator that is a total preorder the result is sorted. *)
Lemma js_insert_sorted (x : A) (l : list A) :
  (forall a b, 0 < cmp a b -> cmp b a <= 0) ->
  (forall a b c, cmp a b <= 0 -> cmp b c <= 0 -> cmp a c <= 0) ->
  StronglySorted (fun a b => cmp a b <= 0) l ->
  StronglySorted (fun a b => cmp a b <= 0) (js_insert cmp x l).
Proof.
  intros Hconnex Htrans. induction l as [| y t IH]; simpl; intros Hsorted.
  - repeat constructor.
  - apply StronglySorted_inv in Hsorted as [Ht Hy].
    destruct (0 <? cmp x y) eqn:E.
    + apply Z.ltb_lt in E. constructor; [now apply IH |].
      rewrite Forall_forall in *. intros z Hz.
      apply (Permutation_in _ (js_insert_perm x t)) in Hz as [<- | Hz];
        [now apply Hconnex | now apply Hy].
    + apply Z.ltb_ge in E. constructor; [now constructor |].
      constructor; [exact E |].
      rewrite Forall_forall in *. intros z Hz.
      apply (Htrans x y z E). now apply Hy.
Qed.

Lemma js_sort_sorted (l : list A) :
  (forall a b, 0 < cmp a b -> cmp b a <= 0) ->
  (forall a b c, cmp a b <= 0 -> cmp b c <= 0 -> cmp a c <= 0) ->
  StronglySorted (fun a b => cmp a b <= 0) (js_sort cmp l).
Proof.
  intros Hconnex Htrans. induction l as [| x t IH]; simpl.
  - constructor.
  - now apply js_insert_sorted.
Qed.
(** The sort is stable, and with a comparator that is a total preorder it
    is the only stable sort: whatever list is sorted and keeps ties in their
    original order is the list [js_sort] returns. *)
Section TotalPreorder.
Hypothesis connex : forall a b, 0 < cmp a b -> cmp b a <= 0.
Hypothesis trans : forall a b c, cmp a b <= 0 -> cmp b c <= 0 -> cmp a c <= 0.

Lemma ties_refl (x : A) : ties cmp x x = true.
Proof.
  unfold ties. assert (cmp x x <= 0).
  { destruct (Z.lt_ge_cases 0 (cmp x x)); [now apply connex | lia]. }
  apply andb_true_iff. split; now apply Z.leb_le.
Qed.

Lemma ties_true (x y : A) :
  ties cmp x y = true <-> cmp x y <= 0 /\ cmp y x <= 0.
Proof. unfold ties. now rewrite andb_true_iff, !Z.leb_le. Qed.

Lemma js_insert_stable (z x : A) (l : list A) :
  filter (ties cmp z) (js_insert cmp x l) = filter (ties cmp z) (x :: l).
Proof.
  induction l as [| y t IH]; [reflexivity |].
  simpl js_insert. destruct (0 <? cmp x y) eqn:E; [| reflexivity].
  apply Z.ltb_lt in E. simpl filter at 1. rewrite IH. simpl.
  destruct (ties cmp z x) eqn:Ex, (ties cmp z y) eqn:Ey; try reflexivity.
  apply ties_true in Ex as [Hzx Hxz]. apply ties_true in Ey as [Hzy Hyz].
  pose proof (trans x z y Hxz Hzy). lia.
Qed.

Lemma js_sort_stable (l : list A) : stable_for cmp l (js_sort cmp l).
Proof.
  intros z. induction l as [| x t IH]; [reflexivity |].
  simpl js_sort. rewrite js_insert_stable. simpl. now rewrite IH.
Qed.

Lemma sorted_stable_unique (l1 l2 : list A) :
  StronglySorted (fun a b => cmp a b <= 0) l1 ->
  StronglySorted (fun a b => cmp a b <= 0) l2 ->
  (forall x, filter (ties cmp x) l1 = filter (ties cmp x) l2) ->
  l1 = l2.
Proof.
  revert l2. induction l1 as [| a l1 IH]; intros l2 H1 H2 Hfilter.
  - destruct l2 as [| b l2]; [reflexivity |].
    specialize (Hfilter b). simpl in Hfilter.
    rewrite ties_refl in Hfilter. discriminate.
  - destruct l2 as [| b l2].
    { specialize (Hfilter a). simpl in Hfilter.
      rewrite ties_refl in Hfilter. discriminate. }
    apply StronglySorted_inv in H1 as [H1 Ha].
    apply StronglySorted_inv in H2 as [H2 Hb].
    rewrite Forall_forall in Ha, Hb.
    assert (Hba : cmp b a <= 0).
    { assert (Hin : In a (filter (ties cmp a) (b :: l2))).
      { rewrite <- Hfilter. simpl. rewrite ties_refl. now left. }
      apply filter_In in Hin as [[<- | Hin] _]; [| now apply Hb].
      apply (proj1 (ties_true b b)), ties_refl. }
    assert (Hab : cmp a b <= 0).
    { assert (Hin : In b (filter (ties cmp b) (a :: l1))).
      { rewrite Hfilter. simpl. rewrite ties_refl. now left. }
      apply filter_In in Hin as [[<- | Hin] _]; [| now apply Ha].
      apply (proj1 (ties_true a a)), ties_refl. }
    assert (Heq : a = b).
    { pose proof (Hfilter a) as H. simpl in H.
      rewrite ties_refl, (proj2 (ties_true a b) (conj Hab Hba)) in H.
      now injection H. }
    subst b. f_equal. apply IH; [exact H1 | exact H2 |].
    intros x. specialize (Hfilter x). simpl in Hfilter.
    destruct (ties cmp x a); [now injection Hfilter | exact Hfilter].
Qed.

Lemma js_sort_unique (l l' : list A) :
  StronglySorted (fun a b => cmp a b <= 0) l' ->
  stable_for cmp l l' ->
  l' = js_sort cmp l.
Proof.
  intros Hsorted Hstable. apply sorted_stable_unique.
  - exact Hsorted.
  - now apply js_sort_sorted.
  - intros x. rewrite Hstable. symmetry. apply js_sort_stable.
Qed.
End TotalPreorder.
End SortFacts.

Lemma js_insert_ext_in (A : Type) (cmp1 cmp2 : A -> A -> Z) (x : A)
    (l : list A) :
  (forall y, In y l -> cmp1 x y = cmp2 x y) ->
  js_insert cmp1 x l = js_insert cmp2 x l.
Proof.
  induction l as [| y t IH]; simpl; intros H; [reflexivity |].
  rewrite (H y (or_introl eq_refl)).
  destruct (0 <? cmp2 x y); [| reflexivity].
  f_equal. apply IH. intros z Hz. apply H. now right.
Qed.

Lemma js_sort_ext (A : Type) (cmp1 cmp2 : A -> A -> Z) (l : list A) :
  (forall a b, cmp1 a b = cmp2 a b) -> js_sort cmp1 l = js_sort cmp2 l.
Proof.
  intros H. induction l as [| x t IH]; simpl; [reflexivity |].
  rewrite IH. apply js_insert_ext_in. intros y _. apply H.
Qed.

(** ** Induction on schemas *)

(** The induction principle of the nested type: a property holds of every
    schema node when it is inherited from the variants, the item schema and
    the nested properties. *)
Section SchemaInduction.
Variable P : AirbyteProperty -> Prop.
Hypothesis step : forall prop,
  (forall options, prop_oneOf prop = Some options -> Forall P options) ->
  (forall items, prop_items prop = Some items -> P items) ->
  (forall entries, prop_properties prop = Some entries ->
     Forall (fun entry => P (snd entry)) entries) ->
  P prop.

Lemma schema_ind : forall prop, P prop.
Proof.
  fix IH 1. intros prop. apply step; destruct prop; simpl.
  - destruct prop_oneOf0 as [options |]; [| discriminate].
    assert (HF : Forall P options).
    { induction options as [| o os IHos]; constructor;
        [apply IH | exact IHos]. }
    intros ? [= <-]. exact HF.
  - destruct prop_items0 as [items |]; [| discriminate].
    intros ? [= <-]. apply IH.
  - destruct prop_properties0 as [entries |]; [| discriminate].
    assert (HF : Forall (fun entry => P (snd entry)) entries).
    { induction entries as [| [k q] es IHes]; constructor;
        [apply IH | exact IHes]. }
    intros ? [= <-]. exact HF.
Qed.
End SchemaInduction.

(** ** The functions, as the source writes them *)

Section Equations.
Variable lc : string -> string -> Z.

Lemma parseOneOfField_eq (key : string) (prop : AirbyteProperty)
    (path : list string) (isRequired : bool) :
  parseOneOfField lc key prop path isRequired =
  (st <- match prop_oneOf prop with
         | Some options =>
             oneOfOptions (parseOneOfField lc) path initialOneOfState
               options
         | None => Ok initialOneOfState
         end ;;
   Ok (oneOfNode lc key prop path isRequired st)).
Proof. destruct prop; reflexivity. Qed.

(** The dispatch of [parseProperties] on one entry: hidden entries are
    skipped; a union goes to [parseOneOfField]; an array with an item
    schema to [parseArrayField]; an object with properties is walked in
    place; anything else is a basic field. *)
Lemma parseProperty_eq (parentPath required : list string) (key : string)
    (prop : AirbyteProperty) :
  parseProperty lc parentPath required key prop =
  if truthy_bool (prop_airbyte_hidden prop) then Ok []
  else
    let path := parentPath ++ [key] in
    let basic :=
      Ok [parseBasicField key prop path (includes required key)] in
    match prop_oneOf prop with
    | Some _ =>
        field <- parseOneOfField lc key prop path (includes required key) ;;
        Ok [field]
    | None =>
        if type_is prop "array" && is_some (prop_items prop) then
          field <- parseArrayField lc key prop path
                     (includes required key) ;;
          Ok [field]
        else if type_is prop "object" then
          match prop_properties prop with
          | Some nested => parseEntries lc nested path (requiredOf prop)
          | None => basic
          end
        else basic
    end.
Proof. destruct prop; reflexivity. Qed.

Lemma parseArrayField_eq (key : string) (prop : AirbyteProperty)
    (path : list string) (isRequired : bool) :
  parseArrayField lc key prop path isRequired =
  (subFields <-
     match prop_items prop with
     | Some items =>
         match prop_properties items with
         | Some itemProperties =>
             if type_is items "object" then
               fields <- parseProperties lc (Some itemProperties)
                           (path ++ ["0"]) (requiredOf items) ;;
               Ok (sortFieldsByAirbyteRules lc fields)
             else Ok []
         | None => Ok []
         end
     | None => Ok []
     end ;;
   Ok (arrayNode key prop path isRequired subFields)).
Proof. reflexivity. Qed.

Lemma parseEntries_cons (key : string) (prop : AirbyteProperty)
    (rest : list (string * AirbyteProperty))
    (parentPath required : list string) :
  parseEntries lc ((key, prop) :: rest) parentPath required =
  (ys <- parseProperty lc parentPath required key prop ;;
   zs <- parseEntries lc rest parentPath required ;;
   Ok (ys ++ zs)).
Proof. reflexivity. Qed.
End Equations.

(** ** The ordering of siblings *)

Section Ordering.
Variable lc : string -> string -> Z.

(** The comparator ranks [a] before [b] exactly in the cases the ordering
    rules list. *)
Lemma compareByAirbyteRules_before (a b : FormField) :
  compareByAirbyteRules lc a b < 0 <-> spec_sorts_before lc a b.
Proof.
  unfold compareByAirbyteRules, spec_sorts_before.
  destruct (field_order a) as [oa |], (field_order b) as [ob |];
    try lia.
  destruct (field_required a), (field_required b); simpl;
    intuition (try discriminate; try lia).
Qed.

Lemma compareByAirbyteRules_after (a b : FormField) :
  antisymmetric_collation lc ->
  spec_sorts_before lc a b -> 0 < compareByAirbyteRules lc b a.
Proof.
  intros Hanti. unfold compareByAirbyteRules, spec_sorts_before.
  destruct (field_order a) as [oa |], (field_order b) as [ob |];
    try lia.
  destruct (field_required a), (field_required b); simpl;
    intros [[? ?] | [? H]]; try discriminate; try lia;
    now apply Hanti.
Qed.

Lemma sorts_before_pair (a b : FormField) :
  antisymmetric_collation lc ->
  spec_sorts_before lc a b ->
  sortFieldsByAirbyteRules lc [a; b] = [a; b] /\
  sortFieldsByAirbyteRules lc [b; a] = [a; b].
Proof.
  intros Hanti Hab. unfold sortFieldsByAirbyteRules.
  rewrite !js_sort_pair.
  pose proof (proj2 (compareByAirbyteRules_before a b) Hab) as H1.
  pose proof (compareByAirbyteRules_after a b Hanti Hab) as H2.
  destruct (0 <? compareByAirbyteRules lc a b) eqn:E1;
    [apply Z.ltb_lt in E1; lia |].
  destruct (0 <? compareByAirbyteRules lc b a) eqn:E2;
    [| apply Z.ltb_ge in E2; lia].
  split; reflexivity.
Qed.
(** The comparator is a total preorder when the collation is. *)
Lemma compareByAirbyteRules_connex (a b : FormField) :
  antisymmetric_collation lc ->
  0 < compareByAirbyteRules lc a b -> compareByAirbyteRules lc b a <= 0.
Proof.
  intros Hanti. unfold compareByAirbyteRules.
  destruct (field_order a) as [oa |], (field_order b) as [ob |];
    try lia.
  destruct (field_required a), (field_required b); simpl; try lia;
    intros H; apply Hanti in H; lia.
Qed.

Lemma compareByAirbyteRules_trans (a b c : FormField) :
  transitive_collation lc ->
  compareByAirbyteRules lc a b <= 0 ->
  compareByAirbyteRules lc b c <= 0 ->
  compareByAirbyteRules lc a c <= 0.
Proof.
  intros Htrans. unfold compareByAirbyteRules.
  destruct (field_order a) as [oa |], (field_order b) as [ob |],
    (field_order c) as [oc |]; try lia.
  destruct (field_required a), (field_required b), (field_required c);
    simpl; try lia; apply Htrans.
Qed.

(** A sorted list of siblings: no field is followed by one that the rules
    rank before it. *)
Lemma sortFieldsByAirbyteRules_sorted (fields : list FormField) :
  antisymmetric_collation lc -> transitive_collation lc ->
  StronglySorted (fun a b => ~ spec_sorts_before lc b a)
    (sortFieldsByAirbyteRules lc fields).
Proof.
  intros Hanti Htrans.
  assert (H : StronglySorted
                (fun a b => compareByAirbyteRules lc a b <= 0)
                (sortFieldsByAirbyteRules lc fields)).
  { apply js_sort_sorted.
    - intros a b. now apply compareByAirbyteRules_connex.
    - intros a b c. now apply compareByAirbyteRules_trans. }
  induction H as [| a l _ IH Hall]; constructor; [exact IH |].
  rewrite Forall_forall in *. intros b Hb Hbefore.
  pose proof (compareByAirbyteRules_after b a Hanti Hbefore).
  specialize (Hall b Hb). lia.
Qed.
(** Whatever stable sort an engine implements, it returns this list. *)
Lemma sortFieldsByAirbyteRules_unique (fields sorted : list FormField) :
  antisymmetric_collation lc -> transitive_collation lc ->
  StronglySorted (fun a b => compareByAirbyteRules lc a b <= 0) sorted ->
  stable_for (compareByAirbyteRules lc) fields sorted ->
  sorted = sortFieldsByAirbyteRules lc fields.
Proof.
  intros Hanti Htrans. apply js_sort_unique.
  - intros a b. now apply compareByAirbyteRules_connex.
  - intros a b c. now apply compareByAirbyteRules_trans.
Qed.
End Ordering.

Lemma codeUnitCompare_antisymmetric :
  antisymmetric_collation codeUnitCompare.
Proof.
  intros x y. unfold codeUnitCompare.
  rewrite (String.compare_antisym y x).
  destruct (String.compare x y); simpl; lia.
Qed.

Lemma codeUnitCompare_transitive : transitive_collation codeUnitCompare.
Proof.
  intros x y z. unfold codeUnitCompare.
  destruct (String.compare x y) eqn:Exy; try lia;
    destruct (String.compare y z) eqn:Eyz; try lia; intros _ _.
  - apply String.compare_eq_iff in Exy, Eyz. subst.
    pose proof (proj2 (String_as_OT.cmp_eq z z) eq_refl) as H.
    unfold String_as_OT.cmp in H. now rewrite H.
  - apply String.compare_eq_iff in Exy. subst. now rewrite Eyz.
  - apply String.compare_eq_iff in Eyz. subst. now rewrite Exy.
  - change (String_as_OT.cmp x y = Lt) in Exy.
    change (String_as_OT.cmp y z = Lt) in Eyz.
    apply String_as_OT.cmp_lt in Exy, Eyz.
    pose proof (String_as_OT.lt_trans x y z Exy Eyz) as H.
    apply String_as_OT.cmp_lt in H. unfold String_as_OT.cmp in H.
    now rewrite H.
Qed.

(** C3.  The sibling comparator ranks [a] before [b] exactly when both
    carry an [order] and [a]'s is smaller, or only [a] carries one, or
    neither does and [a] is required while [b] is optional, or they agree
    on [required] and [a]'s final path segment collates first; two such
    siblings are sorted with [a] first whatever their initial order, and a
    sorted list of siblings is a permutation of the list in which no field
    is followed by one that these rules rank before it.  The orderless
    siblings host (required), port (optional) and dbname (required) are
    parsed to dbname, host, port; and an optional field with [order = 1]
    sorts before a required field without [order]. *)
Theorem sibling_ordering_rules (lc : string -> string -> Z) :
  antisymmetric_collation lc ->
  transitive_collation lc ->
  lc "dbname" "host" < 0 ->
  (forall a b,
     compareByAirbyteRules lc a b < 0 <-> spec_sorts_before lc a b) /\
  (forall a b,
     spec_sorts_before lc a b ->
     sortFieldsByAirbyteRules lc [a; b] = [a; b] /\
     sortFieldsByAirbyteRules lc [b; a] = [a; b]) /\
  (forall fields,
     Permutation (sortFieldsByAirbyteRules lc fields) fields /\
     StronglySorted (fun a b => ~ spec_sorts_before lc b a)
       (sortFieldsByAirbyteRules lc fields)) /\
  parseAirbyteSpec lc hostPortDbname =
    Ok [ {| group_id := "default";
            group_title := None;
            group_fields := [dbnameField; hostField; portField] |} ] /\
  sortFieldsByAirbyteRules lc [orderlessRequired; orderedOptional] =
    [orderedOptional; orderlessRequired].
Proof.
  intros Hanti Htrans Hdh.
  split; [intros a b; apply compareByAirbyteRules_before |].
  split; [intros a b; now apply sorts_before_pair |].
  split; [intros fields; split;
          [apply js_sort_perm
          | now apply sortFieldsByAirbyteRules_sorted] |].
  split.
  - change (parseAirbyteSpec lc hostPortDbname)
      with (Ok [ {| group_id := "default";
                    group_title := None;
                    group_fields :=
                      sortFieldsByAirbyteRules lc
                        [hostField; portField; dbnameField] |} ]).
    do 3 f_equal.
    unfold sortFieldsByAirbyteRules. simpl js_sort.
    change (compareByAirbyteRules lc portField dbnameField) with 1.
    simpl js_insert.
    change (compareByAirbyteRules lc hostField dbnameField)
      with (lc "host" "dbname").
    apply Hanti in Hdh. apply Z.ltb_lt in Hdh. rewrite Hdh.
    change (compareByAirbyteRules lc hostField portField) with (-1).
    reflexivity.
  - apply sorts_before_pair; [exact Hanti | exact I].
Qed.

Lemma sibling_ordering_rules_witness :
  antisymmetric_collation codeUnitCompare /\
  transitive_collation codeUnitCompare /\
  codeUnitCompare "dbname" "host" < 0 /\
  parseAirbyteSpec codeUnitCompare hostPortDbname =
    Ok [ {| group_id := "default";
            group_title := None;
            group_fields := [dbnameField; hostField; portField] |} ].
Proof.
  split; [exact codeUnitCompare_antisymmetric |].
  split; [exact codeUnitCompare_transitive |].
  split; [reflexivity |].
  apply (sibling_ordering_rules codeUnitCompare
           codeUnitCompare_antisymmetric codeUnitCompare_transitive
           eq_refl).
Defined.

(** ** Groups *)





(** ** Optional members *)


Lemma type_is_true (prop : AirbyteProperty) (t : string) :
  type_is prop t = true <-> prop_type prop = Some t.
Proof.
  unfold type_is. destruct (prop_type prop) as [t' |].
  - rewrite String.eqb_eq. split; [now intros -> | now intros [= ->]].
  - split; discriminate.
Qed.

Lemma type_is_false (prop : AirbyteProperty) (t t' : string) :
  prop_type prop = Some t -> t <> t' -> type_is prop t' = false.
Proof.
  intros Ht Hne. unfold type_is. rewrite Ht. now apply String.eqb_neq.
Qed.

(** ** Strings *)

Lemma list_ascii_of_string_app (a b : string) :
  list_ascii_of_string (a ++ b)%string =
  list_ascii_of_string a ++ list_ascii_of_string b.
Proof. induction a as [| c a IH]; simpl; [reflexivity | now rewrite IH]. Qed.

Lemma string_app_inv_head (a x y : string) :
  (a ++ x)%string = (a ++ y)%string -> x = y.
Proof.
  induction a as [| c a IH]; simpl; intros H; [exact H |].
  injection H as H. now apply IH.
Qed.

Lemma string_app_inv_tail (x y t : string) :
  (x ++ t)%string = (y ++ t)%string -> x = y.
Proof.
  intros H. apply (f_equal list_ascii_of_string) in H.
  rewrite !list_ascii_of_string_app in H. apply app_inv_tail in H.
  rewrite <- (string_of_list_ascii_of_string x).
  rewrite <- (string_of_list_ascii_of_string y).
  now rewrite H.
Qed.

(** ** Unions: identifiers and groups of subfields *)

Lemma fieldName_last (field : FormField) (path : list string)
    (key : string) :
  field_path field = path ++ [key] -> fieldName field = key.
Proof. intros H. unfold fieldName. rewrite H. apply last_last. Qed.

Lemma parseOneOfField_path (lc : string -> string -> Z) (key : string)
    (prop : AirbyteProperty) (path : list string) (isRequired : bool)
    (node : FormField) :
  parseOneOfField lc key prop path isRequired = Ok node ->
  field_path node = path.
Proof.
  rewrite parseOneOfField_eq. intros H.
  apply bind_Ok_inv in H as (st & _ & [= <-]). reflexivity.
Qed.

Section VariantSubFields.
Variable parseNested :
  string -> AirbyteProperty -> list string -> bool -> result FormField.
Variable path : list string.
Hypothesis parseNested_path : forall key prop path' isRequired node,
  parseNested key prop path' isRequired = Ok node ->
  field_path node = path'.

Lemma variantSubFields_In (fieldConstKey constValue : string)
    (optionRequired : list string)
    (entries : list (string * AirbyteProperty))
    (subFields : list FormField) :
  variantSubFields parseNested path fieldConstKey constValue optionRequired
    entries = Ok subFields ->
  (forall subField, In subField subFields ->
     exists propKey propDef,
       In (propKey, propDef) entries /\ propKey <> fieldConstKey /\
       built_from path constValue propKey subField) /\
  (forall propKey propDef,
     In (propKey, propDef) entries -> propKey <> fieldConstKey ->
     exists subField,
       In subField subFields /\
       built_from path constValue propKey subField).
Proof.
  intros H. unfold variantSubFields in H.
  pose proof (flatMapM_In _ _ _ _ _ H) as Hin. split.
  - intros subField Hsub. apply Hin in Hsub as ([propKey propDef] & zs &
      Hentry & Hturn & Hz). simpl in Hturn.
    exists propKey, propDef. split; [exact Hentry |].
    destruct (String.eqb_spec propKey fieldConstKey) as [-> | Hne].
    + injection Hturn as <-. destruct Hz.
    + split; [exact Hne |].
      apply bind_Ok_inv in Hturn as (raw & Hraw & [= <-]).
      destruct Hz as [<- | []]. repeat split. simpl.
      destruct (prop_oneOf propDef).
      * now apply parseNested_path in Hraw.
      * now injection Hraw as <-.
  - intros propKey propDef Hentry Hne.
    assert (Hturn : exists raw,
      match prop_oneOf propDef with
      | Some _ =>
          parseNested propKey propDef (path ++ [propKey])
            (includes optionRequired propKey)
      | None =>
          Ok (parseBasicField propKey propDef (path ++ [propKey])
                (includes optionRequired propKey))
      end = Ok raw).
    { clear Hin. revert subFields H.
      induction entries as [| [k q] es IH]; [destruct Hentry |].
      intros subFields H. simpl in H.
      apply bind_Ok_inv in H as (ys & Hys & H).
      apply bind_Ok_inv in H as (zs & Hzs & _).
      destruct Hentry as [[= -> ->] | Hentry].
      - simpl in Hys.
        destruct (String.eqb_spec propKey fieldConstKey); [contradiction |].
        apply bind_Ok_inv in Hys as (raw & Hraw & _). now exists raw.
      - exact (IH Hentry zs Hzs). }
    destruct Hturn as (raw & Hraw).
    exists (tagSubField path constValue propKey raw). split.
    + apply Hin. exists (propKey, propDef), [tagSubField path constValue
        propKey raw]. split; [exact Hentry |]. split; [| now left].
      simpl. destruct (String.eqb_spec propKey fieldConstKey);
        [contradiction |].
      now rewrite Hraw.
    + repeat split. simpl. destruct (prop_oneOf propDef).
      * now apply parseNested_path in Hraw.
      * now injection Hraw as <-.
Qed.
End VariantSubFields.

Lemma oneOfOptions_groups
    (parseNested :
       string -> AirbyteProperty -> list string -> bool -> result FormField)
    (path : list string) (options : list AirbyteProperty) :
  forall st st',
    oneOfOptions parseNested path st options = Ok st' ->
    exists groups,
      variant_groups parseNested path options groups /\
      map fst groups = discriminantValues options /\
      st_subFields st' = st_subFields st ++ concat (map snd groups) /\
      map co_value (st_constOptions st') =
        map co_value (st_constOptions st) ++ discriminantValues options.
Proof.
  induction options as [| variant rest IH]; intros st st' H; simpl in H.
  - injection H as <-. exists []. simpl. rewrite !app_nil_r.
    repeat split. constructor.
  - apply bind_Ok_inv in H as (st1 & Hturn & Hrest).
    destruct (IH _ _ Hrest) as (groups & Hgroups & Hvalues & Hsubs & Hopts).
    unfold oneOfOption in Hturn. simpl. unfold discriminantOf.
    destruct (prop_properties variant) as [entries |] eqn:Eprops;
      [| discriminate].
    destruct (find hasConst entries) as [constField |] eqn:Efind.
    + apply bind_Ok_inv in Hturn as (subFields & Hvariant & [= <-]).
      simpl in *.
      exists ((match prop_const (snd constField) with
               | Some c => c
               | None => ""
               end, subFields) :: groups).
      split.
      * eapply groups_cons; eauto.
        unfold discriminantOf. now rewrite Eprops, Efind.
      * simpl. rewrite Hvalues, Hsubs, Hopts, map_app. simpl.
        rewrite <- !app_assoc. repeat split.
    + injection Hturn as <-. exists groups. split.
      * apply groups_skip; auto.
        -- rewrite Eprops. discriminate.
        -- unfold discriminantOf. now rewrite Eprops, Efind.
      * repeat split; assumption.
Qed.

(** The subfields of the node [parseOneOfField] returns are the sorted
    concatenation of the groups. *)
Lemma parseOneOfField_groups (lc : string -> string -> Z) (key : string)
    (prop : AirbyteProperty) (path : list string) (isRequired : bool)
    (node : FormField) (options : list AirbyteProperty) :
  prop_oneOf prop = Some options ->
  parseOneOfField lc key prop path isRequired = Ok node ->
  exists groups,
    variant_groups (parseOneOfField lc) path options groups /\
    map fst groups = discriminantValues options /\
    field_subFields node =
      Some (sortOneOfSubFields lc (concat (map snd groups))) /\
    (exists constOptions,
       field_constOptions node = Some constOptions /\
       map co_value constOptions = discriminantValues options).
Proof.
  intros Hoptions. rewrite parseOneOfField_eq, Hoptions. intros H.
  apply bind_Ok_inv in H as (st & Hst & [= <-]).
  apply oneOfOptions_groups in Hst
    as (groups & Hgroups & Hvalues & Hsubs & Hopts).
  exists groups. simpl in *. rewrite Hsubs.
  repeat split; try assumption.
  now exists (st_constOptions st).
Qed.

Lemma variant_groups_In
    (parseNested :
       string -> AirbyteProperty -> list string -> bool -> result FormField)
    (path : list string) (options : list AirbyteProperty)
    (groups : list (string * list FormField)) :
  variant_groups parseNested path options groups ->
  forall value subFields,
    In (value, subFields) groups ->
    exists variant entries key,
      In variant options /\
      prop_properties variant = Some entries /\
      discriminantOf variant = Some (key, value) /\
      variantSubFields parseNested path key value (requiredOf variant)
        entries = Ok subFields.
Proof.
  induction 1 as [| variant rest groups Hprops Hdisc _ IH
                  | variant rest groups entries key value' subFields'
                      Hprops Hdisc Hsubs _ IH];
    intros value subFields Hin.
  - destruct Hin.
  - destruct (IH _ _ Hin) as (v & es & k & Hv & Hrest).
    exists v, es, k. split; [now right | exact Hrest].
  - destruct Hin as [[= <- <-] | Hin].
    + exists variant, entries, key. repeat split; auto. now left.
    + destruct (IH _ _ Hin) as (v & es & k & Hv & Hrest).
      exists v, es, k. split; [now right | exact Hrest].
Qed.

Lemma variant_groups_complete
    (parseNested :
       string -> AirbyteProperty -> list string -> bool -> result FormField)
    (path : list string) (options : list AirbyteProperty)
    (groups : list (string * list FormField)) :
  variant_groups parseNested path options groups ->
  forall variant key value,
    In variant options ->
    discriminantOf variant = Some (key, value) ->
    exists entries subFields,
      prop_properties variant = Some entries /\
      In (value, subFields) groups /\
      variantSubFields parseNested path key value (requiredOf variant)
        entries = Ok subFields.
Proof.
  induction 1 as [| variant' rest groups Hprops Hdisc _ IH
                  | variant' rest groups entries key' value' subFields'
                      Hprops Hdisc Hsubs _ IH];
    intros variant key value Hin Hd.
  - destruct Hin.
  - destruct Hin as [<- | Hin]; [congruence |].
    destruct (IH _ _ _ Hin Hd) as (es & subs & ? & ? & ?).
    exists es, subs. auto.
  - destruct Hin as [<- | Hin].
    + rewrite Hdisc in Hd. injection Hd as <- <-.
      exists entries, subFields'. repeat split; auto. now left.
    + destruct (IH _ _ _ Hin Hd) as (es & subs & ? & ? & ?).
      exists es, subs. repeat split; auto. now right.
Qed.

Lemma built_from_distinct (path : list string) (v1 v2 key : string)
    (s1 s2 : FormField) :
  built_from path v1 key s1 -> built_from path v2 key s2 ->
  v1 <> v2 -> field_id s1 <> field_id s2.
Proof.
  intros (_ & _ & Hid1) (_ & _ & Hid2) Hne Heq. apply Hne.
  rewrite Hid1, Hid2 in Heq.
  apply string_app_inv_head in Heq.
  apply (string_app_inv_head ".") in Heq.
  now apply string_app_inv_tail in Heq.
Qed.

Lemma In_groups_concat (groups : list (string * list FormField))
    (field : FormField) :
  In field (concat (map snd groups)) <->
  exists value subFields, In (value, subFields) groups /\ In field subFields.
Proof.
  rewrite in_concat. split.
  - intros (l & Hl & Hfield). apply in_map_iff in Hl as ([v g] & <- & Hg).
    now exists v, g.
  - intros (v & g & Hg & Hfield). exists g. split; [| exact Hfield].
    apply in_map_iff. now exists (v, g).
Qed.

(** C4 as stated does not hold: two variants with the same discriminant
    value that each expose [password] give their subfields the same id. *)
Lemma same_discriminant_value_same_id :
  exists node s1 s2,
    parseOneOfField codeUnitCompare "ssl_mode" sameValueVariants
      ["ssl_mode"] false = Ok node /\
    field_subFields node = Some [s1; s2] /\
    field_type s1 = Some "string" /\
    field_type s2 = Some "integer" /\
    field_path s1 = ["ssl_mode"; "password"] /\
    field_path s2 = ["ssl_mode"; "password"] /\
    field_id s1 = "ssl_mode.verify-ca.password" /\
    field_id s2 = "ssl_mode.verify-ca.password".
Proof.
  eexists. eexists. eexists.
  split; [reflexivity |]. split; [reflexivity |].
  repeat split.
Qed.

(** C4, as the code has it.  In the node [parseOneOfField] returns for a
    union at [path], every subfield is built from a non-discriminant
    property [propKey] of a variant with discriminant value [value], and
    its id is [{path}.{value}.{propKey}]; every such property yields a
    subfield.  So the subfields that two variants build for the same
    property name have different ids exactly when the discriminant values
    of the variants - strings - differ; variants that share a value give
    them one id. *)
Theorem variant_subfield_ids (lc : string -> string -> Z) (key : string)
    (prop : AirbyteProperty) (path : list string) (isRequired : bool)
    (node : FormField) (options : list AirbyteProperty) :
  prop_oneOf prop = Some options ->
  parseOneOfField lc key prop path isRequired = Ok node ->
  exists subFields,
    field_subFields node = Some subFields /\
    (forall subField, In subField subFields ->
       exists variant entries discKey value propKey propDef,
         In variant options /\
         prop_properties variant = Some entries /\
         discriminantOf variant = Some (discKey, value) /\
         In (propKey, propDef) entries /\ propKey <> discKey /\
         field_parentValue subField = Some value /\
         field_path subField = path ++ [propKey] /\
         field_id subField =
           (join path ++ "." ++ value ++ "." ++ propKey)%string) /\
    (forall variant entries discKey value propKey propDef,
       In variant options ->
       prop_properties variant = Some entries ->
       discriminantOf variant = Some (discKey, value) ->
       In (propKey, propDef) entries -> propKey <> discKey ->
       exists subField,
         In subField subFields /\
         field_parentValue subField = Some value /\
         field_path subField = path ++ [propKey] /\
         field_id subField =
           (join path ++ "." ++ value ++ "." ++ propKey)%string) /\
    (forall s1 s2 v1 v2 propKey,
       In s1 subFields -> In s2 subFields ->
       field_parentValue s1 = Some v1 -> field_parentValue s2 = Some v2 ->
       fieldName s1 = propKey -> fieldName s2 = propKey ->
       (field_id s1 = field_id s2 <-> v1 = v2)).
Proof.
  intros Hoptions Hnode.
  destruct (parseOneOfField_groups lc key prop path isRequired node options
              Hoptions Hnode) as (groups & Hgroups & _ & Hsubs & _).
  exists (sortOneOfSubFields lc (concat (map snd groups))).
  split; [exact Hsubs |].
  assert (Hfrom : forall subField,
    In subField (sortOneOfSubFields lc (concat (map snd groups))) ->
    exists variant entries discKey value propKey propDef,
      In variant options /\
      prop_properties variant = Some entries /\
      discriminantOf variant = Some (discKey, value) /\
      In (propKey, propDef) entries /\ propKey <> discKey /\
      built_from path value propKey subField).
  { intros subField Hin. apply js_sort_In in Hin.
    apply In_groups_concat in Hin as (value & subs & Hgroup & Hin).
    destruct (variant_groups_In _ _ _ _ Hgroups _ _ Hgroup)
      as (variant & entries & discKey & Hvariant & Hprops & Hdisc & Hvs).
    destruct (variantSubFields_In (parseOneOfField lc) path
                (parseOneOfField_path lc) _ _ _ _ _ Hvs) as [Hfwd _].
    destruct (Hfwd _ Hin) as (propKey & propDef & Hentry & Hne & Hbuilt).
    exists variant, entries, discKey, value, propKey, propDef.
    repeat split; auto; apply Hbuilt. }
  split; [| split].
  - intros subField Hin.
    destruct (Hfrom _ Hin) as (variant & entries & discKey & value & propKey
      & propDef & H1 & H2 & H3 & H4 & H5 & H6 & H7 & H8).
    exists variant, entries, discKey, value, propKey, propDef.
    repeat split; assumption.
  - intros variant entries discKey value propKey propDef Hvariant Hprops
      Hdisc Hentry Hne.
    destruct (variant_groups_complete _ _ _ _ Hgroups _ _ _ Hvariant Hdisc)
      as (entries' & subs & Hprops' & Hgroup & Hvs).
    rewrite Hprops in Hprops'. injection Hprops' as <-.
    destruct (variantSubFields_In (parseOneOfField lc) path
                (parseOneOfField_path lc) _ _ _ _ _ Hvs) as [_ Hbwd].
    destruct (Hbwd _ _ Hentry Hne) as (subField & Hin & H6 & H7 & H8).
    exists subField. repeat split; try assumption.
    apply js_sort_In, In_groups_concat. now exists value, subs.
  - intros s1 s2 v1 v2 propKey Hin1 Hin2 Hv1 Hv2 Hk1 Hk2.
    destruct (Hfrom _ Hin1) as (_ & _ & _ & w1 & k1 & _ & _ & _ & _ & _ & _
      & Hb1).
    destruct (Hfrom _ Hin2) as (_ & _ & _ & w2 & k2 & _ & _ & _ & _ & _ & _
      & Hb2).
    pose proof Hb1 as (Hw1 & Hp1 & Hid1).
    pose proof Hb2 as (Hw2 & Hp2 & Hid2).
    rewrite Hv1 in Hw1. injection Hw1 as <-.
    rewrite Hv2 in Hw2. injection Hw2 as <-.
    rewrite (fieldName_last _ _ _ Hp1) in Hk1.
    rewrite (fieldName_last _ _ _ Hp2) in Hk2. subst k1 k2.
    split.
    + intros Heq.
      destruct (string_dec v1 v2) as [Hsame | Hne]; [exact Hsame |].
      now destruct (built_from_distinct path v1 v2 propKey s1 s2 Hb1 Hb2
                      Hne).
    + intros <-. now rewrite Hid1, Hid2.
Qed.

Lemma variant_subfield_ids_witness :
  prop_oneOf sslMode =
    Some [objectNode [("mode", constLeaf "verify-ca");
                      ("password", leaf "string")] [];
          objectNode [("mode", constLeaf "disable");
                      ("password", leaf "string")] []] /\
  exists node subFields,
    parseOneOfField codeUnitCompare "ssl_mode" sslMode ["ssl_mode"] false =
      Ok node /\
    field_subFields node = Some subFields /\
    map field_id subFields =
      ["ssl_mode.verify-ca.password"; "ssl_mode.disable.password"] /\
    forall s1 s2,
      In s1 subFields -> In s2 subFields ->
      field_parentValue s1 = Some "verify-ca" ->
      field_parentValue s2 = Some "disable" ->
      field_id s1 <> field_id s2.
Proof.
  split; [reflexivity |].
  destruct (parseOneOfField codeUnitCompare "ssl_mode" sslMode ["ssl_mode"]
              false) as [node | e] eqn:Hnode; [| discriminate Hnode].
  destruct (variant_subfield_ids codeUnitCompare "ssl_mode" sslMode
              ["ssl_mode"] false node _ eq_refl Hnode)
    as (subFields & Hsubs & Hfrom & _ & Hdistinct).
  exists node, subFields.
  split; [reflexivity |]. split; [exact Hsubs |].
  injection Hnode as <-. injection Hsubs as <-.
  split; [reflexivity |].
  intros s1 s2 Hin1 Hin2 Hv1 Hv2.
  destruct Hin1 as [<- | [<- | []]]; try discriminate Hv1.
  destruct Hin2 as [<- | [<- | []]]; try discriminate Hv2.
  intros Heq.
  apply (Hdistinct _ _ "verify-ca" "disable" "password") in Heq;
    try reflexivity; try (simpl; tauto).
  discriminate Heq.
Defined.

(** ** Unions: the order of subfields *)

Section GroupedSort.
Variable lc : string -> string -> Z.

Lemma compareOneOfSubFields_same (a b : FormField) :
  parentValue_differs a b = false ->
  compareOneOfSubFields lc a b = compareByAirbyteRules lc a b.
Proof. intros H. unfold compareOneOfSubFields. now rewrite H. Qed.

Lemma compareOneOfSubFields_other (a b : FormField) :
  parentValue_differs a b = true -> compareOneOfSubFields lc a b = 0.
Proof. intros H. unfold compareOneOfSubFields. now rewrite H. Qed.

(** Inserting into a list that starts with the element's own group: the
    element settles inside that group. *)
Lemma js_insert_block (x : FormField) (own others : list FormField) :
  (forall y, In y own -> parentValue_differs x y = false) ->
  (forall y, In y others -> parentValue_differs x y = true) ->
  js_insert (compareOneOfSubFields lc) x (own ++ others) =
  js_insert (compareByAirbyteRules lc) x own ++ others.
Proof.
  intros Hown Hothers. induction own as [| y own IH]; simpl.
  - destruct others as [| z others]; [reflexivity |]. simpl.
    now rewrite (compareOneOfSubFields_other x z
                   (Hothers z (or_introl eq_refl))).
  - rewrite (compareOneOfSubFields_same x y (Hown y (or_introl eq_refl))).
    destruct (0 <? compareByAirbyteRules lc x y); [| reflexivity].
    simpl. f_equal. apply IH. intros z Hz. apply Hown. now right.
Qed.

Lemma js_sort_block (own others : list FormField) :
  (forall x y, In x own -> In y own -> parentValue_differs x y = false) ->
  (forall x y, In x own -> In y others -> parentValue_differs x y = true) ->
  sortOneOfSubFields lc (own ++ others) =
  sortFieldsByAirbyteRules lc own ++ sortOneOfSubFields lc others.
Proof.
  unfold sortOneOfSubFields, sortFieldsByAirbyteRules.
  intros Hown Hothers. induction own as [| x own IH]; simpl;
    [reflexivity |].
  rewrite IH.
  - apply js_insert_block.
    + intros y Hy. apply js_sort_In in Hy. apply Hown; simpl; auto.
    + intros y Hy. apply js_sort_In in Hy. apply Hothers; simpl; auto.
  - intros a b Ha Hb. apply Hown; simpl; auto.
  - intros a b Ha Hb. apply Hothers; simpl; auto.
Qed.

Lemma parentValue_differs_false (a b : FormField) (v : string) :
  field_parentValue a = Some v -> field_parentValue b = Some v ->
  parentValue_differs a b = false.
Proof.
  intros Ha Hb. unfold parentValue_differs.
  now rewrite Ha, Hb, String.eqb_refl.
Qed.

Lemma parentValue_differs_true (a b : FormField) (v w : string) :
  field_parentValue a = Some v -> field_parentValue b = Some w ->
  v <> w -> parentValue_differs a b = true.
Proof.
  intros Ha Hb Hne. unfold parentValue_differs. rewrite Ha, Hb.
  apply String.eqb_neq in Hne. now rewrite Hne.
Qed.

(** When the groups carry pairwise different values and lie one after the
    other, the sort of the union's subfields sorts each group by the
    sibling rules and leaves the groups where they are. *)
Lemma sortOneOfSubFields_groups (groups : list (string * list FormField)) :
  (forall value subFields field,
     In (value, subFields) groups -> In field subFields ->
     field_parentValue field = Some value) ->
  NoDup (map fst groups) ->
  sortOneOfSubFields lc (concat (map snd groups)) =
  concat (map (fun group => sortFieldsByAirbyteRules lc (snd group)) groups).
Proof.
  induction groups as [| [value own] groups IH]; intros Htag Hdup;
    [reflexivity |].
  simpl in *. apply NoDup_cons_iff in Hdup as [Hfresh Hdup].
  rewrite js_sort_block.
  - rewrite IH; [reflexivity | | exact Hdup].
    intros v g f Hg Hf. apply (Htag v g f); auto.
  - intros x y Hx Hy.
    apply (parentValue_differs_false x y value);
      apply (Htag value own); auto.
  - intros x y Hx Hy.
    apply In_groups_concat in Hy as (w & g & Hg & Hy).
    apply (parentValue_differs_true x y value w).
    + apply (Htag value own); auto.
    + apply (Htag w g); auto.
    + intros ->. apply Hfresh. apply in_map_iff. now exists (w, g).
Qed.
End GroupedSort.

Lemma occurs_before_concat (A B : Type) (f : A -> list B) (g1 g2 : A)
    (groups : list A) (x y : B) :
  occurs_before g1 g2 groups -> In x (f g1) -> In y (f g2) ->
  occurs_before x y (concat (map f groups)).
Proof.
  intros (l1 & l2 & l3 & ->) Hx Hy.
  apply in_split in Hx as (a & b & Hx).
  apply in_split in Hy as (c & d & Hy).
  exists (concat (map f l1) ++ a), (b ++ concat (map f l2) ++ c),
    (d ++ concat (map f l3)).
  rewrite map_app, concat_app. simpl. rewrite map_app, concat_app. simpl.
  rewrite Hx, Hy. repeat (rewrite <- app_assoc; simpl). reflexivity.
Qed.

(** C5 as stated does not hold of every union.  Here the value ssh recurs:
    it is the discriminant value of the first, the second and the fourth
    variant, with tls between them.  The fields of the first two variants,
    encountered as port, host, come out as host, port; and alias, which the
    rules rank before host, stays behind the fields of tls: the group of
    ssh is not sorted, and port and host, of different variants, have
    changed places. *)
Lemma recurring_value_is_not_sorted_as_a_group :
  exists st node host port cert key alias,
    oneOfOptions (parseOneOfField codeUnitCompare) ["tunnel"]
      initialOneOfState
      [objectNode [("kind", constLeaf "ssh"); ("port", leaf "integer")] [];
       objectNode [("kind", constLeaf "ssh"); ("host", leaf "string")] [];
       objectNode [("kind", constLeaf "tls"); ("cert", leaf "string");
                   ("key", leaf "string")] [];
       objectNode [("kind", constLeaf "ssh"); ("alias", leaf "string")] []]
      = Ok st /\
    st_subFields st = [port; host; cert; key; alias] /\
    parseOneOfField codeUnitCompare "tunnel" recurringValue ["tunnel"] false
      = Ok node /\
    field_subFields node = Some [host; port; cert; key; alias] /\
    map field_id [host; port; cert; key; alias] =
      ["tunnel.ssh.host"; "tunnel.ssh.port"; "tunnel.tls.cert";
       "tunnel.tls.key"; "tunnel.ssh.alias"] /\
    map field_parentValue [host; port; cert; key; alias] =
      [Some "ssh"; Some "ssh"; Some "tls"; Some "tls"; Some "ssh"] /\
    spec_sorts_before codeUnitCompare alias host /\
    occurs_before host alias [host; port; cert; key; alias] /\
    occurs_before port host [port; host; cert; key; alias] /\
    occurs_before host port [host; port; cert; key; alias].
Proof.
  do 7 eexists.
  split; [reflexivity |]. split; [reflexivity |].
  split; [reflexivity |]. split; [reflexivity |].
  split; [reflexivity |]. split; [reflexivity |].
  split; [right; split; reflexivity |].
  split; [refine (ex_intro _ [] (ex_intro _ [_; _; _]
                    (ex_intro _ [] eq_refl))) |].
  split; [refine (ex_intro _ [] (ex_intro _ []
                    (ex_intro _ [_; _; _] eq_refl))) |].
  refine (ex_intro _ [] (ex_intro _ [] (ex_intro _ [_; _; _] eq_refl))).
Qed.

(** C5, as the code has it.  For a union whose variants carry pairwise
    different discriminant values - the source notes that the "const value
    is different for each option" - the sorted subfield list is the
    concatenation, in variant declaration order, of each variant's
    subfields sorted by the sibling rules: sorting acts inside each
    [parentValue] group, and a subfield of an earlier variant precedes
    every subfield of a later variant, as it did when encountered. *)
Theorem oneOf_subfields_sorted_within_groups (lc : string -> string -> Z)
    (key : string) (prop : AirbyteProperty) (path : list string)
    (isRequired : bool) (node : FormField)
    (options : list AirbyteProperty) :
  prop_oneOf prop = Some options ->
  NoDup (discriminantValues options) ->
  parseOneOfField lc key prop path isRequired = Ok node ->
  exists groups subFields,
    variant_groups (parseOneOfField lc) path options groups /\
    map fst groups = discriminantValues options /\
    (forall value own field,
       In (value, own) groups -> In field own ->
       field_parentValue field = Some value) /\
    field_subFields node = Some subFields /\
    subFields =
      concat (map (fun group => sortFieldsByAirbyteRules lc (snd group))
                groups) /\
    (forall g1 g2 x y,
       occurs_before g1 g2 groups -> In x (snd g1) -> In y (snd g2) ->
       occurs_before x y (concat (map snd groups)) /\
       occurs_before x y subFields).
Proof.
  intros Hoptions Hdup Hnode.
  destruct (parseOneOfField_groups lc key prop path isRequired node options
              Hoptions Hnode) as (groups & Hgroups & Hvalues & Hsubs & _).
  assert (Htag : forall value own field,
    In (value, own) groups -> In field own ->
    field_parentValue field = Some value).
  { intros value own field Hgroup Hin.
    destruct (variant_groups_In _ _ _ _ Hgroups _ _ Hgroup)
      as (variant & entries & discKey & _ & _ & _ & Hvs).
    destruct (variantSubFields_In (parseOneOfField lc) path
                (parseOneOfField_path lc) _ _ _ _ _ Hvs) as [Hfwd _].
    destruct (Hfwd _ Hin) as (propKey & propDef & _ & _ & Hbuilt).
    apply Hbuilt. }
  exists groups, (concat (map (fun group =>
                    sortFieldsByAirbyteRules lc (snd group)) groups)).
  repeat split; try assumption.
  - rewrite Hsubs. f_equal. apply sortOneOfSubFields_groups.
    + exact Htag.
    + now rewrite Hvalues.
  - now apply (occurs_before_concat _ _ snd g1 g2).
  - apply (occurs_before_concat _ _
             (fun group => sortFieldsByAirbyteRules lc (snd group)) g1 g2);
      try assumption; now apply js_sort_In.
Qed.

Lemma oneOf_subfields_sorted_within_groups_witness :
  NoDup (discriminantValues
           [objectNode [("kind", constLeaf "key"); ("user", leaf "string")]
              [];
            objectNode [("kind", constLeaf "token"); ("zone", leaf "string");
                        ("api", leaf "string")] []]) /\
  exists node subFields,
    parseOneOfField codeUnitCompare "auth" twoVariants ["auth"] false =
      Ok node /\
    field_subFields node = Some subFields /\
    map field_id subFields =
      ["auth.key.user"; "auth.token.api"; "auth.token.zone"].
Proof.
  assert (Hdup : NoDup (discriminantValues
           [objectNode [("kind", constLeaf "key"); ("user", leaf "string")]
              [];
            objectNode [("kind", constLeaf "token"); ("zone", leaf "string");
                        ("api", leaf "string")] []])).
  { simpl. repeat constructor; simpl; intuition discriminate. }
  split; [exact Hdup |].
  destruct (parseOneOfField codeUnitCompare "auth" twoVariants ["auth"]
              false) as [node | e] eqn:Hnode; [| discriminate Hnode].
  destruct (oneOf_subfields_sorted_within_groups codeUnitCompare "auth"
              twoVariants ["auth"] false node _ eq_refl Hdup Hnode)
    as (groups & subFields & _ & _ & _ & Hsubs & _ & _).
  exists node, subFields.
  split; [reflexivity |]. split; [exact Hsubs |].
  injection Hnode as <-. injection Hsubs as <-. reflexivity.
Defined.

(** ** Induction along the walk *)

(** The parser descends from a property to the entries of its nested
    properties, of its item schema's properties and of its variants'
    properties; a property of schemas holds everywhere when it is inherited
    along these three steps. *)
Lemma walk_ind (Q : AirbyteProperty -> Prop) :
  (forall prop,
     (forall entries key q,
        prop_properties prop = Some entries -> In (key, q) entries -> Q q) ->
     (forall items entries key q,
        prop_items prop = Some items ->
        prop_properties items = Some entries ->
        In (key, q) entries -> Q q) ->
     (forall options variant entries key q,
        prop_oneOf prop = Some options -> In variant options ->
        prop_properties variant = Some entries ->
        In (key, q) entries -> Q q) ->
     Q prop) ->
  forall prop, Q prop.
Proof.
  intros step prop.
  enough (H : Q prop /\
              forall entries key q,
                prop_properties prop = Some entries ->
                In (key, q) entries -> Q q) by apply H.
  induction prop as [prop IHoptions IHitems IHentries] using schema_ind.
  assert (Hbelow : forall entries key q,
            prop_properties prop = Some entries ->
            In (key, q) entries -> Q q).
  { intros entries key q Hentries Hin.
    specialize (IHentries _ Hentries). rewrite Forall_forall in IHentries.
    apply (IHentries (key, q) Hin). }
  split; [| exact Hbelow].
  apply step.
  - exact Hbelow.
  - intros items entries key q Hitems Hentries Hin.
    destruct (IHitems _ Hitems) as [_ H]. exact (H _ _ _ Hentries Hin).
  - intros options variant entries key q Hoptions Hvariant Hentries Hin.
    specialize (IHoptions _ Hoptions). rewrite Forall_forall in IHoptions.
    destruct (IHoptions _ Hvariant) as [_ H]. exact (H _ _ _ Hentries Hin).
Qed.

(** ** Exceptions *)

Lemma variants_have_properties_eq (prop : AirbyteProperty) :
  variants_have_properties prop =
  match prop_oneOf prop with
  | Some options =>
      forallb (fun option =>
                 is_some (prop_properties option) &&
                 variants_have_properties option) options
  | None => true
  end
  && match prop_items prop with
     | Some items => variants_have_properties items
     | None => true
     end
  && match prop_properties prop with
     | Some entries =>
         forallb (fun entry => variants_have_properties (snd entry)) entries
     | None => true
     end.
Proof. destruct prop; reflexivity. Qed.

Lemma variants_have_properties_inv (prop : AirbyteProperty) :
  variants_have_properties prop = true ->
  (forall options variant,
     prop_oneOf prop = Some options -> In variant options ->
     (exists entries, prop_properties variant = Some entries) /\
     variants_have_properties variant = true) /\
  (forall items,
     prop_items prop = Some items -> variants_have_properties items = true) /\
  (forall entries key q,
     prop_properties prop = Some entries -> In (key, q) entries ->
     variants_have_properties q = true).
Proof.
  rewrite variants_have_properties_eq, !andb_true_iff.
  intros [[Hoptions Hitems] Hentries]. split; [| split].
  - intros options variant Ho Hvariant. rewrite Ho in Hoptions.
    rewrite forallb_forall in Hoptions.
    apply Hoptions, andb_true_iff in Hvariant as [Hsome Hwf].
    split; [| exact Hwf].
    destruct (prop_properties variant) as [entries |]; [| discriminate].
    now exists entries.
  - intros items Hi. now rewrite Hi in Hitems.
  - intros entries key q He Hin. rewrite He in Hentries.
    rewrite forallb_forall in Hentries. exact (Hentries _ Hin).
Qed.

Lemma oneOfOptions_total
    (parseNested :
       string -> AirbyteProperty -> list string -> bool -> result FormField)
    (path : list string) (options : list AirbyteProperty) :
  (forall variant, In variant options ->
     exists entries,
       prop_properties variant = Some entries /\
       forall key q, In (key, q) entries ->
         forall path' isRequired,
           exists node, parseNested key q path' isRequired = Ok node) ->
  forall st, exists st', oneOfOptions parseNested path st options = Ok st'.
Proof.
  induction options as [| variant rest IH]; intros Hall st; simpl.
  - now exists st.
  - destruct (Hall variant (or_introl eq_refl)) as (entries & Hprops & Hrec).
    assert (Hturn : exists st1, oneOfOption parseNested path st variant
                                = Ok st1).
    { unfold oneOfOption. rewrite Hprops.
      destruct (find hasConst entries) as [constField |]; [| now exists st].
      assert (Hsubs : exists subs,
        variantSubFields parseNested path (fst constField)
          match prop_const (snd constField) with
          | Some c => c
          | None => ""
          end (requiredOf variant) entries = Ok subs).
      { unfold variantSubFields. apply flatMapM_total.
        intros [key q] Hin. simpl.
        destruct (key =? fst constField)%string; [now eexists |].
        destruct (prop_oneOf q); [| now eexists].
        destruct (Hrec key q Hin (path ++ [key])
                    (includes (requiredOf variant) key)) as (node & ->).
        now eexists. }
      destruct Hsubs as (subs & ->). simpl. now eexists. }
    destruct Hturn as (st1 & ->). simpl. apply IH.
    intros v Hv. apply Hall. now right.
Qed.

Lemma parseOneOfField_total (lc : string -> string -> Z)
    (prop : AirbyteProperty) :
  variants_have_properties prop = true ->
  forall key path isRequired,
    exists node, parseOneOfField lc key prop path isRequired = Ok node.
Proof.
  induction prop as [prop _ _ IH] using walk_ind.
  intros Hwf key path isRequired. rewrite parseOneOfField_eq.
  destruct (variants_have_properties_inv prop Hwf) as (Hoptions & _ & _).
  destruct (prop_oneOf prop) as [options |] eqn:E; [| now eexists].
  destruct (oneOfOptions_total (parseOneOfField lc) path options)
    with (st := initialOneOfState) as (st & ->); [| now eexists].
  intros variant Hvariant.
  destruct (Hoptions options variant eq_refl Hvariant)
    as ((entries & Hentries) & Hwfv).
  exists entries. split; [exact Hentries |].
  intros k q Hin path' r.
  apply (IH options variant entries k q eq_refl Hvariant Hentries Hin).
  destruct (variants_have_properties_inv variant Hwfv) as (_ & _ & H).
  exact (H entries k q Hentries Hin).
Qed.

Lemma parseEntries_total (lc : string -> string -> Z)
    (entries : list (string * AirbyteProperty))
    (parentPath required : list string) :
  (forall key q, In (key, q) entries ->
     exists fields, parseProperty lc parentPath required key q = Ok fields) ->
  exists fields, parseEntries lc entries parentPath required = Ok fields.
Proof.
  intros H. apply flatMapM_total. intros [key q] Hin. now apply H.
Qed.

Lemma parseProperty_total (lc : string -> string -> Z)
    (prop : AirbyteProperty) :
  variants_have_properties prop = true ->
  forall parentPath required key,
    exists fields, parseProperty lc parentPath required key prop = Ok fields.
Proof.
  induction prop as [prop IHnested IHitems _] using walk_ind.
  intros Hwf parentPath required key. rewrite parseProperty_eq.
  destruct (variants_have_properties_inv prop Hwf)
    as (_ & Hwfitems & Hwfnested).
  destruct (truthy_bool (prop_airbyte_hidden prop)); [now eexists |].
  cbv zeta.
  destruct (prop_oneOf prop) as [options |] eqn:Eunion.
  { destruct (parseOneOfField_total lc prop Hwf key (parentPath ++ [key])
                (includes required key)) as (node & ->).
    now eexists. }
  destruct (type_is prop "array" && is_some (prop_items prop)).
  { rewrite parseArrayField_eq.
    destruct (prop_items prop) as [items |] eqn:Eitems; [| now eexists].
    destruct (prop_properties items) as [itemProperties |] eqn:Eprops;
      [| now eexists].
    destruct (type_is items "object"); [| now eexists].
    destruct (parseEntries_total lc itemProperties
                ((parentPath ++ [key]) ++ ["0"]) (requiredOf items))
      as (fields & Hfields).
    - intros k q Hin.
      apply (IHitems items itemProperties k q eq_refl Eprops Hin).
      destruct (variants_have_properties_inv items (Hwfitems _ eq_refl))
        as (_ & _ & H).
      exact (H _ _ _ Eprops Hin).
    - simpl. rewrite Hfields. now eexists. }
  destruct (type_is prop "object"); [| now eexists].
  destruct (prop_properties prop) as [nested |] eqn:Enested;
    [| now eexists].
  apply parseEntries_total. intros k q Hin.
  apply (IHnested nested k q eq_refl Hin).
  exact (Hwfnested _ _ _ eq_refl Hin).
Qed.

Lemma oneOfOptions_app
    (parseNested :
       string -> AirbyteProperty -> list string -> bool -> result FormField)
    (path : list string) (l1 l2 : list AirbyteProperty) (st : OneOfState) :
  oneOfOptions parseNested path st (l1 ++ l2) =
  (st1 <- oneOfOptions parseNested path st l1 ;;
   oneOfOptions parseNested path st1 l2).
Proof.
  revert st. induction l1 as [| variant l1 IH]; intros st; simpl;
    [reflexivity |].
  destruct (oneOfOption parseNested path st variant) as [st1 | e]; simpl;
    [apply IH | reflexivity].
Qed.

Lemma oneOfOption_no_discriminant
    (parseNested :
       string -> AirbyteProperty -> list string -> bool -> result FormField)
    (path : list string) (st : OneOfState) (variant : AirbyteProperty) :
  prop_properties variant <> None ->
  discriminantOf variant = None ->
  oneOfOption parseNested path st variant = Ok st.
Proof.
  unfold oneOfOption, discriminantOf.
  destruct (prop_properties variant) as [entries |]; [| congruence].
  intros _. now destruct (find hasConst entries).
Qed.

(** A variant without a discriminant is passed over: the loop over the
    variants ends in the same state as without it. *)
Lemma oneOfOptions_skip
    (parseNested :
       string -> AirbyteProperty -> list string -> bool -> result FormField)
    (path : list string) (st : OneOfState) (variant : AirbyteProperty)
    (before after : list AirbyteProperty) :
  prop_properties variant <> None ->
  discriminantOf variant = None ->
  oneOfOptions parseNested path st (before ++ variant :: after) =
  oneOfOptions parseNested path st (before ++ after).
Proof.
  intros Hprops Hdisc. rewrite !oneOfOptions_app.
  destruct (oneOfOptions parseNested path st before) as [st1 | e];
    [| reflexivity].
  simpl. now rewrite oneOfOption_no_discriminant.
Qed.

Lemma oneOfOptions_no_discriminants
    (parseNested :
       string -> AirbyteProperty -> list string -> bool -> result FormField)
    (path : list string) (st : OneOfState) (options : list AirbyteProperty) :
  (forall variant, In variant options ->
     prop_properties variant <> None /\ discriminantOf variant = None) ->
  oneOfOptions parseNested path st options = Ok st.
Proof.
  induction options as [| variant rest IH]; intros H; [reflexivity |].
  simpl. destruct (H variant (or_introl eq_refl)) as [Hprops Hdisc].
  rewrite oneOfOption_no_discriminant by assumption. simpl.
  apply IH. intros v Hv. apply H. now right.
Qed.

Lemma parseEntries_app (lc : string -> string -> Z)
    (l1 l2 : list (string * AirbyteProperty))
    (parentPath required : list string) :
  parseEntries lc (l1 ++ l2) parentPath required =
  (ys <- parseEntries lc l1 parentPath required ;;
   zs <- parseEntries lc l2 parentPath required ;;
   Ok (ys ++ zs)).
Proof. apply flatMapM_app. Qed.

(** C2, as the code has it.  With the root's [properties] absent,
    [parseAirbyteSpec] throws the [TypeError] of [Object.entries] as the
    walk starts.  When every variant of every union carries a [properties]
    mapping this is the only case in which it throws.  A variant without a
    discriminant is passed over, and a union whose variants all lack one is
    still returned, with no discriminant options, no subfields and no
    discriminant key; an array property without an item schema is returned
    as a basic field; and the fields of a list of entries are those of its
    parts, one after the other, so no entry changes what its siblings
    yield. *)
Theorem throws_only_without_properties (lc : string -> string -> Z)
    (spec : AirbyteSpec) :
  (forall entries key prop,
     spec_properties spec = Some entries -> In (key, prop) entries ->
     variants_have_properties prop = true) ->
  (spec_properties spec = None ->
   parseAirbyteSpec lc spec = Throw entries_of_undefined) /\
  ((exists e, parseAirbyteSpec lc spec = Throw e) <->
   spec_properties spec = None) /\
  (spec_properties spec <> None ->
   exists groups, parseAirbyteSpec lc spec = Ok groups) /\
  (forall parseNested path st variant before after,
     prop_properties variant <> None ->
     discriminantOf variant = None ->
     oneOfOptions parseNested path st (before ++ variant :: after) =
     oneOfOptions parseNested path st (before ++ after)) /\
  (forall key prop path isRequired options,
     prop_oneOf prop = Some options ->
     (forall variant, In variant options ->
        prop_properties variant <> None /\ discriminantOf variant = None) ->
     exists node,
       parseOneOfField lc key prop path isRequired = Ok node /\
       field_constOptions node = Some [] /\
       field_subFields node = Some [] /\
       field_constKey node = None) /\
  (forall parentPath required key prop,
     truthy_bool (prop_airbyte_hidden prop) = false ->
     prop_oneOf prop = None ->
     prop_type prop = Some "array" ->
     prop_items prop = None ->
     parseProperty lc parentPath required key prop =
       Ok [parseBasicField key prop (parentPath ++ [key])
             (includes required key)]) /\
  (forall l1 l2 parentPath required,
     parseEntries lc (l1 ++ l2) parentPath required =
       (ys <- parseEntries lc l1 parentPath required ;;
        zs <- parseEntries lc l2 parentPath required ;;
        Ok (ys ++ zs))).
Proof.
  intros Hwf.
  assert (Hthrows : spec_properties spec = None ->
                    parseAirbyteSpec lc spec = Throw entries_of_undefined).
  { intros H. unfold parseAirbyteSpec. now rewrite H. }
  assert (Hreturns : spec_properties spec <> None ->
                     exists groups, parseAirbyteSpec lc spec = Ok groups).
  { intros H. unfold parseAirbyteSpec.
    destruct (spec_properties spec) as [entries |] eqn:E; [| congruence].
    destruct (parseEntries_total lc entries [] (requiredOfSpec spec))
      as (fields & Hfields).
    - intros key q Hin. apply parseProperty_total.
      exact (Hwf entries key q eq_refl Hin).
    - unfold parseProperties. fold (requiredOfSpec spec). rewrite Hfields.
      simpl. destruct (spec_groups spec); now eexists. }
  split; [exact Hthrows |]. split; [| split; [exact Hreturns |]].
  { split.
    - intros (e & He).
      destruct (spec_properties spec) as [entries |] eqn:E; [| reflexivity].
      destruct Hreturns as (groups & Hgroups); congruence.
    - intros H. eexists. now apply Hthrows. }
  split; [intros; now apply oneOfOptions_skip |].
  split; [| split].
  - intros key prop path isRequired options Hoptions Hnone.
    rewrite parseOneOfField_eq, Hoptions.
    rewrite (oneOfOptions_no_discriminants _ _ _ _ Hnone). simpl.
    eexists. split; [reflexivity |]. repeat split.
  - intros parentPath required key prop Hvisible Hunion Htype Hitems.
    rewrite parseProperty_eq, Hvisible, Hunion, Hitems.
    rewrite (proj2 (type_is_true prop "array") Htype). simpl.
    now rewrite (type_is_false prop "array" "object" Htype).
  - intros. apply parseEntries_app.
Qed.

Lemma throws_only_without_properties_witness :
  (forall entries key prop,
     spec_properties toleratedSpec = Some entries -> In (key, prop) entries ->
     variants_have_properties prop = true) /\
  exists groups fields,
    parseAirbyteSpec codeUnitCompare toleratedSpec = Ok groups /\
    map group_fields groups = [fields] /\
    map field_id fields = ["host"; "mode"; "tags"].
Proof.
  assert (Hwf : forall entries key prop,
     spec_properties toleratedSpec = Some entries -> In (key, prop) entries ->
     variants_have_properties prop = true).
  { intros entries key prop [= <-] [[= <- <-] | [[= <- <-] | [[= <- <-] | []]]];
      reflexivity. }
  split; [exact Hwf |].
  destruct (throws_only_without_properties codeUnitCompare toleratedSpec Hwf)
    as (_ & _ & Hreturns & _).
  destruct Hreturns as (groups & Hgroups); [discriminate |].
  exists groups. eexists. split; [exact Hgroups |].
  injection Hgroups as <-. split; reflexivity.
Defined.

(** The claim C2 fails as stated: the root has [properties], a variant of
    its union has none, and the parse throws. *)
Lemma variant_without_properties_throws :
  spec_properties variantWithoutProperties <> None /\
  parseAirbyteSpec codeUnitCompare variantWithoutProperties =
    Throw entries_of_undefined.
Proof. split; [discriminate | reflexivity]. Qed.

(** ** Paths and nesting depth *)


Lemma emitted_inv (fields : list FormField) (field : FormField) :
  emitted fields field ->
  In field fields \/
  exists parent subFields,
    In parent fields /\ field_subFields parent = Some subFields /\
    emitted subFields field.
Proof.
  induction 1 as [field Hin | parent subFields field _ IH Hsubs Hin].
  - now left.
  - right. destruct IH as [Hparent | (top & subs & Htop & Hs & Hem)].
    + exists parent, subFields. repeat split; auto. now constructor.
    + exists top, subs. repeat split; auto.
      eapply emitted_below; eauto.
Qed.

Lemma emitted_incl (l1 l2 : list FormField) (field : FormField) :
  (forall f, In f l1 -> In f l2) -> emitted l1 field -> emitted l2 field.
Proof.
  intros Hincl. induction 1 as [field Hin | parent subFields field _ IH Hsubs
                                  Hin].
  - constructor. now apply Hincl.
  - eapply emitted_below; eauto.
Qed.

Lemma emitted_subFields (fields subFields : list FormField)
    (parent field : FormField) :
  In parent fields -> field_subFields parent = Some subFields ->
  emitted subFields field -> emitted fields field.
Proof.
  intros Hparent Hsubs.
  induction 1 as [field Hin | p subs field _ IH Hs Hin].
  - eapply emitted_below; eauto. now constructor.
  - eapply emitted_below; eauto.
Qed.






Lemma variantSubFields_inv
    (parseNested :
       string -> AirbyteProperty -> list string -> bool -> result FormField)
    (path : list string) (fieldConstKey constValue : string)
    (optionRequired : list string)
    (entries : list (string * AirbyteProperty))
    (subFields : list FormField) :
  variantSubFields parseNested path fieldConstKey constValue optionRequired
    entries = Ok subFields ->
  forall subField, In subField subFields ->
    exists propKey propDef raw,
      In (propKey, propDef) entries /\
      subField = tagSubField path constValue propKey raw /\
      match prop_oneOf propDef with
      | Some _ =>
          parseNested propKey propDef (path ++ [propKey])
            (includes optionRequired propKey) = Ok raw
      | None =>
          raw = parseBasicField propKey propDef (path ++ [propKey])
                  (includes optionRequired propKey)
      end.
Proof.
  intros H subField Hsub. unfold variantSubFields in H.
  apply (flatMapM_In _ _ _ _ _ H) in Hsub
    as ([propKey propDef] & zs & Hentry & Hturn & Hz).
  simpl in Hturn.
  destruct (propKey =? fieldConstKey)%string.
  - injection Hturn as <-. destruct Hz.
  - apply bind_Ok_inv in Hturn as (raw & Hraw & [= <-]).
    destruct Hz as [<- | []].
    exists propKey, propDef, raw. repeat split; [exact Hentry |].
    destruct (prop_oneOf propDef); [exact Hraw | now injection Hraw].
Qed.



Section Located.
Variable lc : string -> string -> Z.
Variable root : list (string * AirbyteProperty).



End Located.

Lemma parseProperty_path_prefix (lc : string -> string -> Z)
    (prop : AirbyteProperty) :
  forall parentPath required key fields,
    parseProperty lc parentPath required key prop = Ok fields ->
    forall field, In field fields ->
      exists suffix, field_path field = (parentPath ++ [key]) ++ suffix.
Proof.
  induction prop as [prop IHnested _ _] using walk_ind.
  intros parentPath required key fields. rewrite parseProperty_eq.
  destruct (truthy_bool (prop_airbyte_hidden prop));
    [intros [= <-] field [] |].
  cbv zeta.
  assert (Hbasic :
    Ok [parseBasicField key prop (parentPath ++ [key])
          (includes required key)] = Ok fields ->
    forall field, In field fields ->
      exists suffix, field_path field = (parentPath ++ [key]) ++ suffix).
  { intros [= <-] field [<- | []]. exists []. simpl. now rewrite app_nil_r. }
  destruct (prop_oneOf prop) as [options |].
  { intros H field Hin. apply bind_Ok_inv in H as (node & Hnode & [= <-]).
    destruct Hin as [<- | []]. exists [].
    rewrite (parseOneOfField_path lc _ _ _ _ _ Hnode). now rewrite app_nil_r. }
  destruct (type_is prop "array" && is_some (prop_items prop)).
  { intros H field Hin. apply bind_Ok_inv in H as (node & Hnode & [= <-]).
    rewrite parseArrayField_eq in Hnode.
    apply bind_Ok_inv in Hnode as (subFields & _ & [= <-]).
    destruct Hin as [<- | []]. exists []. simpl. now rewrite app_nil_r. }
  destruct (type_is prop "object"); [| exact Hbasic].
  destruct (prop_properties prop) as [nested |] eqn:Enested;
    [| exact Hbasic].
  intros H field Hin. unfold parseEntries in H.
  apply (flatMapM_In _ _ _ _ _ H) in Hin as ([k q] & zs & Hentry & Hq & Hin).
  simpl in Hq.
  destruct (IHnested nested k q eq_refl Hentry _ _ _ _ Hq field Hin)
    as (suffix & Hpath).
  exists (k :: suffix). rewrite Hpath. now rewrite <- app_assoc.
Qed.

(** ** Hidden properties *)

(** [parseProperties] skips a hidden entry. *)
Lemma parseProperty_skips_hidden (lc : string -> string -> Z)
    (parentPath required : list string) (key : string)
    (prop : AirbyteProperty) :
  truthy_bool (prop_airbyte_hidden prop) = true ->
  parseProperty lc parentPath required key prop = Ok [].
Proof. intros H. now rewrite parseProperty_eq, H. Qed.

(** So no field that [parseProperties] returns - at the top level, for a
    nested object or for the items of an array - is built from a hidden
    property. *)
Lemma parseProperty_returns_visible (lc : string -> string -> Z)
    (prop : AirbyteProperty) :
  forall parentPath required key fields,
    parseProperty lc parentPath required key prop = Ok fields ->
    forall field, In field fields ->
      truthy_bool (field_hidden field) = false.
Proof.
  induction prop as [prop IHnested _ _] using walk_ind.
  intros parentPath required key fields. rewrite parseProperty_eq.
  destruct (truthy_bool (prop_airbyte_hidden prop)) eqn:Ehidden;
    [intros [= <-] field [] |].
  cbv zeta.
  assert (Hbasic :
    Ok [parseBasicField key prop (parentPath ++ [key])
          (includes required key)] = Ok fields ->
    forall field, In field fields ->
      truthy_bool (field_hidden field) = false).
  { intros [= <-] field [<- | []]. exact Ehidden. }
  destruct (prop_oneOf prop) as [options |].
  { intros H field Hin. apply bind_Ok_inv in H as (node & Hnode & [= <-]).
    destruct Hin as [<- | []]. rewrite parseOneOfField_eq in Hnode.
    apply bind_Ok_inv in Hnode as (st & _ & [= <-]). exact Ehidden. }
  destruct (type_is prop "array" && is_some (prop_items prop)).
  { intros H field Hin. apply bind_Ok_inv in H as (node & Hnode & [= <-]).
    rewrite parseArrayField_eq in Hnode.
    apply bind_Ok_inv in Hnode as (subFields & _ & [= <-]).
    destruct Hin as [<- | []]. exact Ehidden. }
  destruct (type_is prop "object"); [| exact Hbasic].
  destruct (prop_properties prop) as [nested |] eqn:Enested;
    [| exact Hbasic].
  intros H field Hin. unfold parseEntries in H.
  apply (flatMapM_In _ _ _ _ _ H) in Hin as ([k q] & zs & Hentry & Hq & Hin).
  exact (IHnested nested k q eq_refl Hentry _ _ _ _ Hq field Hin).
Qed.

(** C1 does not hold of the code: [parseOneOfField] does not look at
    [airbyte_hidden], and the hidden property of the variant is returned as
    a subfield of the union, flagged hidden. *)
Theorem hidden_variant_property_is_emitted (lc : string -> string -> Z) :
  exists groups group subField,
    parseAirbyteSpec lc hiddenInVariant = Ok groups /\
    In group groups /\
    emitted (group_fields group) subField /\
    subField =
      tagSubField ["ssl_mode"] "verify-ca" "client_key"
        (parseBasicField "client_key" (hiddenLeaf "string")
           ["ssl_mode"; "client_key"] false) /\
    field_id subField = "ssl_mode.verify-ca.client_key" /\
    field_hidden subField = Some true.
Proof.
  eexists. eexists. eexists.
  split; [reflexivity |]. split; [now left |].
  split; [| repeat split].
  eapply emitted_below;
    [apply emitted_here; now left | reflexivity | now left].
Qed.

(** * Further properties of the parser *)

(** ** Hidden entries *)

(** X1.  [parseProperties] returns what it returns for the visible entries
    alone: a hidden entry contributes no field and is never looked into, so
    nothing inside it can make the parse throw. *)
Theorem hidden_entries_are_ignored (lc : string -> string -> Z)
    (entries : list (string * AirbyteProperty))
    (parentPath required : list string) :
  parseEntries lc (filter visible entries) parentPath required =
  parseEntries lc entries parentPath required.
Proof.
  induction entries as [| [key prop] rest IH]; [reflexivity |].
  simpl filter. unfold visible at 1. simpl snd.
  destruct (truthy_bool (prop_airbyte_hidden prop)) eqn:Ehidden; simpl negb.
  - rewrite (parseEntries_cons lc key prop rest).
    rewrite (parseProperty_skips_hidden lc _ _ _ _ Ehidden). simpl.
    rewrite IH.
    now destruct (parseEntries lc rest parentPath required).
  - rewrite !parseEntries_cons. now rewrite IH.
Qed.

(** ** Required flags *)

Lemma app_inv_single (A : Type) (l : list A) (x y : A) (suffix : list A) :
  (l ++ [x]) ++ suffix = l ++ [y] -> x = y /\ suffix = [].
Proof.
  rewrite <- app_assoc. intros H. apply app_inv_head in H.
  simpl in H. injection H as -> ->. now split.
Qed.

(** X2.  A field that [parseProperties] returns at the level of its own
    entries - its path is the parent path extended by one key - is required
    exactly when that key is in the required list of this level.  The
    fields of a nested object are parsed with the object's own list, so the
    list of the enclosing level plays no part for them. *)
Theorem required_follows_own_level (lc : string -> string -> Z)
    (entries : list (string * AirbyteProperty))
    (parentPath required : list string) (fields : list FormField)
    (field : FormField) (key : string) :
  parseEntries lc entries parentPath required = Ok fields ->
  In field fields ->
  field_path field = parentPath ++ [key] ->
  field_required field = includes required key.
Proof.
  intros Hfields Hin Hpath. unfold parseEntries in Hfields.
  apply (flatMapM_In _ _ _ _ _ Hfields) in Hin
    as ([k prop] & zs & _ & Hturn & Hin).
  simpl in Hturn.
  destruct (parseProperty_path_prefix lc prop _ _ _ _ Hturn field Hin)
    as (suffix & Hprefix).
  rewrite Hpath in Hprefix. symmetry in Hprefix.
  apply app_inv_single in Hprefix as [-> ->].
  rewrite parseProperty_eq in Hturn.
  destruct (truthy_bool (prop_airbyte_hidden prop));
    [injection Hturn as <-; destruct Hin |].
  cbv zeta in Hturn.
  assert (Hbasic :
    Ok [parseBasicField key prop (parentPath ++ [key])
          (includes required key)] = Ok zs ->
    field_required field = includes required key).
  { intros [= <-]. destruct Hin as [<- | []]. reflexivity. }
  destruct (prop_oneOf prop) as [options |].
  { apply bind_Ok_inv in Hturn as (node & Hnode & [= <-]).
    destruct Hin as [<- | []]. rewrite parseOneOfField_eq in Hnode.
    apply bind_Ok_inv in Hnode as (st & _ & [= <-]). reflexivity. }
  destruct (type_is prop "array" && is_some (prop_items prop)).
  { apply bind_Ok_inv in Hturn as (node & Hnode & [= <-]).
    destruct Hin as [<- | []]. rewrite parseArrayField_eq in Hnode.
    apply bind_Ok_inv in Hnode as (subFields & _ & [= <-]). reflexivity. }
  destruct (type_is prop "object"); [| exact (Hbasic Hturn)].
  destruct (prop_properties prop) as [nested |]; [| exact (Hbasic Hturn)].
  unfold parseEntries in Hturn.
  apply (flatMapM_In _ _ _ _ _ Hturn) in Hin
    as ([k' q] & ws & _ & Hq & Hin).
  simpl in Hq.
  destruct (parseProperty_path_prefix lc q _ _ _ _ Hq field Hin)
    as (suffix & Hprefix).
  rewrite Hpath in Hprefix. apply (f_equal (@length string)) in Hprefix.
  rewrite !length_app in Hprefix. simpl in Hprefix. lia.
Qed.

Lemma required_follows_own_level_witness :
  exists fields name zone,
    parseEntries codeUnitCompare bucketEntries [] [] = Ok fields /\
    fields = [name; zone] /\
    field_path name = ["bucket"; "name"] /\
    field_required name = true /\
    field_required zone = false.
Proof.
  eexists. eexists. eexists.
  split; [reflexivity |]. split; [reflexivity |].
  split; [reflexivity |]. split.
  - apply (required_follows_own_level codeUnitCompare
             [("name", leaf "string"); ("zone", leaf "string")]
             ["bucket"] ["name"] _ _ "name" eq_refl);
      [now left | reflexivity].
  - apply (required_follows_own_level codeUnitCompare
             [("name", leaf "string"); ("zone", leaf "string")]
             ["bucket"] ["name"] _ _ "zone" eq_refl);
      [right; now left | reflexivity].
Defined.

(** ** Sorting twice *)

(** X3.  Under a collation that is a total preorder, sorting siblings is
    idempotent, and a list that is already in order is returned as it
    is. *)
Theorem sorting_siblings_is_idempotent (lc : string -> string -> Z)
    (fields : list FormField) :
  antisymmetric_collation lc -> transitive_collation lc ->
  sortFieldsByAirbyteRules lc (sortFieldsByAirbyteRules lc fields) =
    sortFieldsByAirbyteRules lc fields /\
  (StronglySorted (fun a b => compareByAirbyteRules lc a b <= 0) fields ->
   sortFieldsByAirbyteRules lc fields = fields).
Proof.
  intros Hanti Htrans.
  assert (Hfix : forall l,
    StronglySorted (fun a b => compareByAirbyteRules lc a b <= 0) l ->
    sortFieldsByAirbyteRules lc l = l).
  { intros l Hl. symmetry.
    apply (sortFieldsByAirbyteRules_unique lc l l Hanti Htrans Hl).
    intros x. reflexivity. }
  split; [| apply Hfix].
  apply Hfix. apply js_sort_sorted.
  - intros a b. now apply compareByAirbyteRules_connex.
  - intros a b c. now apply compareByAirbyteRules_trans.
Qed.

Lemma sorting_siblings_is_idempotent_witness :
  sortFieldsByAirbyteRules codeUnitCompare
    (sortFieldsByAirbyteRules codeUnitCompare
       [hostField; portField; dbnameField]) =
  [dbnameField; hostField; portField].
Proof.
  rewrite (proj1 (sorting_siblings_is_idempotent codeUnitCompare
                    [hostField; portField; dbnameField]
                    codeUnitCompare_antisymmetric
                    codeUnitCompare_transitive)).
  reflexivity.
Defined.

(** ** Declaration order *)

Lemma Permutation_filter_both (A : Type) (f : A -> bool) (l l' : list A) :
  Permutation l l' -> Permutation (filter f l) (filter f l').
Proof.
  induction 1 as [| x l l' _ IH | x y l | l l' l'' _ IH1 _ IH2]; simpl.
  - constructor.
  - destruct (f x); [now constructor | exact IH].
  - destruct (f x), (f y); try reflexivity. apply perm_swap.
  - now transitivity (filter f l').
Qed.

(** X4.  When the rules separate every two siblings - no two of them tie -
    the sorted list does not depend on the order in which the siblings were
    declared: two lists with the same fields are sorted to the same
    list. *)
Theorem sorting_ignores_declaration_order (lc : string -> string -> Z)
    (l1 l2 : list FormField) :
  antisymmetric_collation lc -> transitive_collation lc ->
  Permutation l1 l2 ->
  NoDup l1 ->
  (forall a b, In a l1 -> In b l1 ->
     compareByAirbyteRules lc a b <= 0 ->
     compareByAirbyteRules lc b a <= 0 -> a = b) ->
  sortFieldsByAirbyteRules lc l1 = sortFieldsByAirbyteRules lc l2.
Proof.
  intros Hanti Htrans Hperm Hdup Hsep.
  assert (Hconnex : forall a b,
    0 < compareByAirbyteRules lc a b -> compareByAirbyteRules lc b a <= 0).
  { intros a b. now apply compareByAirbyteRules_connex. }
  assert (Htr : forall a b c,
    compareByAirbyteRules lc a b <= 0 -> compareByAirbyteRules lc b c <= 0 ->
    compareByAirbyteRules lc a c <= 0).
  { intros a b c. now apply compareByAirbyteRules_trans. }
  unfold sortFieldsByAirbyteRules.
  apply (sorted_stable_unique FormField (compareByAirbyteRules lc) Hconnex);
    try (now apply js_sort_sorted).
  intros x.
  set (cmp := compareByAirbyteRules lc).
  assert (Hp1 : Permutation (js_sort cmp l1) l1) by apply js_sort_perm.
  assert (Hp2 : Permutation (js_sort cmp l2) l2) by apply js_sort_perm.
  assert (Hp : Permutation (filter (ties cmp x) (js_sort cmp l1))
                           (filter (ties cmp x) (js_sort cmp l2))).
  { apply Permutation_filter_both. rewrite Hp1, Hp2. exact Hperm. }
  assert (Hnodup : NoDup (filter (ties cmp x) (js_sort cmp l1))).
  { apply NoDup_filter.
    apply (Permutation_NoDup (l := l1)); [now symmetry | exact Hdup]. }
  assert (Hsame : forall a b,
    In a (filter (ties cmp x) (js_sort cmp l1)) ->
    In b (filter (ties cmp x) (js_sort cmp l1)) -> a = b).
  { intros a b Ha Hb.
    apply filter_In in Ha as [Ha Hxa]. apply filter_In in Hb as [Hb Hxb].
    apply ties_true in Hxa as [Hxa Hax].
    apply ties_true in Hxb as [Hxb Hbx].
    apply Hsep.
    - now apply (Permutation_in _ Hp1).
    - now apply (Permutation_in _ Hp1).
    - exact (Htr a x b Hax Hxb).
    - exact (Htr b x a Hbx Hxa). }
  destruct (filter (ties cmp x) (js_sort cmp l1)) as [| a [| b rest]].
  - now apply Permutation_nil in Hp.
  - now apply Permutation_length_1_inv in Hp.
  - assert (a = b) by (apply Hsame; simpl; auto). subst b.
    apply NoDup_cons_iff in Hnodup as [Hnot _]. exfalso. apply Hnot.
    now left.
Qed.

Lemma sorting_ignores_declaration_order_witness :
  sortFieldsByAirbyteRules codeUnitCompare declaredOnce =
  sortFieldsByAirbyteRules codeUnitCompare declaredOtherwise.
Proof.
  apply sorting_ignores_declaration_order.
  - exact codeUnitCompare_antisymmetric.
  - exact codeUnitCompare_transitive.
  - apply (perm_trans (l' := [dbnameField; hostField; portField])).
    + apply Permutation_sym, Permutation_cons_append.
    + constructor. apply perm_swap.
  - repeat constructor; simpl; intuition discriminate.
  - intros a b [<- | [<- | [<- | []]]] [<- | [<- | [<- | []]]];
      try reflexivity; vm_compute; intros H1 H2;
      try (exfalso; apply H1; reflexivity);
      try (exfalso; apply H2; reflexivity).
Defined.

(** ** The selector of a union *)

Lemma firstKey_fold (keys : list string) (current : option string) :
  fold_left (fun c k => if truthy_string c then c else Some k) keys current =
  if truthy_string current then current
  else match firstKey keys with
       | Some k => Some k
       | None => current
       end.
Proof.
  revert current. induction keys as [| k keys IH]; intros current; simpl.
  - unfold firstKey. simpl. now destruct (truthy_string current).
  - rewrite IH. unfold firstKey. simpl.
    destruct (truthy_string current) eqn:Ecur.
    + now rewrite Ecur.
    + unfold truthy_string at 1.
      destruct (negb (k =? "")%string) eqn:Ek; [reflexivity |].
      apply negb_false_iff, String.eqb_eq in Ek. subst k.
      destruct (find (fun k => negb (k =? "")%string) keys);
        [reflexivity |].
      now destruct keys.
Qed.

Lemma oneOfOptions_selector
    (parseNested :
       string -> AirbyteProperty -> list string -> bool -> result FormField)
    (path : list string) (options : list AirbyteProperty) :
  forall st st',
    oneOfOptions parseNested path st options = Ok st' ->
    st_constOptions st' = st_constOptions st ++ optionsOf options /\
    st_constKey st' =
      fold_left (fun c k => if truthy_string c then c else Some k)
        (discriminantKeys options) (st_constKey st).
Proof.
  induction options as [| variant rest IH]; intros st st' H; simpl in H.
  - injection H as <-. simpl. now rewrite app_nil_r.
  - apply bind_Ok_inv in H as (st1 & Hturn & Hrest).
    destruct (IH _ _ Hrest) as (Hopts & Hkey).
    unfold oneOfOption in Hturn. simpl.
    unfold optionOf, discriminantOf.
    destruct (prop_properties variant) as [entries |]; [| discriminate].
    destruct (find hasConst entries) as [constField |].
    + apply bind_Ok_inv in Hturn as (subFields & _ & [= <-]).
      simpl in *. rewrite Hopts, Hkey, <- app_assoc. now split.
    + injection Hturn as <-. now split.
Qed.

(** X5.  The selector of a union node lists one option per variant that
    exposes a discriminant, in declaration order: its value is the
    discriminant value, its title the variant's title or else that value,
    its description the variant's.  The node's discriminant key is the key
    of the first such variant, later variants naming another key
    notwithstanding (an empty key counts as none); it is absent when no
    variant exposes a discriminant. *)
Theorem union_selector (lc : string -> string -> Z) (key : string)
    (prop : AirbyteProperty) (path : list string) (isRequired : bool)
    (node : FormField) (options : list AirbyteProperty) :
  prop_oneOf prop = Some options ->
  parseOneOfField lc key prop path isRequired = Ok node ->
  field_constOptions node = Some (optionsOf options) /\
  field_constKey node = firstKey (discriminantKeys options) /\
  map co_value (optionsOf options) = discriminantValues options /\
  length (optionsOf options) = length (discriminantKeys options).
Proof.
  intros Hoptions. rewrite parseOneOfField_eq, Hoptions. intros H.
  apply bind_Ok_inv in H as (st & Hst & [= <-]).
  apply oneOfOptions_selector in Hst as (Hopts & Hkey). simpl in *.
  rewrite Hopts, Hkey, firstKey_fold. simpl.
  split; [reflexivity |]. split; [now destruct (firstKey _) |].
  clear. split.
  - induction options as [| variant rest IH]; [reflexivity |].
    simpl. unfold optionOf.
    destruct (discriminantOf variant); simpl; now rewrite IH.
  - induction options as [| variant rest IH]; [reflexivity |].
    simpl. unfold optionOf.
    destruct (discriminantOf variant); simpl; now rewrite IH.
Qed.

Lemma union_selector_witness :
  exists node,
    parseOneOfField codeUnitCompare "auth" mixedKeys ["auth"] false =
      Ok node /\
    field_constOptions node =
      Some [ {| co_value := "basic"; co_title := "basic";
                co_description := None |};
             {| co_value := "token"; co_title := "token";
                co_description := None |} ] /\
    field_constKey node = Some "mode".
Proof.
  destruct (parseOneOfField codeUnitCompare "auth" mixedKeys ["auth"] false)
    as [node | e] eqn:Hnode; [| discriminate Hnode].
  exists node. split; [reflexivity |].
  destruct (union_selector codeUnitCompare "auth" mixedKeys ["auth"] false
              node _ eq_refl Hnode) as (Hopts & Hkey & _).
  split; [exact Hopts | exact Hkey].
Defined.

(** ** When the parse throws *)



Section Throws.
Variable lc : string -> string -> Z.

End Throws.


Section WalkThrows.
Variable lc : string -> string -> Z.


End WalkThrows.



(** ** What every node of the output is *)

Lemma all_nodes_step (Q : FormField -> Prop) (fields : list FormField) :
  (forall field, In field fields ->
     Q field /\
     forall subFields, field_subFields field = Some subFields ->
                       all_nodes Q subFields) ->
  all_nodes Q fields.
Proof.
  intros H field Hem.
  apply emitted_inv in Hem as [Hin | (parent & subs & Hin & Hsubs & Hem)].
  - now apply H.
  - destruct (H parent Hin) as [_ Hbelow]. exact (Hbelow subs Hsubs _ Hem).
Qed.

Lemma all_nodes_incl (Q : FormField -> Prop) (l1 l2 : list FormField) :
  (forall f, In f l1 -> In f l2) -> all_nodes Q l2 -> all_nodes Q l1.
Proof.
  intros Hincl H field Hem. apply H. now apply (emitted_incl l1 l2).
Qed.

Lemma all_nodes_subFields (Q : FormField -> Prop)
    (fields subFields : list FormField) (parent : FormField) :
  all_nodes Q fields -> In parent fields ->
  field_subFields parent = Some subFields ->
  all_nodes Q subFields.
Proof.
  intros H Hparent Hsubs field Hem. apply H.
  now apply (emitted_subFields fields subFields parent).
Qed.

Lemma all_nodes_nil (Q : FormField -> Prop) : all_nodes Q [].
Proof. apply all_nodes_step. intros field []. Qed.

Lemma all_nodes_app (Q : FormField -> Prop) (l1 l2 : list FormField) :
  all_nodes Q l1 -> all_nodes Q l2 -> all_nodes Q (l1 ++ l2).
Proof.
  intros H1 H2. apply all_nodes_step. intros field Hin.
  apply in_app_iff in Hin as [Hin | Hin]; split.
  - apply H1. now constructor.
  - intros subs Hsubs. now apply (all_nodes_subFields Q l1 subs field).
  - apply H2. now constructor.
  - intros subs Hsubs. now apply (all_nodes_subFields Q l2 subs field).
Qed.

Section Built.
Variable lc : string -> string -> Z.

Lemma parseOneOfField_built (prop : AirbyteProperty) :
  forall parentPath key isRequired node,
    parseOneOfField lc key prop (parentPath ++ [key]) isRequired = Ok node ->
    all_nodes (built_by lc) [node].
Proof.
  induction prop as [prop _ _ IH] using walk_ind.
  intros parentPath key isRequired node Hnode.
  apply all_nodes_step. intros field [<- | []]. split.
  - eapply built_union; eauto.
  - intros subFields Hsubs.
    destruct (prop_oneOf prop) as [options |] eqn:Eoptions.
    + destruct (parseOneOfField_groups lc key prop (parentPath ++ [key])
                  isRequired node options Eoptions Hnode)
        as (groups & Hgroups & _ & Hsorted & _).
      rewrite Hsorted in Hsubs. injection Hsubs as <-.
      apply (all_nodes_incl _ _ (concat (map snd groups)));
        [intros f Hf; now apply js_sort_In in Hf |].
      apply all_nodes_step. intros sub Hsub.
      apply In_groups_concat in Hsub as (value & own & Hgroup & Hsub).
      destruct (variant_groups_In _ _ _ _ Hgroups _ _ Hgroup)
        as (variant & entries & discKey & Hvariant & Hprops & _ & Hvs).
      destruct (variantSubFields_inv _ _ _ _ _ _ _ Hvs sub Hsub)
        as (propKey & propDef & raw & Hentry & -> & Hraw).
      destruct (prop_oneOf propDef) eqn:Enested.
      * pose proof (IH options variant entries propKey propDef eq_refl
                      Hvariant Hprops Hentry _ _ _ _ Hraw) as Hbelow.
        split.
        -- apply built_tagged.
           ++ eapply built_union; eauto.
           ++ exact (parseOneOfField_path lc _ _ _ _ _ Hraw).
        -- intros subs Hs. simpl in Hs.
           apply (all_nodes_subFields _ [raw] subs raw Hbelow);
             [now left | exact Hs].
      * subst raw. split.
        -- apply built_tagged; [apply built_basic | reflexivity].
        -- intros subs Hs. discriminate Hs.
    + rewrite parseOneOfField_eq, Eoptions in Hnode. simpl in Hnode.
      injection Hnode as <-. simpl in Hsubs. injection Hsubs as <-.
      apply all_nodes_nil.
Qed.

Lemma parseEntries_built (entries : list (string * AirbyteProperty))
    (parentPath required : list string) (fields : list FormField) :
  (forall key q fs,
     In (key, q) entries ->
     parseProperty lc parentPath required key q = Ok fs ->
     all_nodes (built_by lc) fs) ->
  parseEntries lc entries parentPath required = Ok fields ->
  all_nodes (built_by lc) fields.
Proof.
  revert fields. induction entries as [| [key q] rest IH];
    intros fields Hall H.
  - injection H as <-. apply all_nodes_nil.
  - rewrite parseEntries_cons in H.
    apply bind_Ok_inv in H as (ys & Hys & H).
    apply bind_Ok_inv in H as (zs & Hzs & [= <-]).
    apply all_nodes_app.
    + apply (Hall key q ys); [now left | exact Hys].
    + apply IH; [| exact Hzs].
      intros k p fs Hin. apply Hall. now right.
Qed.

Lemma parseProperty_built (prop : AirbyteProperty) :
  forall parentPath required key fields,
    parseProperty lc parentPath required key prop = Ok fields ->
    all_nodes (built_by lc) fields.
Proof.
  induction prop as [prop IHnested IHitems _] using walk_ind.
  intros parentPath required key fields. rewrite parseProperty_eq.
  destruct (truthy_bool (prop_airbyte_hidden prop));
    [intros [= <-]; apply all_nodes_nil |].
  cbv zeta.
  assert (Hbasic :
    Ok [parseBasicField key prop (parentPath ++ [key])
          (includes required key)] = Ok fields ->
    all_nodes (built_by lc) fields).
  { intros [= <-]. apply all_nodes_step. intros field [<- | []].
    split; [apply built_basic | discriminate]. }
  destruct (prop_oneOf prop) as [options |] eqn:Eunion.
  { intros H. apply bind_Ok_inv in H as (node & Hnode & [= <-]).
    exact (parseOneOfField_built prop _ key _ node Hnode). }
  destruct (type_is prop "array" && is_some (prop_items prop)).
  { intros H. apply bind_Ok_inv in H as (node & Hnode & [= <-]).
    apply all_nodes_step. intros field [<- | []].
    split; [eapply built_array; eauto |].
    rewrite parseArrayField_eq in Hnode.
    apply bind_Ok_inv in Hnode as (subFields & Hsubs & [= <-]).
    intros subs [= <-].
    destruct (prop_items prop) as [items |] eqn:Eitems;
      [| injection Hsubs as <-; apply all_nodes_nil].
    destruct (prop_properties items) as [itemProperties |] eqn:Eprops;
      [| injection Hsubs as <-; apply all_nodes_nil].
    destruct (type_is items "object");
      [| injection Hsubs as <-; apply all_nodes_nil].
    apply bind_Ok_inv in Hsubs as (fs & Hfs & [= <-]).
    apply (all_nodes_incl _ _ fs);
      [intros f Hf; now apply js_sort_In in Hf |].
    apply (parseEntries_built itemProperties
             ((parentPath ++ [key]) ++ ["0"]) (requiredOf items) fs);
      [| exact Hfs].
    intros k q ys Hin Hys.
    exact (IHitems items itemProperties k q eq_refl Eprops Hin _ _ _ ys
             Hys). }
  destruct (type_is prop "object"); [| exact Hbasic].
  destruct (prop_properties prop) as [nested |] eqn:Enested;
    [| exact Hbasic].
  apply parseEntries_built. intros k q ys Hin Hys.
  exact (IHnested nested k q eq_refl Hin _ _ _ ys Hys).
Qed.

(** Every node of the parsed groups comes about in one of the four ways. *)
Lemma parseAirbyteSpec_built (spec : AirbyteSpec)
    (groups : list FieldGroup) (group : FieldGroup) :
  parseAirbyteSpec lc spec = Ok groups -> In group groups ->
  all_nodes (built_by lc) (group_fields group).
Proof.
  intros Hparse Hgroup. unfold parseAirbyteSpec, parseProperties in Hparse.
  apply bind_Ok_inv in Hparse as (allFields & Hall & Hparse).
  destruct (spec_properties spec) as [entries |]; [| discriminate].
  assert (Hbuilt : all_nodes (built_by lc) allFields).
  { apply (parseEntries_built entries [] (requiredOfSpec spec) allFields);
      [| exact Hall].
    intros key q fs _ Hfs. exact (parseProperty_built q _ _ _ fs Hfs). }
  apply (all_nodes_incl _ _ allFields); [| exact Hbuilt].
  intros f Hf. destruct (spec_groups spec) as [declared |].
  - injection Hparse as <-.
    apply in_map_iff in Hgroup as (g & <- & _). simpl in Hf.
    apply js_sort_In, filter_In in Hf. apply Hf.
  - injection Hparse as <-. destruct Hgroup as [<- | []]. simpl in Hf.
    now apply js_sort_In in Hf.
Qed.
End Built.

Lemma or_string_nonempty (o : option string) (d : string) :
  d <> "" -> or_string o d <> "".
Proof.
  intros Hd. unfold or_string, truthy_string.
  destruct o as [s |]; [| exact Hd].
  destruct (String.eqb_spec s ""); [exact Hd | assumption].
Qed.


Lemma default_or_empty_truthy (prop : AirbyteProperty) :
  truthy (default_or_empty prop) = true.
Proof.
  unfold default_or_empty. destruct (prop_default prop) as [v |];
    [| reflexivity].
  now destruct (truthy v) eqn:E.
Qed.

Lemma parseProperty_untagged (lc : string -> string -> Z)
    (prop : AirbyteProperty) :
  forall parentPath required key fields,
    parseProperty lc parentPath required key prop = Ok fields ->
    forall field, In field fields -> field_parentValue field = None.
Proof.
  induction prop as [prop IHnested _ _] using walk_ind.
  intros parentPath required key fields. rewrite parseProperty_eq.
  destruct (truthy_bool (prop_airbyte_hidden prop));
    [intros [= <-] field [] |].
  cbv zeta.
  assert (Hbasic :
    Ok [parseBasicField key prop (parentPath ++ [key])
          (includes required key)] = Ok fields ->
    forall field, In field fields -> field_parentValue field = None).
  { intros [= <-] field [<- | []]. reflexivity. }
  destruct (prop_oneOf prop) as [options |].
  { intros H field Hin. apply bind_Ok_inv in H as (node & Hnode & [= <-]).
    destruct Hin as [<- | []]. rewrite parseOneOfField_eq in Hnode.
    apply bind_Ok_inv in Hnode as (st & _ & [= <-]). reflexivity. }
  destruct (type_is prop "array" && is_some (prop_items prop)).
  { intros H field Hin. apply bind_Ok_inv in H as (node & Hnode & [= <-]).
    rewrite parseArrayField_eq in Hnode.
    apply bind_Ok_inv in Hnode as (subFields & _ & [= <-]).
    destruct Hin as [<- | []]. reflexivity. }
  destruct (type_is prop "object"); [| exact Hbasic].
  destruct (prop_properties prop) as [nested |] eqn:Enested;
    [| exact Hbasic].
  intros H field Hin. unfold parseEntries in H.
  apply (flatMapM_In _ _ _ _ _ H) in Hin as ([k q] & zs & Hentry & Hq & Hin).
  exact (IHnested nested k q eq_refl Hentry _ _ _ _ Hq field Hin).
Qed.

Section BuiltRules.
Variable lc : string -> string -> Z.

Lemma built_by_id_rule (field : FormField) :
  built_by lc field -> id_rule field.
Proof.
  induction 1 as [parentPath key prop r
                 | parentPath key prop r node Hnode
                 | parentPath key prop r node Hnode
                 | path value key raw _ _ Hpath].
  - reflexivity.
  - rewrite parseArrayField_eq in Hnode.
    apply bind_Ok_inv in Hnode as (subFields & _ & [= <-]). reflexivity.
  - rewrite parseOneOfField_eq in Hnode.
    apply bind_Ok_inv in Hnode as (st & _ & [= <-]). reflexivity.
  - unfold id_rule. simpl. now exists path, key.
Qed.

Lemma built_by_shape (field : FormField) :
  built_by lc field ->
  union_shape field \/ array_shape field \/ basic_shape field.
Proof.
  induction 1 as [parentPath key prop r
                 | parentPath key prop r node Hnode
                 | parentPath key prop r node Hnode
                 | path value key raw _ IH _].
  - right. right. repeat split.
  - right. left. rewrite parseArrayField_eq in Hnode.
    apply bind_Ok_inv in Hnode as (subFields & _ & [= <-]).
    repeat split.
    exists (or_string (items_type prop) "string"), subFields,
      (default_or_empty prop).
    repeat split.
    + now apply or_string_nonempty.
    + apply default_or_empty_truthy.
  - left. rewrite parseOneOfField_eq in Hnode.
    apply bind_Ok_inv in Hnode as (st & _ & [= <-]).
    repeat split.
    exists (st_constOptions st), (sortOneOfSubFields lc (st_subFields st)),
      (or_string (prop_display_type prop) "dropdown").
    repeat split. now apply or_string_nonempty.
  - exact IH.
Qed.


Lemma built_by_child_rule (parent : FormField) :
  built_by lc parent -> child_rule parent.
Proof.
  induction 1 as [parentPath key prop r
                 | parentPath key prop r node Hnode
                 | parentPath key prop r node Hnode
                 | path value key raw _ IH _].
  - intros subs sub Hsubs. discriminate Hsubs.
  - intros subs sub Hsubs Hin.
    rewrite parseArrayField_eq in Hnode.
    apply bind_Ok_inv in Hnode as (subFields & Hcomputed & [= <-]).
    simpl in Hsubs. injection Hsubs as <-.
    split; [intros H; now destruct H |]. intros _. simpl.
    destruct (prop_items prop) as [items |];
      [| injection Hcomputed as <-; destruct Hin].
    destruct (prop_properties items) as [itemProperties |];
      [| injection Hcomputed as <-; destruct Hin].
    destruct (type_is items "object");
      [| injection Hcomputed as <-; destruct Hin].
    apply bind_Ok_inv in Hcomputed as (fs & Hfs & [= <-]).
    apply js_sort_In in Hin. unfold parseProperties, parseEntries in Hfs.
    apply (flatMapM_In _ _ _ _ _ Hfs) in Hin
      as ([k q] & zs & _ & Hq & Hin).
    simpl in Hq.
    destruct (parseProperty_path_prefix lc q _ _ _ _ Hq sub Hin)
      as (suffix & Hpath).
    exists k, suffix. split.
    + rewrite Hpath. now rewrite <- !app_assoc.
    + exact (parseProperty_untagged lc q _ _ _ _ Hq sub Hin).
  - intros subs sub Hsubs Hin.
    pose proof (parseOneOfField_path lc _ _ _ _ _ Hnode) as Hpath.
    destruct (prop_oneOf prop) as [options |] eqn:Eoptions.
    + destruct (parseOneOfField_groups lc key prop _ r node options
                  Eoptions Hnode) as (groups & Hgroups & _ & Hsorted & _).
      rewrite Hsorted in Hsubs. injection Hsubs as <-.
      apply js_sort_In, In_groups_concat in Hin
        as (value & own & Hgroup & Hin).
      destruct (variant_groups_In _ _ _ _ Hgroups _ _ Hgroup)
        as (variant & entries & discKey & _ & _ & _ & Hvs).
      destruct (variantSubFields_In (parseOneOfField lc) _
                  (parseOneOfField_path lc) _ _ _ _ _ Hvs) as [Hfwd _].
      destruct (Hfwd _ Hin) as (propKey & propDef & _ & _ & Hv & Hp & _).
      split.
      * intros _. exists propKey, value. now rewrite Hpath.
      * intros Hitem. rewrite parseOneOfField_eq in Hnode.
        apply bind_Ok_inv in Hnode as (st & _ & [= <-]).
        now destruct Hitem.
    + rewrite parseOneOfField_eq, Eoptions in Hnode. simpl in Hnode.
      injection Hnode as <-. simpl in Hsubs. injection Hsubs as <-.
      destruct Hin.
  - exact IH.
Qed.
End BuiltRules.

(** X7.  Every node of the output has as [id] its path joined by dots,
    unless it is the subfield of a union; then its id is the union's path,
    the discriminant value of its variant and its own key, joined by
    dots. *)
Theorem ids_follow_paths (lc : string -> string -> Z) (spec : AirbyteSpec)
    (groups : list FieldGroup) (group : FieldGroup) (field : FormField) :
  parseAirbyteSpec lc spec = Ok groups ->
  In group groups ->
  emitted (group_fields group) field ->
  id_rule field.
Proof.
  intros Hparse Hgroup Hem. apply (built_by_id_rule lc).
  exact (parseAirbyteSpec_built lc spec groups group Hparse Hgroup field
           Hem).
Qed.

Lemma ids_follow_paths_witness :
  exists group field,
    parseAirbyteSpec codeUnitCompare nestedSpec = Ok [group] /\
    emitted (group_fields group) field /\
    field_path field = ["ssl_mode"; "password"] /\
    field_id field = "ssl_mode.verify-ca.password" /\
    id_rule field.
Proof.
  eexists. eexists. split; [reflexivity |].
  split;
    [eapply emitted_below;
       [apply emitted_here; right; right; left; reflexivity
       | reflexivity | left; reflexivity] |].
  split; [reflexivity |]. split; [reflexivity |].
  apply (ids_follow_paths codeUnitCompare nestedSpec _ _ _ eq_refl
           (or_introl eq_refl)).
  eapply emitted_below;
    [apply emitted_here; right; right; left; reflexivity
    | reflexivity | left; reflexivity].
Defined.

(** X8.  Every node of the output has one of three shapes.  A union node
    has type "object", a list of options, a list of subfields and a
    non-empty display type, and neither item type nor default.  An array
    node has type "array", a non-empty item type, a list of subfields and a
    default that is truthy, and no options.  Any other node has neither
    subfields nor options, discriminant key, item type or display type. *)
Theorem nodes_have_three_shapes (lc : string -> string -> Z)
    (spec : AirbyteSpec) (groups : list FieldGroup) (group : FieldGroup)
    (field : FormField) :
  parseAirbyteSpec lc spec = Ok groups ->
  In group groups ->
  emitted (group_fields group) field ->
  union_shape field \/ array_shape field \/ basic_shape field.
Proof.
  intros Hparse Hgroup Hem. apply (built_by_shape lc).
  exact (parseAirbyteSpec_built lc spec groups group Hparse Hgroup field
           Hem).
Qed.

Lemma nodes_have_three_shapes_witness :
  exists group field,
    parseAirbyteSpec codeUnitCompare nestedSpec = Ok [group] /\
    emitted (group_fields group) field /\
    field_path field = ["rows"; "0"; "id"] /\
    (union_shape field \/ array_shape field \/ basic_shape field).
Proof.
  eexists. eexists. split; [reflexivity |].
  split;
    [eapply emitted_below;
       [apply emitted_here; right; left; reflexivity
       | reflexivity | left; reflexivity] |].
  split; [reflexivity |].
  apply (nodes_have_three_shapes codeUnitCompare nestedSpec _ _ _ eq_refl
           (or_introl eq_refl)).
  eapply emitted_below;
    [apply emitted_here; right; left; reflexivity
    | reflexivity | left; reflexivity].
Defined.

(** X9.  In the output, the subfields of a union node lie one key below
    the union and carry a [parentValue]; the subfields of an array node lie
    below the index placeholder "0" and carry none; and the fields of a
    group carry none. *)
Theorem subfields_lie_below_their_parent (lc : string -> string -> Z)
    (spec : AirbyteSpec) (groups : list FieldGroup) (group : FieldGroup) :
  parseAirbyteSpec lc spec = Ok groups ->
  In group groups ->
  (forall field, In field (group_fields group) ->
     field_parentValue field = None) /\
  (forall parent, emitted (group_fields group) parent -> child_rule parent).
Proof.
  intros Hparse Hgroup. split.
  - intros field Hin.
    unfold parseAirbyteSpec, parseProperties in Hparse.
    apply bind_Ok_inv in Hparse as (allFields & Hall & Hparse).
    destruct (spec_properties spec) as [entries |]; [| discriminate].
    assert (Hfield : In field allFields).
    { destruct (spec_groups spec) as [declared |].
      - injection Hparse as <-.
        apply in_map_iff in Hgroup as (g & <- & _). simpl in Hin.
        apply js_sort_In, filter_In in Hin. apply Hin.
      - injection Hparse as <-. destruct Hgroup as [<- | []]. simpl in Hin.
        now apply js_sort_In in Hin. }
    unfold parseEntries in Hall.
    apply (flatMapM_In _ _ _ _ _ Hall) in Hfield
      as ([k q] & zs & _ & Hq & Hfield).
    exact (parseProperty_untagged lc q _ _ _ _ Hq field Hfield).
  - intros parent Hem. apply (built_by_child_rule lc).
    exact (parseAirbyteSpec_built lc spec groups group Hparse Hgroup parent
             Hem).
Qed.

Lemma subfields_lie_below_their_parent_witness :
  exists group union,
    parseAirbyteSpec codeUnitCompare nestedSpec = Ok [group] /\
    In union (group_fields group) /\
    field_path union = ["ssl_mode"] /\
    field_parentValue union = None /\
    child_rule union.
Proof.
  eexists. eexists. split; [reflexivity |].
  split; [right; right; left; reflexivity |].
  split; [reflexivity |].
  destruct (subfields_lie_below_their_parent codeUnitCompare nestedSpec
              _ _ eq_refl (or_introl eq_refl)) as (Htop & Hbelow).
  split.
  - apply Htop. right; right; left; reflexivity.
  - apply Hbelow. apply emitted_here. right; right; left; reflexivity.
Defined.



(** ** Distinct paths and identifiers *)

Lemma objects_satisfy_inv (P : list string -> Prop)
    (entries : list (string * AirbyteProperty)) :
  objects_satisfy P entries ->
  P (map fst entries) /\
  forall key q nested,
    In (key, q) entries -> prop_properties q = Some nested ->
    objects_satisfy P nested.
Proof. intros H. destruct H as [entries HP Hnested]. now split. Qed.

Lemma NoDup_map_in (A B : Type) (f : A -> B) (l : list A) :
  NoDup l ->
  (forall x y, In x l -> In y l -> f x = f y -> x = y) ->
  NoDup (map f l).
Proof.
  induction 1 as [| x l Hx _ IH]; intros Hinj; simpl; constructor.
  - intros Hin. apply in_map_iff in Hin as (y & Hy & Hin).
    apply Hx. rewrite (Hinj x y); simpl; auto.
  - apply IH. intros a b Ha Hb. apply Hinj; simpl; auto.
Qed.

Section DistinctPaths.
Variable lc : string -> string -> Z.

Lemma parseEntries_paths_distinct
    (entries : list (string * AirbyteProperty))
    (parentPath required : list string) (fields : list FormField) :
  NoDup (map fst entries) ->
  (forall key q fs,
     In (key, q) entries ->
     parseProperty lc parentPath required key q = Ok fs ->
     NoDup (map field_path fs)) ->
  parseEntries lc entries parentPath required = Ok fields ->
  NoDup (map field_path fields).
Proof.
  revert fields. induction entries as [| [key q] rest IH];
    intros fields Hkeys Hturn H.
  - injection H as <-. constructor.
  - rewrite parseEntries_cons in H.
    apply bind_Ok_inv in H as (ys & Hys & H).
    apply bind_Ok_inv in H as (zs & Hzs & [= <-]).
    simpl in Hkeys. apply NoDup_cons_iff in Hkeys as [Hfresh Hkeys].
    rewrite map_app. apply NoDup_app.
    + apply (Hturn key q ys); [now left | exact Hys].
    + apply IH; [exact Hkeys | | exact Hzs].
      intros k p fs Hin. apply Hturn. now right.
    + intros path Hy Hz.
      apply in_map_iff in Hy as (y & <- & Hy).
      apply in_map_iff in Hz as (z & Heq & Hz).
      unfold parseEntries in Hzs.
      apply (flatMapM_In _ _ _ _ _ Hzs) in Hz
        as ([k p] & ws & Hentry & Hp & Hz).
      simpl in Hp.
      destruct (parseProperty_path_prefix lc q _ _ _ _ Hys y Hy)
        as (sy & Hpy).
      destruct (parseProperty_path_prefix lc p _ _ _ _ Hp z Hz)
        as (sz & Hpz).
      rewrite Hpy, Hpz, <- !app_assoc in Heq.
      apply app_inv_head in Heq. simpl in Heq. injection Heq as Hk _.
      apply Hfresh. apply in_map_iff. exists (k, p). now split.
Qed.

Lemma parseProperty_paths_distinct (prop : AirbyteProperty) :
  forall parentPath required key fields,
    (forall nested, prop_properties prop = Some nested ->
                    distinct_keys nested) ->
    parseProperty lc parentPath required key prop = Ok fields ->
    NoDup (map field_path fields).
Proof.
  induction prop as [prop IHnested _ _] using walk_ind.
  intros parentPath required key fields Hkeys.
  rewrite parseProperty_eq.
  destruct (truthy_bool (prop_airbyte_hidden prop));
    [intros [= <-]; constructor |].
  cbv zeta.
  assert (Hone : forall f : FormField, NoDup (map field_path [f])).
  { intros f. simpl. constructor; [intros [] | constructor]. }
  destruct (prop_oneOf prop) as [options |].
  { intros H. apply bind_Ok_inv in H as (node & _ & [= <-]). apply Hone. }
  destruct (type_is prop "array" && is_some (prop_items prop)).
  { intros H. apply bind_Ok_inv in H as (node & _ & [= <-]). apply Hone. }
  destruct (type_is prop "object"); [| intros [= <-]; apply Hone].
  destruct (prop_properties prop) as [nested |] eqn:Enested;
    [| intros [= <-]; apply Hone].
  destruct (objects_satisfy_inv _ _ (Hkeys nested eq_refl))
    as (Hdistinct & Hbelow).
  apply parseEntries_paths_distinct; [exact Hdistinct |].
  intros k q fs Hin Hfs.
  apply (IHnested nested k q eq_refl Hin (parentPath ++ [key])
           (requiredOf prop) k fs); [| exact Hfs].
  intros nested' Hnested'. exact (Hbelow k q nested' Hin Hnested').
Qed.
End DistinctPaths.

Lemma parseEntries_distinct_keys_paths (lc : string -> string -> Z)
    (entries : list (string * AirbyteProperty))
    (parentPath required : list string) (fields : list FormField) :
  distinct_keys entries ->
  parseEntries lc entries parentPath required = Ok fields ->
  NoDup (map field_path fields).
Proof.
  intros Hkeys. destruct (objects_satisfy_inv _ _ Hkeys)
    as (Hdistinct & Hbelow).
  apply parseEntries_paths_distinct; [exact Hdistinct |].
  intros key q fs Hin Hfs.
  apply (parseProperty_paths_distinct lc q parentPath required key fs);
    [| exact Hfs].
  intros nested Hnested. exact (Hbelow key q nested Hin Hnested).
Qed.

Lemma reusedKeys_distinct : distinct_keys reusedKeys.
Proof.
  constructor.
  - simpl. repeat constructor; simpl; intuition discriminate.
  - intros key q nested [[= <- <-] | [[= <- <-] | [[= <- <-] | []]]];
      intros [= <-].
    constructor.
    + simpl. repeat constructor; simpl; intuition discriminate.
    + intros key q nested [[= <- <-] | [[= <- <-] | []]]; intros [= <-].
      constructor.
      * simpl. repeat constructor; simpl; intuition discriminate.
      * intros key q nested [[= <- <-] | []]. discriminate.
Qed.

(** X11.  When the keys differ within each object of the schema - as the
    keys of JavaScript objects do - the fields that [parseProperties]
    returns for a mapping have pairwise different paths, the fields of
    flattened objects included. *)
Theorem returned_paths_are_distinct (lc : string -> string -> Z)
    (entries : list (string * AirbyteProperty))
    (parentPath required : list string) (fields : list FormField) :
  distinct_keys entries ->
  parseEntries lc entries parentPath required = Ok fields ->
  NoDup (map field_path fields).
Proof. apply parseEntries_distinct_keys_paths. Qed.

Lemma returned_paths_are_distinct_witness :
  exists fields,
    parseEntries codeUnitCompare reusedKeys [] [] = Ok fields /\
    map field_path fields =
      [["name"]; ["bucket"; "name"]; ["bucket"; "region"; "name"];
       ["tags"]] /\
    NoDup (map field_path fields).
Proof.
  eexists. split; [reflexivity |]. split; [reflexivity |].
  exact (returned_paths_are_distinct codeUnitCompare reusedKeys [] [] _
           reusedKeys_distinct eq_refl).
Defined.

Lemma no_dot_cons (c : ascii) (s : string) :
  no_dot (String c s) = true -> c <> "."%char /\ no_dot s = true.
Proof.
  simpl. intros H. apply andb_true_iff in H as [Hc Hs].
  split; [| exact Hs]. intros ->. discriminate Hc.
Qed.

Lemma no_dot_not_dotted (a b y : string) :
  no_dot a = true -> a <> (b ++ "." ++ y)%string.
Proof.
  revert a. induction b as [| c b IH]; intros a Ha Heq; subst a.
  - simpl in Ha. discriminate Ha.
  - simpl in Ha. apply andb_true_iff in Ha as [_ Ha].
    exact (IH _ Ha eq_refl).
Qed.

Lemma dotted_inj (a b x y : string) :
  no_dot a = true -> no_dot b = true ->
  (a ++ "." ++ x)%string = (b ++ "." ++ y)%string -> a = b /\ x = y.
Proof.
  revert b. induction a as [| c a IH]; intros b Ha Hb Heq.
  - destruct b as [| d b].
    + simpl in Heq. injection Heq as ->. now split.
    + simpl in Heq. injection Heq as <- _.
      apply no_dot_cons in Hb as [Hd _]. now destruct Hd.
  - destruct b as [| d b].
    + simpl in Heq. injection Heq as -> _.
      apply no_dot_cons in Ha as [Hc _]. now destruct Hc.
    + simpl in Heq. injection Heq as <- Heq.
      apply no_dot_cons in Ha as [_ Ha]. apply no_dot_cons in Hb as [_ Hb].
      destruct (IH b Ha Hb Heq) as [-> ->]. now split.
Qed.

(** Joining by dots loses nothing when no segment has a dot in it. *)
Lemma join_inj (l1 l2 : list string) :
  l1 <> [] -> l2 <> [] ->
  Forall (fun s => no_dot s = true) l1 ->
  Forall (fun s => no_dot s = true) l2 ->
  join l1 = join l2 -> l1 = l2.
Proof.
  revert l2. induction l1 as [| a l1 IH]; intros l2 H1 H2 Hd1 Hd2 Heq;
    [now destruct H1 |].
  destruct l2 as [| b l2]; [now destruct H2 |].
  apply Forall_cons_iff in Hd1 as [Ha Hd1].
  apply Forall_cons_iff in Hd2 as [Hb Hd2].
  unfold join in *.
  destruct l1 as [| a' l1], l2 as [| b' l2].
  - simpl in Heq. now subst.
  - exfalso. exact (no_dot_not_dotted a b _ Ha Heq).
  - exfalso. symmetry in Heq. exact (no_dot_not_dotted b a _ Hb Heq).
  - change ((a ++ "." ++ String.concat "." (a' :: l1))%string =
            (b ++ "." ++ String.concat "." (b' :: l2))%string) in Heq.
    destruct (dotted_inj a b _ _ Ha Hb Heq) as [-> Hrest].
    f_equal. apply IH; try discriminate; assumption.
Qed.

Section DotlessPaths.
Variable lc : string -> string -> Z.

Lemma parseProperty_paths_dotless (prop : AirbyteProperty) :
  forall parentPath required key fields,
    Forall (fun s => no_dot s = true) parentPath ->
    no_dot key = true ->
    (forall nested, prop_properties prop = Some nested ->
                    dotless_keys nested) ->
    parseProperty lc parentPath required key prop = Ok fields ->
    forall field, In field fields ->
      Forall (fun s => no_dot s = true) (field_path field).
Proof.
  induction prop as [prop IHnested _ _] using walk_ind.
  intros parentPath required key fields Hparent Hkey Hkeys.
  rewrite parseProperty_eq.
  destruct (truthy_bool (prop_airbyte_hidden prop));
    [intros [= <-] field [] |].
  cbv zeta.
  assert (Hpath : Forall (fun s => no_dot s = true) (parentPath ++ [key])).
  { apply Forall_app. split; [exact Hparent | now constructor]. }
  destruct (prop_oneOf prop) as [options |].
  { intros H field Hin. apply bind_Ok_inv in H as (node & Hnode & [= <-]).
    destruct Hin as [<- | []].
    now rewrite (parseOneOfField_path lc _ _ _ _ _ Hnode). }
  destruct (type_is prop "array" && is_some (prop_items prop)).
  { intros H field Hin. apply bind_Ok_inv in H as (node & Hnode & [= <-]).
    rewrite parseArrayField_eq in Hnode.
    apply bind_Ok_inv in Hnode as (subFields & _ & [= <-]).
    destruct Hin as [<- | []]. exact Hpath. }
  destruct (type_is prop "object");
    [| intros [= <-] field [<- | []]; exact Hpath].
  destruct (prop_properties prop) as [nested |] eqn:Enested;
    [| intros [= <-] field [<- | []]; exact Hpath].
  intros H field Hin. unfold parseEntries in H.
  apply (flatMapM_In _ _ _ _ _ H) in Hin as ([k q] & zs & Hentry & Hq & Hin).
  simpl in Hq.
  destruct (objects_satisfy_inv _ _ (Hkeys nested eq_refl))
    as (Hdotless & Hbelow).
  apply (IHnested nested k q eq_refl Hentry (parentPath ++ [key])
           (requiredOf prop) k zs); try assumption.
  - rewrite Forall_forall in Hdotless. apply Hdotless.
    apply in_map_iff. now exists (k, q).
  - intros nested' Hnested'. exact (Hbelow k q nested' Hentry Hnested').
Qed.

Lemma parseEntries_ids_distinct (entries : list (string * AirbyteProperty))
    (parentPath required : list string) (fields : list FormField) :
  distinct_keys entries -> dotless_keys entries ->
  Forall (fun s => no_dot s = true) parentPath ->
  parseEntries lc entries parentPath required = Ok fields ->
  NoDup (map field_id fields).
Proof.
  intros Hdistinct Hdotless Hparent Hfields.
  pose proof (parseEntries_distinct_keys_paths lc entries parentPath required
                fields Hdistinct Hfields) as Hpaths.
  assert (Hbuilt : all_nodes (built_by lc) fields).
  { apply (parseEntries_built lc entries parentPath required fields);
      [| exact Hfields].
    intros key q fs _ Hfs. exact (parseProperty_built lc q _ _ _ fs Hfs). }
  destruct (objects_satisfy_inv _ _ Hdotless) as (Hkeys & Hbelow).
  assert (Hfield : forall field, In field fields ->
    field_id field = join (field_path field) /\
    field_path field <> [] /\
    Forall (fun s => no_dot s = true) (field_path field)).
  { intros field Hin.
    pose proof (built_by_id_rule lc field (Hbuilt field
                  (emitted_here fields field Hin))) as Hid.
    unfold parseEntries in Hfields.
    pose proof Hin as Hin'.
    apply (flatMapM_In _ _ _ _ _ Hfields) in Hin'
      as ([k q] & zs & Hentry & Hq & Hin').
    simpl in Hq. unfold id_rule in Hid.
    rewrite (parseProperty_untagged lc q _ _ _ _ Hq field Hin') in Hid.
    split; [exact Hid |]. split.
    - destruct (parseProperty_path_prefix lc q _ _ _ _ Hq field Hin')
        as (suffix & ->).
      destruct parentPath; discriminate.
    - apply (parseProperty_paths_dotless q parentPath required k zs);
        try assumption.
      + rewrite Forall_forall in Hkeys. apply Hkeys.
        apply in_map_iff. now exists (k, q).
      + intros nested Hnested. exact (Hbelow k q nested Hentry Hnested). }
  assert (Hmap : map field_id fields = map join (map field_path fields)).
  { rewrite map_map. apply map_ext_in. intros f Hf. apply Hfield, Hf. }
  rewrite Hmap. apply NoDup_map_in; [exact Hpaths |].
  intros p1 p2 H1 H2 Heq.
  apply in_map_iff in H1 as (f1 & <- & H1).
  apply in_map_iff in H2 as (f2 & <- & H2).
  destruct (Hfield f1 H1) as (_ & Hne1 & Hd1).
  destruct (Hfield f2 H2) as (_ & Hne2 & Hd2).
  now apply join_inj.
Qed.
End DotlessPaths.

Lemma reusedKeys_dotless : dotless_keys reusedKeys.
Proof.
  constructor.
  - simpl. repeat constructor.
  - intros key q nested [[= <- <-] | [[= <- <-] | [[= <- <-] | []]]];
      intros [= <-].
    constructor.
    + simpl. repeat constructor.
    + intros key q nested [[= <- <-] | [[= <- <-] | []]]; intros [= <-].
      constructor.
      * simpl. repeat constructor.
      * intros key q nested [[= <- <-] | []]. discriminate.
Qed.

(** X12.  "Use full path for unique ID": when, in addition, no key has a
    dot in it and the parent path has none, the fields that
    [parseProperties] returns for a mapping have pairwise different
    ids. *)
Theorem returned_ids_are_distinct (lc : string -> string -> Z)
    (entries : list (string * AirbyteProperty))
    (parentPath required : list string) (fields : list FormField) :
  distinct_keys entries -> dotless_keys entries ->
  Forall (fun s => no_dot s = true) parentPath ->
  parseEntries lc entries parentPath required = Ok fields ->
  NoDup (map field_id fields).
Proof. apply parseEntries_ids_distinct. Qed.

Lemma returned_ids_are_distinct_witness :
  exists fields,
    parseEntries codeUnitCompare reusedKeys [] [] = Ok fields /\
    map field_id fields =
      ["name"; "bucket.name"; "bucket.region.name"; "tags"] /\
    NoDup (map field_id fields).
Proof.
  eexists. split; [reflexivity |]. split; [reflexivity |].
  exact (returned_ids_are_distinct codeUnitCompare reusedKeys [] [] _
           reusedKeys_distinct reusedKeys_dotless (Forall_nil _) eq_refl).
Defined.

(** ** Hidden properties outside unions *)

Lemma outside_inv (fields : list FormField) (field : FormField) :
  emitted_outside_unions fields field ->
  In field fields \/
  exists parent subFields,
    In parent fields /\ field_constOptions parent = None /\
    field_subFields parent = Some subFields /\
    emitted_outside_unions subFields field.
Proof.
  induction 1 as [field Hin | parent subFields field Hparent IH Hopt Hsubs Hin].
  - now left.
  - right. destruct IH as [Hhere | (top & subs & Htop & Hnone & Hs & Hbelow)].
    + exists parent, subFields. repeat split; try assumption.
      now apply outside_here.
    + exists top, subs. repeat split; try assumption.
      eapply outside_below; eauto.
Qed.

Section Visible.
Variable lc : string -> string -> Z.

Lemma visible_outside_step (fields : list FormField) :
  (forall field, In field fields ->
     truthy_bool (field_hidden field) = false /\
     (field_constOptions field = None ->
      forall subFields, field_subFields field = Some subFields ->
                        visible_outside subFields)) ->
  visible_outside fields.
Proof.
  intros Hstep field Hout.
  destruct (outside_inv _ _ Hout)
    as [Hin | (parent & subs & Hin & Hnone & Hsubs & Hbelow)].
  - exact (proj1 (Hstep field Hin)).
  - exact (proj2 (Hstep parent Hin) Hnone subs Hsubs field Hbelow).
Qed.

Lemma visible_outside_incl (l1 l2 : list FormField) :
  (forall f, In f l1 -> In f l2) -> visible_outside l2 -> visible_outside l1.
Proof.
  intros Hincl H2 field Hout. apply H2.
  induction Hout as [field Hin | parent subFields field _ IH Hopt Hsubs Hin].
  - apply outside_here. now apply Hincl.
  - eapply outside_below; eauto.
Qed.

Lemma visible_outside_flatMapM (A : Type) (f : A -> result (list FormField))
    (l : list A) (fields : list FormField) :
  (forall x ys, In x l -> f x = Ok ys -> visible_outside ys) ->
  flatMapM f l = Ok fields ->
  visible_outside fields.
Proof.
  intros Hf Hfields field Hout.
  destruct (outside_inv _ _ Hout)
    as [Hin | (parent & subs & Hin & Hnone & Hsubs & Hbelow)].
  - apply (flatMapM_In _ _ _ _ _ Hfields) in Hin as (x & ys & Hx & Hys & Hin).
    apply (Hf x ys Hx Hys). now apply outside_here.
  - apply (flatMapM_In _ _ _ _ _ Hfields) in Hin as (x & ys & Hx & Hys & Hin).
    apply (Hf x ys Hx Hys).
    assert (Hgen : forall g, emitted_outside_unions subs g ->
                             emitted_outside_unions ys g).
    { induction 1 as [g Hg | p ss g _ IH Hopt Hss Hg].
      - eapply outside_below; [apply outside_here; exact Hin | | |];
          eassumption.
      - eapply outside_below; eauto. }
    now apply Hgen.
Qed.

Lemma parseProperty_visible_outside (prop : AirbyteProperty) :
  forall parentPath required key fields,
    parseProperty lc parentPath required key prop = Ok fields ->
    visible_outside fields.
Proof.
  induction prop as [prop IHnested IHitems _] using walk_ind.
  intros parentPath required key fields. rewrite parseProperty_eq.
  destruct (truthy_bool (prop_airbyte_hidden prop)) eqn:Ehidden.
  { intros [= <-]. apply visible_outside_step. intros field []. }
  cbv zeta.
  assert (Hbasic :
    Ok [parseBasicField key prop (parentPath ++ [key])
          (includes required key)] = Ok fields ->
    visible_outside fields).
  { intros [= <-]. apply visible_outside_step. intros field [<- | []].
    split; [exact Ehidden | discriminate]. }
  destruct (prop_oneOf prop) as [options |] eqn:Eunion.
  { intros H. apply bind_Ok_inv in H as (node & Hnode & [= <-]).
    rewrite parseOneOfField_eq in Hnode.
    apply bind_Ok_inv in Hnode as (st & _ & [= <-]).
    apply visible_outside_step. intros field [<- | []].
    split; [exact Ehidden | discriminate]. }
  destruct (type_is prop "array" && is_some (prop_items prop)).
  { intros H. apply bind_Ok_inv in H as (node & Hnode & [= <-]).
    rewrite parseArrayField_eq in Hnode.
    apply bind_Ok_inv in Hnode as (subFields & Hsubs & [= <-]).
    apply visible_outside_step. intros field [<- | []].
    split; [exact Ehidden |]. intros _ subs [= <-].
    destruct (prop_items prop) as [items |] eqn:Eitems;
      [| injection Hsubs as <-; apply visible_outside_step; intros f []].
    destruct (prop_properties items) as [itemProperties |] eqn:Eprops;
      [| injection Hsubs as <-; apply visible_outside_step; intros f []].
    destruct (type_is items "object");
      [| injection Hsubs as <-; apply visible_outside_step; intros f []].
    apply bind_Ok_inv in Hsubs as (fs & Hfs & [= <-]).
    apply (visible_outside_incl _ fs);
      [intros f Hf; now apply js_sort_In in Hf |].
    simpl in Hfs. unfold parseEntries in Hfs.
    apply (visible_outside_flatMapM _ _ _ _ (fun x ys Hx Hys =>
             IHitems items itemProperties (fst x) (snd x) eq_refl Eprops
               (eq_ind _ (fun e => In e itemProperties) Hx _
                  (surjective_pairing x)) _ _ _ ys Hys) Hfs). }
  destruct (type_is prop "object"); [| exact Hbasic].
  destruct (prop_properties prop) as [nested |] eqn:Enested;
    [| exact Hbasic].
  intros Hfs. unfold parseEntries in Hfs.
  apply (visible_outside_flatMapM _ _ _ _ (fun x ys Hx Hys =>
           IHnested nested (fst x) (snd x) eq_refl
             (eq_ind _ (fun e => In e nested) Hx _ (surjective_pairing x))
             _ _ _ ys Hys) Hfs).
Qed.

Lemma parseAirbyteSpec_visible_outside (spec : AirbyteSpec)
    (groups : list FieldGroup) (group : FieldGroup) :
  parseAirbyteSpec lc spec = Ok groups -> In group groups ->
  visible_outside (group_fields group).
Proof.
  unfold parseAirbyteSpec. intros H Hgroup.
  apply bind_Ok_inv in H as (allFields & Hall & Hgroups).
  assert (Hvis : visible_outside allFields).
  { destruct (spec_properties spec) as [entries |]; [| discriminate Hall].
    simpl in Hall. unfold parseEntries in Hall.
    apply (visible_outside_flatMapM _ _ _ _ (fun x ys _ Hys =>
             parseProperty_visible_outside (snd x) _ _ _ ys Hys) Hall). }
  destruct (spec_groups spec) as [declared |]; injection Hgroups as <-.
  - apply in_map_iff in Hgroup as (g & <- & _). simpl.
    apply (visible_outside_incl _ allFields); [| exact Hvis].
    intros f Hf. apply js_sort_In in Hf.
    now apply filter_In in Hf as [Hf _].
  - destruct Hgroup as [<- | []]. simpl.
    apply (visible_outside_incl _ allFields); [| exact Hvis].
    intros f Hf. now apply js_sort_In in Hf.
Qed.

End Visible.

(** X13.  Outside unions the output has no hidden node: a field of a
    group, and a subfield reached from one through array nodes only, is
    never flagged hidden.  (Inside the variants of a union the flag is not
    looked at.) *)
Theorem no_hidden_node_outside_unions (lc : string -> string -> Z)
    (spec : AirbyteSpec) (groups : list FieldGroup) (group : FieldGroup)
    (field : FormField) :
  parseAirbyteSpec lc spec = Ok groups ->
  In group groups ->
  emitted_outside_unions (group_fields group) field ->
  truthy_bool (field_hidden field) = false.
Proof.
  intros Hparse Hgroup.
  exact (parseAirbyteSpec_visible_outside lc spec groups group Hparse Hgroup
           field).
Qed.

Lemma no_hidden_node_outside_unions_witness :
  exists group rows field,
    parseAirbyteSpec codeUnitCompare hiddenOutsideUnions = Ok [group] /\
    map field_path (group_fields group) = [["bucket"; "name"]; ["rows"]] /\
    In rows (group_fields group) /\
    field_subFields rows = Some [field] /\
    field_path field = ["rows"; "0"; "id"] /\
    truthy_bool (field_hidden field) = false.
Proof.
  eexists. eexists. eexists.
  split; [reflexivity |]. split; [reflexivity |].
  split; [right; left; reflexivity |].
  split; [reflexivity |]. split; [reflexivity |].
  apply (no_hidden_node_outside_unions codeUnitCompare hiddenOutsideUnions
           _ _ _ eq_refl (or_introl eq_refl)).
  eapply outside_below;
    [apply outside_here; right; left; reflexivity
    | reflexivity | reflexivity | left; reflexivity].
Defined.

(** ** The properties of a variant *)

Lemma parseOneOfField_required (lc : string -> string -> Z) (key : string)
    (prop : AirbyteProperty) (path : list string) (isRequired : bool)
    (node : FormField) :
  parseOneOfField lc key prop path isRequired = Ok node ->
  field_required node = isRequired.
Proof.
  rewrite parseOneOfField_eq. intros H.
  now apply bind_Ok_inv in H as (st & _ & [= <-]).
Qed.

Lemma parseOneOfField_subField (lc : string -> string -> Z) (key : string)
    (prop : AirbyteProperty) (path : list string) (isRequired : bool)
    (node : FormField) (options : list AirbyteProperty)
    (subFields : list FormField) (subField : FormField) :
  prop_oneOf prop = Some options ->
  parseOneOfField lc key prop path isRequired = Ok node ->
  field_subFields node = Some subFields ->
  In subField subFields ->
  exists variant entries discKey value propKey propDef raw,
    In variant options /\
    prop_properties variant = Some entries /\
    discriminantOf variant = Some (discKey, value) /\
    In (propKey, propDef) entries /\
    subField = tagSubField path value propKey raw /\
    match prop_oneOf propDef with
    | Some _ =>
        parseOneOfField lc propKey propDef (path ++ [propKey])
          (includes (requiredOf variant) propKey) = Ok raw
    | None =>
        raw = parseBasicField propKey propDef (path ++ [propKey])
                (includes (requiredOf variant) propKey)
    end.
Proof.
  intros Hunion Hnode Hsubs Hin.
  destruct (parseOneOfField_groups lc key prop path isRequired node options
              Hunion Hnode) as (groups & Hgroups & _ & Hsorted & _).
  rewrite Hsubs in Hsorted. injection Hsorted as ->.
  apply js_sort_In in Hin.
  apply In_groups_concat in Hin as (value & own & Hgroup & Hin).
  destruct (variant_groups_In _ _ _ _ Hgroups value own Hgroup)
    as (variant & entries & discKey & Hvariant & Hentries & Hdisc & Hown).
  destruct (variantSubFields_inv _ _ _ _ _ _ _ Hown subField Hin)
    as (propKey & propDef & raw & Hentry & Htag & Hraw).
  exists variant, entries, discKey, value, propKey, propDef, raw.
  repeat split; assumption.
Qed.

(** X14.  Inside a variant only a nested union is resolved further.  Every
    subfield of a union node is built from one property of one variant, at
    the union's path extended by the property's key, and is required
    exactly when the variant's own required list names that key.  When the
    property is a union the subfield is what [parseOneOfField] returns for
    it; otherwise it is a basic field, also when the property is an array
    or an object: then it has no subfields and no item type, and the items
    or properties below it yield no node. *)
Theorem variant_properties_are_not_expanded (lc : string -> string -> Z)
    (key : string) (prop : AirbyteProperty) (path : list string)
    (isRequired : bool) (node : FormField)
    (options : list AirbyteProperty) (subFields : list FormField)
    (subField : FormField) :
  prop_oneOf prop = Some options ->
  parseOneOfField lc key prop path isRequired = Ok node ->
  field_subFields node = Some subFields ->
  In subField subFields ->
  exists variant entries discKey value propKey propDef,
    In variant options /\
    prop_properties variant = Some entries /\
    discriminantOf variant = Some (discKey, value) /\
    In (propKey, propDef) entries /\
    field_path subField = path ++ [propKey] /\
    field_required subField = includes (requiredOf variant) propKey /\
    match prop_oneOf propDef with
    | Some _ =>
        exists raw,
          parseOneOfField lc propKey propDef (path ++ [propKey])
            (includes (requiredOf variant) propKey) = Ok raw /\
          subField = tagSubField path value propKey raw
    | None =>
        subField =
          tagSubField path value propKey
            (parseBasicField propKey propDef (path ++ [propKey])
               (includes (requiredOf variant) propKey)) /\
        field_type subField = prop_type propDef /\
        basic_shape subField
    end.
Proof.
  intros Hunion Hnode Hsubs Hin.
  destruct (parseOneOfField_subField lc key prop path isRequired node
              options subFields subField Hunion Hnode Hsubs Hin)
    as (variant & entries & discKey & value & propKey & propDef & raw &
        Hvariant & Hentries & Hdisc & Hentry & -> & Hraw).
  exists variant, entries, discKey, value, propKey, propDef.
  do 4 (split; [assumption |]).
  destruct (prop_oneOf propDef) as [nested |].
  - split; [exact (parseOneOfField_path lc _ _ _ _ _ Hraw) |].
    split; [exact (parseOneOfField_required lc _ _ _ _ _ Hraw) |].
    exists raw. now split.
  - subst raw. split; [reflexivity |]. split; [reflexivity |].
    split; [reflexivity |]. split; [reflexivity |].
    repeat split.
Qed.

Lemma variant_properties_are_not_expanded_witness :
  exists node bucket rows,
    parseOneOfField codeUnitCompare "source" arrayInVariant ["source"] false
      = Ok node /\
    field_subFields node = Some [rows; bucket] /\
    field_path rows = ["source"; "rows"] /\
    field_type rows = Some "array" /\
    field_required rows = true /\
    field_subFields rows = None /\
    field_type bucket = Some "object" /\
    field_subFields bucket = None.
Proof.
  destruct (parseOneOfField codeUnitCompare "source" arrayInVariant
              ["source"] false) as [node | e] eqn:Hnode;
    [| discriminate Hnode].
  destruct (field_subFields node) as [subFields |] eqn:Hsubs;
    [| injection Hnode as <-; discriminate Hsubs].
  assert (Hlist : exists rows bucket, subFields = [rows; bucket]).
  { injection Hnode as <-. injection Hsubs as <-. now eexists; eexists. }
  destruct Hlist as (rows & bucket & ->).
  exists node, bucket, rows.
  split; [reflexivity |]. split; [exact Hsubs |].
  assert (Hrows : field_path rows = ["source"; "rows"] /\
                  field_type rows = Some "array" /\
                  field_required rows = true).
  { injection Hnode as <-. injection Hsubs as <- <-. now repeat split. }
  assert (Hbucket : field_type bucket = Some "object").
  { injection Hnode as <-. now injection Hsubs as <- <-. }
  destruct Hrows as (Hpath & Htype & Hrequired).
  do 3 (split; [assumption |]).
  destruct (variant_properties_are_not_expanded codeUnitCompare "source"
              arrayInVariant ["source"] false node _ _ rows eq_refl Hnode
              Hsubs (or_introl eq_refl))
    as (v1 & e1 & d1 & c1 & k1 & p1 & Hv1 & He1 & _ & Hin1 & Hp1 & _ & H1).
  destruct (variant_properties_are_not_expanded codeUnitCompare "source"
              arrayInVariant ["source"] false node _ _ bucket eq_refl Hnode
              Hsubs (or_intror (or_introl eq_refl)))
    as (v2 & e2 & d2 & c2 & k2 & p2 & Hv2 & He2 & _ & Hin2 & Hp2 & _ & H2).
  destruct Hv1 as [<- | []]. destruct Hv2 as [<- | []].
  injection He1 as <-. injection He2 as <-.
  split; [| split; [exact Hbucket |]].
  - destruct Hin1 as [[= <- <-] | [[= <- <-] | [[= <- <-] | []]]];
      destruct H1 as (_ & _ & Hshape & _); exact Hshape.
  - destruct Hin2 as [[= <- <-] | [[= <- <-] | [[= <- <-] | []]]];
      destruct H2 as (_ & _ & Hshape & _); exact Hshape.
Defined.

(** ** Parsing below a prefix *)

Lemma string_app_assoc (a b c : string) :
  ((a ++ b) ++ c)%string = (a ++ b ++ c)%string.
Proof. induction a as [| x a IH]; simpl; [reflexivity | now rewrite IH]. Qed.

Lemma join_app (l m : list string) :
  l <> [] -> m <> [] -> join (l ++ m) = (join l ++ "." ++ join m)%string.
Proof.
  unfold join. induction l as [| a l IH]; intros Hl Hm; [now destruct Hl |].
  destruct l as [| b l].
  - destruct m as [| c m]; [now destruct Hm |]. reflexivity.
  - change (String.concat "." ((a :: b :: l) ++ m))
      with (a ++ "." ++ String.concat "." ((b :: l) ++ m))%string.
    rewrite IH by (discriminate || assumption).
    change (String.concat "." (a :: b :: l))
      with (a ++ "." ++ String.concat "." (b :: l))%string.
    now rewrite !string_app_assoc.
Qed.

Lemma last_app_nonempty (A : Type) (l m : list A) (d : A) :
  m <> [] -> last (l ++ m) d = last m d.
Proof.
  intros Hm. induction l as [| a l IH]; [reflexivity |].
  simpl. rewrite IH. destruct (l ++ m) eqn:E; [| reflexivity].
  apply app_eq_nil in E as [_ ->]. now destruct Hm.
Qed.

Lemma js_insert_map (A : Type) (cmp : A -> A -> Z) (f : A -> A) (x : A)
    (l : list A) :
  (forall y, In y l -> cmp (f x) (f y) = cmp x y) ->
  js_insert cmp (f x) (map f l) = map f (js_insert cmp x l).
Proof.
  induction l as [| y t IH]; intros H; [reflexivity |].
  simpl. rewrite (H y (or_introl eq_refl)).
  destruct (0 <? cmp x y); [| reflexivity].
  simpl. f_equal. apply IH. intros z Hz. apply H. now right.
Qed.

Lemma js_sort_map (A : Type) (cmp : A -> A -> Z) (f : A -> A) (l : list A) :
  (forall a b, In a l -> In b l -> cmp (f a) (f b) = cmp a b) ->
  js_sort cmp (map f l) = map f (js_sort cmp l).
Proof.
  induction l as [| x t IH]; intros H; [reflexivity |].
  simpl. rewrite IH by (intros a b Ha Hb; apply H; now right).
  apply js_insert_map. intros y Hy. apply js_sort_In in Hy.
  apply H; [now left | now right].
Qed.

Lemma flatMapM_map (A B : Type) (f g : A -> result (list B)) (h : B -> B)
    (l : list A) :
  (forall x, In x l -> f x = (ys <- g x ;; Ok (map h ys))) ->
  flatMapM f l = (ys <- flatMapM g l ;; Ok (map h ys)).
Proof.
  induction l as [| x t IH]; intros H; [reflexivity |].
  simpl. rewrite (H x (or_introl eq_refl)).
  rewrite IH by (intros y Hy; apply H; now right).
  destruct (g x) as [ys | e]; [| reflexivity]. simpl.
  destruct (flatMapM g t) as [zs | e]; [| reflexivity]. simpl.
  now rewrite map_app.
Qed.

Section Relocation.
Variable lc : string -> string -> Z.
Variable prefix : list string.
Hypothesis prefix_nonempty : prefix <> [].

Lemma relocate_fieldName (a : FormField) :
  field_path a <> [] -> fieldName (relocate prefix a) = fieldName a.
Proof.
  intros Ha. destruct a. unfold fieldName. simpl in *.
  now apply last_app_nonempty.
Qed.

Lemma relocate_compareByAirbyteRules (a b : FormField) :
  field_path a <> [] -> field_path b <> [] ->
  compareByAirbyteRules lc (relocate prefix a) (relocate prefix b) =
  compareByAirbyteRules lc a b.
Proof.
  intros Ha Hb. unfold compareByAirbyteRules.
  rewrite (relocate_fieldName a Ha), (relocate_fieldName b Hb).
  now destruct a, b.
Qed.

Lemma relocate_compareOneOfSubFields (a b : FormField) :
  field_path a <> [] -> field_path b <> [] ->
  compareOneOfSubFields lc (relocate prefix a) (relocate prefix b) =
  compareOneOfSubFields lc a b.
Proof.
  intros Ha Hb. unfold compareOneOfSubFields, parentValue_differs.
  rewrite (relocate_fieldName a Ha), (relocate_fieldName b Hb).
  now destruct a, b.
Qed.

Lemma relocate_sortFieldsByAirbyteRules (fields : list FormField) :
  (forall a, In a fields -> field_path a <> []) ->
  sortFieldsByAirbyteRules lc (map (relocate prefix) fields) =
  map (relocate prefix) (sortFieldsByAirbyteRules lc fields).
Proof.
  intros H. apply js_sort_map. intros a b Ha Hb.
  apply relocate_compareByAirbyteRules; now apply H.
Qed.

Lemma relocate_sortOneOfSubFields (fields : list FormField) :
  (forall a, In a fields -> field_path a <> []) ->
  sortOneOfSubFields lc (map (relocate prefix) fields) =
  map (relocate prefix) (sortOneOfSubFields lc fields).
Proof.
  intros H. apply js_sort_map. intros a b Ha Hb.
  apply relocate_compareOneOfSubFields; now apply H.
Qed.

Lemma relocate_parseBasicField (key : string) (prop : AirbyteProperty)
    (path : list string) (isRequired : bool) :
  path <> [] ->
  relocate prefix (parseBasicField key prop path isRequired) =
  parseBasicField key prop (prefix ++ path) isRequired.
Proof.
  intros Hpath. unfold parseBasicField. simpl.
  now rewrite (join_app prefix path prefix_nonempty Hpath).
Qed.

Lemma relocate_tagSubField (path : list string) (value key : string)
    (raw : FormField) :
  path <> [] ->
  relocate prefix (tagSubField path value key raw) =
  tagSubField (prefix ++ path) value key (relocate prefix raw).
Proof.
  intros Hpath. destruct raw. unfold tagSubField. simpl.
  rewrite (join_app prefix path prefix_nonempty Hpath).
  now rewrite !string_app_assoc.
Qed.

Lemma relocate_arrayNode (key : string) (prop : AirbyteProperty)
    (path : list string) (isRequired : bool) (subFields : list FormField) :
  path <> [] ->
  relocate prefix (arrayNode key prop path isRequired subFields) =
  arrayNode key prop (prefix ++ path) isRequired
    (map (relocate prefix) subFields).
Proof.
  intros Hpath. unfold arrayNode. simpl.
  now rewrite (join_app prefix path prefix_nonempty Hpath).
Qed.

Lemma relocate_oneOfNode (key : string) (prop : AirbyteProperty)
    (path : list string) (isRequired : bool) (st : OneOfState) :
  path <> [] ->
  (forall a, In a (st_subFields st) -> field_path a <> []) ->
  relocate prefix (oneOfNode lc key prop path isRequired st) =
  oneOfNode lc key prop (prefix ++ path) isRequired
    (relocate_state prefix st).
Proof.
  intros Hpath Hsubs. unfold oneOfNode. simpl.
  rewrite (join_app prefix path prefix_nonempty Hpath).
  now rewrite (relocate_sortOneOfSubFields (st_subFields st) Hsubs).
Qed.

Lemma variantSubFields_relocate (path : list string)
    (fieldConstKey constValue : string) (optionRequired : list string)
    (entries : list (string * AirbyteProperty)) :
  path <> [] ->
  (forall key q, In (key, q) entries ->
     forall k p r, p <> [] ->
       parseOneOfField lc k q (prefix ++ p) r =
       (node <- parseOneOfField lc k q p r ;; Ok (relocate prefix node))) ->
  variantSubFields (parseOneOfField lc) (prefix ++ path) fieldConstKey
    constValue optionRequired entries =
  (subFields <- variantSubFields (parseOneOfField lc) path fieldConstKey
                  constValue optionRequired entries ;;
   Ok (map (relocate prefix) subFields)).
Proof.
  intros Hpath IH. unfold variantSubFields. apply flatMapM_map.
  intros [propKey propDef] Hentry. simpl.
  destruct (propKey =? fieldConstKey)%string; [reflexivity |].
  assert (Hsub : path ++ [propKey] <> []) by (now destruct path).
  rewrite <- app_assoc.
  destruct (prop_oneOf propDef) as [nested |].
  - rewrite (IH propKey propDef Hentry propKey (path ++ [propKey]) _ Hsub).
    destruct (parseOneOfField lc propKey propDef (path ++ [propKey])
                (includes optionRequired propKey)) as [raw | e];
      [| reflexivity].
    cbn [bind map]. now rewrite relocate_tagSubField.
  - cbn [bind map]. rewrite relocate_tagSubField by assumption.
    now rewrite relocate_parseBasicField.
Qed.

Lemma oneOfOption_relocate (path : list string) (st : OneOfState)
    (variant : AirbyteProperty) :
  path <> [] ->
  (forall entries key q,
     prop_properties variant = Some entries -> In (key, q) entries ->
     forall k p r, p <> [] ->
       parseOneOfField lc k q (prefix ++ p) r =
       (node <- parseOneOfField lc k q p r ;; Ok (relocate prefix node))) ->
  oneOfOption (parseOneOfField lc) (prefix ++ path)
    (relocate_state prefix st) variant =
  (st' <- oneOfOption (parseOneOfField lc) path st variant ;;
   Ok (relocate_state prefix st')).
Proof.
  intros Hpath IH. unfold oneOfOption.
  destruct (prop_properties variant) as [entries |]; [| reflexivity].
  destruct (find hasConst entries) as [constField |]; [| reflexivity].
  cbv zeta.
  rewrite (variantSubFields_relocate path _ _ _ entries Hpath
             (fun key q Hin => IH entries key q eq_refl Hin)).
  destruct (variantSubFields (parseOneOfField lc) path (fst constField) _
              (requiredOf variant) entries) as [subFields | e];
    [| reflexivity].
  simpl. unfold relocate_state. simpl. now rewrite map_app.
Qed.

Lemma oneOfOptions_relocate (path : list string)
    (options : list AirbyteProperty) :
  path <> [] ->
  (forall variant entries key q,
     In variant options ->
     prop_properties variant = Some entries -> In (key, q) entries ->
     forall k p r, p <> [] ->
       parseOneOfField lc k q (prefix ++ p) r =
       (node <- parseOneOfField lc k q p r ;; Ok (relocate prefix node))) ->
  forall st,
    oneOfOptions (parseOneOfField lc) (prefix ++ path)
      (relocate_state prefix st) options =
    (st' <- oneOfOptions (parseOneOfField lc) path st options ;;
     Ok (relocate_state prefix st')).
Proof.
  intros Hpath. induction options as [| variant rest IHrest]; intros IH st;
    [reflexivity |].
  simpl.
  rewrite (oneOfOption_relocate path st variant Hpath
             (fun entries key q => IH variant entries key q
                                     (or_introl eq_refl))).
  destruct (oneOfOption (parseOneOfField lc) path st variant) as [st1 | e];
    [| reflexivity].
  simpl. apply IHrest. intros v entries key q Hv.
  apply (IH v entries key q). now right.
Qed.

Lemma oneOfOptions_subField_paths (path : list string)
    (options : list AirbyteProperty) (st : OneOfState) :
  oneOfOptions (parseOneOfField lc) path initialOneOfState options = Ok st ->
  forall a, In a (st_subFields st) -> field_path a <> [].
Proof.
  intros Hst a Hin.
  destruct (oneOfOptions_groups _ _ _ _ _ Hst)
    as (groups & Hgroups & _ & Hsubs & _).
  rewrite Hsubs in Hin. simpl in Hin.
  apply In_groups_concat in Hin as (value & own & Hgroup & Hin).
  destruct (variant_groups_In _ _ _ _ Hgroups value own Hgroup)
    as (variant & entries & discKey & _ & _ & _ & Hown).
  destruct (variantSubFields_inv _ _ _ _ _ _ _ Hown a Hin)
    as (propKey & propDef & raw & _ & -> & Hraw).
  assert (Hpath : field_path raw = path ++ [propKey]).
  { destruct (prop_oneOf propDef).
    - exact (parseOneOfField_path lc _ _ _ _ _ Hraw).
    - now subst raw. }
  simpl. rewrite Hpath. now destruct path.
Qed.

Lemma parseOneOfField_relocate (prop : AirbyteProperty) :
  forall key path isRequired, path <> [] ->
    parseOneOfField lc key prop (prefix ++ path) isRequired =
    (node <- parseOneOfField lc key prop path isRequired ;;
     Ok (relocate prefix node)).
Proof.
  induction prop as [prop _ _ IHvariants] using walk_ind.
  intros key path isRequired Hpath. rewrite !parseOneOfField_eq.
  destruct (prop_oneOf prop) as [options |] eqn:Eunion.
  - change initialOneOfState
      with (relocate_state prefix initialOneOfState) at 1.
    rewrite (oneOfOptions_relocate path options Hpath
               (fun variant entries k q Hv He Hin =>
                  IHvariants options variant entries k q eq_refl Hv He Hin)).
    destruct (oneOfOptions (parseOneOfField lc) path initialOneOfState
                options) as [st | e] eqn:Hst; [| reflexivity].
    cbn [bind]. f_equal. symmetry. apply relocate_oneOfNode; [exact Hpath |].
    exact (oneOfOptions_subField_paths path options st Hst).
  - cbn [bind]. f_equal. symmetry.
    change initialOneOfState
      with (relocate_state prefix initialOneOfState) at 2.
    apply relocate_oneOfNode; [exact Hpath | intros a []].
Qed.

Lemma parseProperty_relocate (prop : AirbyteProperty) :
  forall parentPath required key,
    parseProperty lc (prefix ++ parentPath) required key prop =
    (fields <- parseProperty lc parentPath required key prop ;;
     Ok (map (relocate prefix) fields)).
Proof.
  induction prop as [prop IHnested IHitems _] using walk_ind.
  intros parentPath required key. rewrite !parseProperty_eq.
  destruct (truthy_bool (prop_airbyte_hidden prop)); [reflexivity |].
  cbv zeta. rewrite <- app_assoc.
  assert (Hpath : parentPath ++ [key] <> []) by (now destruct parentPath).
  assert (Hbasic :
    Ok [parseBasicField key prop (prefix ++ parentPath ++ [key])
          (includes required key)] =
    (fields <- Ok [parseBasicField key prop (parentPath ++ [key])
                     (includes required key)] ;;
     Ok (map (relocate prefix) fields))).
  { cbn [bind map]. now rewrite relocate_parseBasicField. }
  destruct (prop_oneOf prop) as [options |].
  { rewrite (parseOneOfField_relocate prop key _ _ Hpath).
    now destruct (parseOneOfField lc key prop (parentPath ++ [key])
                    (includes required key)). }
  destruct (type_is prop "array" && is_some (prop_items prop)).
  { rewrite !parseArrayField_eq.
    destruct (prop_items prop) as [items |] eqn:Eitems;
      [| cbn [bind map]; now rewrite relocate_arrayNode].
    destruct (prop_properties items) as [itemProperties |] eqn:Eprops;
      [| cbn [bind map]; now rewrite relocate_arrayNode].
    destruct (type_is items "object");
      [| cbn [bind map]; now rewrite relocate_arrayNode].
    cbn [bind parseProperties]. rewrite <- app_assoc. unfold parseEntries.
    rewrite (flatMapM_map _ _ _
               (fun entry =>
                  parseProperty lc ((parentPath ++ [key]) ++ ["0"])
                    (requiredOf items) (fst entry) (snd entry))
               (relocate prefix) itemProperties).
    2:{ intros [k q] Hin. simpl.
        exact (IHitems items itemProperties k q eq_refl Eprops Hin _ _ _). }
    destruct (flatMapM _ itemProperties) as [fields | e] eqn:Hfields;
      [| reflexivity].
    cbn [bind map]. rewrite relocate_sortFieldsByAirbyteRules.
    - now rewrite relocate_arrayNode.
    - intros a Ha.
      apply (flatMapM_In _ _ _ _ _ Hfields) in Ha
        as ([k q] & zs & _ & Hq & Ha).
      destruct (parseProperty_path_prefix lc q _ _ _ _ Hq a Ha)
        as (suffix & ->).
      now destruct parentPath. }
  destruct (type_is prop "object"); [| exact Hbasic].
  destruct (prop_properties prop) as [nested |] eqn:Enested;
    [| exact Hbasic].
  unfold parseEntries. apply flatMapM_map.
  intros [k q] Hin. simpl.
  exact (IHnested nested k q eq_refl Hin _ _ _).
Qed.

Lemma parseEntries_relocate (entries : list (string * AirbyteProperty))
    (parentPath required : list string) :
  parseEntries lc entries (prefix ++ parentPath) required =
  (fields <- parseEntries lc entries parentPath required ;;
   Ok (map (relocate prefix) fields)).
Proof.
  unfold parseEntries. apply flatMapM_map. intros entry _.
  apply parseProperty_relocate.
Qed.

End Relocation.

(** X15.  The parent path enters the result only as a prefix.  Parsing a
    mapping below a longer parent path returns - or throws - what parsing
    it below the shorter one does, with every node moved: the added
    segments are put before its path and, joined by dots, before its id,
    and nothing else changes, the order of siblings included. *)
Theorem parent_path_is_a_prefix (lc : string -> string -> Z)
    (entries : list (string * AirbyteProperty)) (first : string)
    (rest parentPath required : list string) :
  parseEntries lc entries ((first :: rest) ++ parentPath) required =
  (fields <- parseEntries lc entries parentPath required ;;
   Ok (map (relocate (first :: rest)) fields)).
Proof. apply parseEntries_relocate. discriminate. Qed.

(** ** The required list *)

Lemma parseProperty_required_ext (lc : string -> string -> Z)
    (prop : AirbyteProperty) (parentPath r1 r2 : list string)
    (key : string) :
  includes r1 key = includes r2 key ->
  parseProperty lc parentPath r1 key prop =
  parseProperty lc parentPath r2 key prop.
Proof. intros H. rewrite !parseProperty_eq. now rewrite H. Qed.

(** X16.  The required list of a level matters only through which keys of
    that level it names: two lists that name the same keys of the mapping
    give the same result, whatever their order, their repetitions and the
    other names in them - the keys of nested objects included, whose fields
    follow the lists of those objects. *)
Theorem required_list_matters_by_membership (lc : string -> string -> Z)
    (entries : list (string * AirbyteProperty))
    (parentPath r1 r2 : list string) :
  (forall key, In key (map fst entries) ->
     includes r1 key = includes r2 key) ->
  parseEntries lc entries parentPath r1 =
  parseEntries lc entries parentPath r2.
Proof.
  intros H. unfold parseEntries. apply flatMapM_ext_in.
  intros [key q] Hin. simpl. apply parseProperty_required_ext.
  apply H. apply in_map_iff. now exists (key, q).
Qed.

Lemma required_list_matters_by_membership_witness :
  parseEntries codeUnitCompare bucketEntries [] ["bucket"; "name"] =
  parseEntries codeUnitCompare bucketEntries [] ["zone"; "bucket"; "bucket"].
Proof.
  apply required_list_matters_by_membership.
  intros key [<- | []]. reflexivity.
Defined.

(** ** Siblings that tie *)

Lemma compareByAirbyteRules_strict (lc : string -> string -> Z)
    (a b : FormField) :
  antisymmetric_collation lc ->
  0 < compareByAirbyteRules lc a b -> compareByAirbyteRules lc b a < 0.
Proof.
  intros Hanti. unfold compareByAirbyteRules.
  destruct (field_order a) as [oa |], (field_order b) as [ob |];
    try lia.
  destruct (field_required a), (field_required b); simpl; try lia;
    intros H; apply Hanti in H; lia.
Qed.

Lemma filter_cons_inv (A : Type) (p : A -> bool) (l : list A) (x : A)
    (m : list A) :
  filter p l = x :: m ->
  exists l1 l2, l = l1 ++ x :: l2 /\ filter p l2 = m.
Proof.
  induction l as [| y t IH]; [discriminate |]. simpl.
  destruct (p y).
  - intros [= -> <-]. now exists [], t.
  - intros H. destruct (IH H) as (l1 & l2 & -> & Hm).
    now exists (y :: l1), l2.
Qed.

Lemma filter_app_cons_inv (A : Type) (p : A -> bool) (m1 : list A) :
  forall (l : list A) (x : A) (m : list A),
    filter p l = m1 ++ x :: m ->
    exists l1 l2, l = l1 ++ x :: l2 /\ filter p l2 = m.
Proof.
  induction m1 as [| z m1 IH]; intros l x m H.
  - now apply filter_cons_inv.
  - apply filter_cons_inv in H as (k1 & k2 & -> & H).
    destruct (IH k2 x m H) as (j1 & j2 & -> & Hm).
    exists (k1 ++ z :: j1), j2. now rewrite <- app_assoc.
Qed.

Lemma occurs_before_filter (A : Type) (p : A -> bool) (x y : A)
    (l : list A) :
  p x = true -> p y = true ->
  occurs_before x y l <-> occurs_before x y (filter p l).
Proof.
  intros Hx Hy. split.
  - intros (l1 & l2 & l3 & ->).
    exists (filter p l1), (filter p l2), (filter p l3).
    rewrite filter_app. simpl. rewrite Hx, filter_app. simpl.
    now rewrite Hy.
  - intros (m1 & m2 & m3 & H).
    apply filter_app_cons_inv in H as (l1 & k & -> & H).
    apply filter_app_cons_inv in H as (l2 & l3 & -> & _).
    now exists l1, l2, l3.
Qed.

(** X17.  Siblings that the rules do not separate keep the order of their
    declaration: when neither of two fields is ranked before the other - as
    with two fields that carry the same order numeral - the one that comes
    first in the list comes first in the sorted list. *)
Theorem ties_keep_declaration_order (lc : string -> string -> Z)
    (fields : list FormField) (a b : FormField) :
  antisymmetric_collation lc ->
  transitive_collation lc ->
  ~ spec_sorts_before lc a b ->
  ~ spec_sorts_before lc b a ->
  occurs_before a b fields ->
  occurs_before a b (sortFieldsByAirbyteRules lc fields).
Proof.
  intros Hanti Htrans Hab Hba Hbefore.
  assert (Hle : forall x y,
            ~ spec_sorts_before lc x y -> ~ spec_sorts_before lc y x ->
            compareByAirbyteRules lc x y <= 0).
  { intros x y Hxy Hyx.
    destruct (Z_lt_le_dec 0 (compareByAirbyteRules lc x y)) as [Hpos | Hle];
      [| exact Hle].
    exfalso. apply Hyx. apply compareByAirbyteRules_before.
    now apply compareByAirbyteRules_strict. }
  assert (Haa : ties (compareByAirbyteRules lc) a a = true).
  { apply ties_refl. intros x y.
    now apply compareByAirbyteRules_connex. }
  assert (Htie : ties (compareByAirbyteRules lc) a b = true).
  { apply ties_true. split; now apply Hle. }
  pose proof (js_sort_stable _ (compareByAirbyteRules lc)
                (fun x y z => compareByAirbyteRules_trans lc x y z Htrans)
                fields a) as Hstable.
  apply (occurs_before_filter _ _ a b _ Haa Htie).
  unfold sortFieldsByAirbyteRules. rewrite Hstable.
  now apply occurs_before_filter.
Qed.

Lemma ties_keep_declaration_order_witness :
  occurs_before zetaField alphaField [hostField; zetaField; alphaField] /\
  sortFieldsByAirbyteRules codeUnitCompare
    [hostField; zetaField; alphaField] =
    [zetaField; alphaField; hostField] /\
  occurs_before zetaField alphaField
    (sortFieldsByAirbyteRules codeUnitCompare
       [hostField; zetaField; alphaField]).
Proof.
  assert (Hbefore :
    occurs_before zetaField alphaField [hostField; zetaField; alphaField]).
  { now exists [hostField], [], []. }
  split; [exact Hbefore |]. split; [reflexivity |].
  apply (ties_keep_declaration_order codeUnitCompare _ zetaField alphaField
           codeUnitCompare_antisymmetric codeUnitCompare_transitive).
  - unfold spec_sorts_before. simpl. lia.
  - unfold spec_sorts_before. simpl. lia.
  - exact Hbefore.
Defined.

(** ** Reordering the variants of a union *)











(** ** Unions nested in several variants *)

Lemma variantSubFields_complete
    (parseNested :
       string -> AirbyteProperty -> list string -> bool -> result FormField)
    (path : list string) (fieldConstKey constValue : string)
    (optionRequired : list string)
    (entries : list (string * AirbyteProperty))
    (subFields : list FormField) :
  variantSubFields parseNested path fieldConstKey constValue optionRequired
    entries = Ok subFields ->
  forall propKey propDef,
    In (propKey, propDef) entries -> propKey <> fieldConstKey ->
    exists raw,
      In (tagSubField path constValue propKey raw) subFields /\
      match prop_oneOf propDef with
      | Some _ =>
          parseNested propKey propDef (path ++ [propKey])
            (includes optionRequired propKey) = Ok raw
      | None =>
          raw = parseBasicField propKey propDef (path ++ [propKey])
                  (includes optionRequired propKey)
      end.
Proof.
  unfold variantSubFields. revert subFields.
  induction entries as [| [k q] rest IH]; intros subFields H propKey propDef
    Hin Hkey; [destruct Hin |].
  simpl in H. apply bind_Ok_inv in H as (ys & Hys & H).
  apply bind_Ok_inv in H as (zs & Hzs & [= <-]).
  destruct Hin as [[= -> ->] | Hin].
  - apply String.eqb_neq in Hkey. rewrite Hkey in Hys.
    apply bind_Ok_inv in Hys as (raw & Hraw & [= <-]).
    exists raw. split; [apply in_or_app; left; now left |].
    destruct (prop_oneOf propDef); [exact Hraw | now injection Hraw].
  - destruct (IH zs Hzs propKey propDef Hin Hkey) as (raw & Hraw & Hbuilt).
    exists raw. split; [apply in_or_app; now right | exact Hbuilt].
Qed.

Lemma parseOneOfField_frame (lc : string -> string -> Z)
    (key key' : string) (prop prop' : AirbyteProperty) (path : list string)
    (isRequired isRequired' : bool) (node node' : FormField) :
  prop_oneOf prop = prop_oneOf prop' ->
  parseOneOfField lc key prop path isRequired = Ok node ->
  parseOneOfField lc key' prop' path isRequired' = Ok node' ->
  field_subFields node = field_subFields node' /\
  field_constOptions node = field_constOptions node' /\
  field_constKey node = field_constKey node'.
Proof.
  rewrite !parseOneOfField_eq. intros <- H H'.
  apply bind_Ok_inv in H as (st & Hst & [= <-]).
  apply bind_Ok_inv in H' as (st' & Hst' & [= <-]).
  rewrite Hst in Hst'. injection Hst' as <-. now repeat split.
Qed.

Lemma parseOneOfField_nested (lc : string -> string -> Z) (key : string)
    (prop : AirbyteProperty) (path : list string) (isRequired : bool)
    (node : FormField) (options : list AirbyteProperty)
    (variant : AirbyteProperty) (entries : list (string * AirbyteProperty))
    (discKey value propKey : string) (propDef : AirbyteProperty) :
  prop_oneOf prop = Some options ->
  parseOneOfField lc key prop path isRequired = Ok node ->
  In variant options ->
  prop_properties variant = Some entries ->
  discriminantOf variant = Some (discKey, value) ->
  In (propKey, propDef) entries -> propKey <> discKey ->
  exists subFields raw,
    field_subFields node = Some subFields /\
    In (tagSubField path value propKey raw) subFields /\
    match prop_oneOf propDef with
    | Some _ =>
        parseOneOfField lc propKey propDef (path ++ [propKey])
          (includes (requiredOf variant) propKey) = Ok raw
    | None =>
        raw = parseBasicField propKey propDef (path ++ [propKey])
                (includes (requiredOf variant) propKey)
    end.
Proof.
  intros Hoptions Hnode Hvariant Hentries Hdisc Hentry Hkey.
  destruct (parseOneOfField_groups lc key prop path isRequired node options
              Hoptions Hnode) as (groups & Hgroups & _ & Hsubs & _).
  destruct (variant_groups_complete _ _ _ _ Hgroups variant discKey value
              Hvariant Hdisc) as (entries' & own & Hentries' & Hgroup & Hown).
  rewrite Hentries in Hentries'. injection Hentries' as <-.
  destruct (variantSubFields_complete _ _ _ _ _ _ _ Hown propKey propDef
              Hentry Hkey) as (raw & Hraw & Hbuilt).
  eexists. exists raw. split; [exact Hsubs |]. split; [| exact Hbuilt].
  apply js_sort_In. apply In_groups_concat. now exists value, own.
Qed.

(** X19.  The id of a union's subfield names the variant it belongs to,
    but the path does not, and the ids below a nested union are made from
    its path alone.  So when two variants of a union with different
    discriminant values - strings - hold, under the same key, unions with
    the same variants, the two nested union nodes have different ids, the
    same path, the same subfields, ids included, and the same options. *)
Theorem nested_unions_share_their_subfields (lc : string -> string -> Z)
    (key : string) (prop : AirbyteProperty) (path : list string)
    (isRequired : bool) (node : FormField)
    (options : list AirbyteProperty) (v1 v2 : AirbyteProperty)
    (e1 e2 : list (string * AirbyteProperty))
    (k1 k2 value1 value2 nestedKey : string) (q1 q2 : AirbyteProperty) :
  prop_oneOf prop = Some options ->
  parseOneOfField lc key prop path isRequired = Ok node ->
  In v1 options -> In v2 options ->
  prop_properties v1 = Some e1 -> prop_properties v2 = Some e2 ->
  discriminantOf v1 = Some (k1, value1) ->
  discriminantOf v2 = Some (k2, value2) ->
  In (nestedKey, q1) e1 -> In (nestedKey, q2) e2 ->
  nestedKey <> k1 -> nestedKey <> k2 ->
  prop_oneOf q1 <> None -> prop_oneOf q1 = prop_oneOf q2 ->
  value1 <> value2 ->
  exists subFields s1 s2,
    field_subFields node = Some subFields /\
    In s1 subFields /\ In s2 subFields /\
    field_parentValue s1 = Some value1 /\
    field_parentValue s2 = Some value2 /\
    field_path s1 = path ++ [nestedKey] /\
    field_path s2 = path ++ [nestedKey] /\
    field_id s1 = (join path ++ "." ++ value1 ++ "." ++ nestedKey)%string /\
    field_id s2 = (join path ++ "." ++ value2 ++ "." ++ nestedKey)%string /\
    field_id s1 <> field_id s2 /\
    field_subFields s1 = field_subFields s2 /\
    field_constOptions s1 = field_constOptions s2.
Proof.
  intros Hoptions Hnode Hv1 Hv2 He1 He2 Hd1 Hd2 Hin1 Hin2 Hk1 Hk2 Hunion
    Hsame Hvalues.
  destruct (parseOneOfField_nested lc key prop path isRequired node options
              v1 e1 k1 value1 nestedKey q1 Hoptions Hnode Hv1 He1 Hd1 Hin1
              Hk1) as (subFields & raw1 & Hsubs & Hs1 & Hraw1).
  destruct (parseOneOfField_nested lc key prop path isRequired node options
              v2 e2 k2 value2 nestedKey q2 Hoptions Hnode Hv2 He2 Hd2 Hin2
              Hk2) as (subFields' & raw2 & Hsubs' & Hs2 & Hraw2).
  rewrite Hsubs in Hsubs'. injection Hsubs' as <-.
  rewrite <- Hsame in Hraw2.
  destruct (prop_oneOf q1) as [nested |] eqn:Hq1; [| now destruct Hunion].
  destruct (parseOneOfField_frame lc _ _ q1 q2 _ _ _ raw1 raw2
              (eq_trans Hq1 Hsame) Hraw1 Hraw2)
    as (Hsubfields & Hopts & _).
  exists subFields, (tagSubField path value1 nestedKey raw1),
    (tagSubField path value2 nestedKey raw2).
  split; [exact Hsubs |]. split; [exact Hs1 |]. split; [exact Hs2 |].
  split; [reflexivity |]. split; [reflexivity |].
  split; [exact (parseOneOfField_path lc _ _ _ _ _ Hraw1) |].
  split; [exact (parseOneOfField_path lc _ _ _ _ _ Hraw2) |].
  split; [reflexivity |]. split; [reflexivity |].
  split; [| split; [exact Hsubfields | exact Hopts]].
  apply (built_from_distinct path value1 value2 nestedKey); [| | exact Hvalues].
  - split; [reflexivity |].
    split; [exact (parseOneOfField_path lc _ _ _ _ _ Hraw1) | reflexivity].
  - split; [reflexivity |].
    split; [exact (parseOneOfField_path lc _ _ _ _ _ Hraw2) | reflexivity].
Qed.

Lemma nested_unions_share_their_subfields_witness :
  exists node subFields s1 s2,
    parseOneOfField codeUnitCompare "source" formatInBoth ["source"] false
      = Ok node /\
    field_subFields node = Some subFields /\
    map field_id subFields = ["source.file.format"; "source.url.format"] /\
    In s1 subFields /\ In s2 subFields /\
    field_parentValue s1 = Some "file" /\
    field_parentValue s2 = Some "url" /\
    field_path s1 = field_path s2 /\
    field_id s1 <> field_id s2 /\
    field_subFields s1 = field_subFields s2.
Proof.
  destruct (parseOneOfField codeUnitCompare "source" formatInBoth
              ["source"] false) as [node | e] eqn:Hnode;
    [| discriminate Hnode].
  destruct (nested_unions_share_their_subfields codeUnitCompare "source"
              formatInBoth ["source"] false node _
              (objectNode [("kind", constLeaf "file");
                           ("format", csvFormat)] [])
              (objectNode [("kind", constLeaf "url");
                           ("format", csvFormat)] ["format"])
              _ _ "kind" "kind" "file" "url" "format" csvFormat csvFormat
              eq_refl Hnode (or_introl eq_refl)
              (or_intror (or_introl eq_refl)) eq_refl eq_refl eq_refl
              eq_refl (or_intror (or_introl eq_refl))
              (or_intror (or_introl eq_refl)))
    as (subFields & s1 & s2 & Hsubs & Hin1 & Hin2 & Hvalue1 & Hvalue2
        & Hpath1 & Hpath2 & _ & _ & Hids & Hsame & _);
    try discriminate; try reflexivity.
  exists node, subFields, s1, s2.
  split; [reflexivity |]. split; [exact Hsubs |].
  split; [injection Hnode as <-; injection Hsubs as <-; reflexivity |].
  split; [exact Hin1 |]. split; [exact Hin2 |].
  split; [exact Hvalue1 |]. split; [exact Hvalue2 |].
  split; [now rewrite Hpath1, Hpath2 |].
  split; [exact Hids | exact Hsame].
Defined.


(** * Arrays, objects and defaults in unions; the collation *)

(** ** Arrays *)






(** ** Defaults *)





(** ** Objects, paths and nesting depth *)






(** ** What the result depends on *)








Section AgreeingCollations.
Variables lc1 lc2 : string -> string -> Z.








End AgreeingCollations.




